(** * The file-explorer tree model, view model, selection and virtualizer

    A shallow embedding of [src/file-system.ts] (the classes [File],
    [Directory] and [FSViewModel], and the function [filepath]) over an
    explicit store of objects and arrays, followed by the properties of the
    specification that concern them. *)

From Stdlib Require Import ZArith String Ascii.
From stdpp Require Import gmap strings list sorting relations.

Local Open Scope string_scope.
Local Open Scope list_scope.

(** ** JavaScript strings

    A [string] stands for a JavaScript string whose UTF-16 code units all lie
    below 256; a character of the [string] is one code unit. *)

Module JsString.

(** [s.split(sep)] for a separator [sep] of length one. *)
Fixpoint split (sep : ascii) (s : string) : list string :=
  match s with
  | EmptyString => [EmptyString]
  | String c rest =>
      if Ascii.eqb c sep then EmptyString :: split sep rest
      else match split sep rest with
           | [] => [String c EmptyString]
           | part :: parts => String c part :: parts
           end
  end.

(** [parts.join(sep)]. *)
Fixpoint join (sep : string) (parts : list string) : string :=
  match parts with
  | [] => ""
  | [part] => part
  | part :: rest => part +:+ sep +:+ join sep rest
  end.

(** [s.startsWith(p)]. *)
Definition startsWith (p s : string) : bool := String.prefix p s.

(** [parts.at(-1)]: the last element, [undefined] on an empty array. *)
Definition at_last (parts : list string) : option string := last parts.

(** [v || ""] for [v : string | undefined]: the empty string and
    [undefined] are both falsy. *)
Definition or_empty (v : option string) : string :=
  match v with
  | Some s => if String.eqb s "" then "" else s
  | None => ""
  end.

(** The white space that [trim] strips, among code units below 256: TAB,
    LF, VT, FF, CR, SPACE and NBSP. *)
Definition isWhiteSpace (c : ascii) : bool :=
  let n := nat_of_ascii c in
  (((9 <=? n) && (n <=? 13)) || (n =? 32) || (n =? 160))%nat.

Fixpoint trimStart (s : string) : string :=
  match s with
  | EmptyString => EmptyString
  | String c rest => if isWhiteSpace c then trimStart rest else s
  end.

(** Drops trailing white space: a white-space character is kept only when
    something remains after it. *)
Fixpoint trimEnd (s : string) : string :=
  match s with
  | EmptyString => EmptyString
  | String c rest =>
      match trimEnd rest with
      | EmptyString => if isWhiteSpace c then EmptyString else String c EmptyString
      | rest' => String c rest'
      end
  end.

(** [s.trim()]. *)
Definition trim (s : string) : string := trimEnd (trimStart s).

(** Specification side: the substring after the last occurrence of [sep],
    when [sep] occurs at all. *)
Fixpoint afterLast (sep : ascii) (s : string) : option string :=
  match s with
  | EmptyString => None
  | String c rest =>
      match afterLast sep rest with
      | Some t => Some t
      | None => if Ascii.eqb c sep then Some rest else None
      end
  end.

(** Specification side: a string of white space only, a string that
    starts with white space, and a string that ends with white space. *)
Fixpoint allWhiteSpace (s : string) : bool :=
  match s with
  | EmptyString => true
  | String c rest => isWhiteSpace c && allWhiteSpace rest
  end.

Definition startsWhite (s : string) : bool :=
  match s with
  | EmptyString => false
  | String c _ => isWhiteSpace c
  end.

Fixpoint endsWhite (s : string) : bool :=
  match s with
  | EmptyString => false
  | String c EmptyString => isWhiteSpace c
  | String _ rest => endsWhite rest
  end.

End JsString.

(** ** The store

    Objects ([File] and [Directory] instances) and arrays are identified by
    references; an object's fields and an array's elements live in the
    store, so that two references to one object see each other's updates. *)

Abbreviation loc := positive (only parsing).
Abbreviation aref := positive (only parsing).

(** [type FSItem = File | Directory], with the fields in declaration order.
    The [type] tag is fixed by the class; a [File] has no [deleted] field and
    no [_children]. *)
Inductive FSItem : Type :=
| File (name : string) (parent : option loc)
| Directory (_children : aref) (name : string) (parent : option loc) (deleted : bool).

(** The values of the [type] field: ["file"] and ["directory"]. *)
Inductive FSType : Type := file | directory.

Definition type (item : FSItem) : FSType :=
  match item with
  | File _ _ => file
  | Directory _ _ _ _ => directory
  end.

Definition name (item : FSItem) : string :=
  match item with
  | File n _ => n
  | Directory _ n _ _ => n
  end.

Definition parent (item : FSItem) : option loc :=
  match item with
  | File _ p => p
  | Directory _ _ p _ => p
  end.

(** [item.deleted]: [undefined] on a [File]. *)
Definition deleted (item : FSItem) : option bool :=
  match item with
  | File _ _ => None
  | Directory _ _ _ d => Some d
  end.

Record Store : Type := mkStore {
  objects : gmap loc FSItem;
  arrays : gmap aref (list loc);
}.

(** [new Error(message)]. *)
Inductive Error : Type := mkError (message : string).

(** The outcome of running a piece of code from a store: it returns, it
    throws, it goes [Wrong] (a reference that is not in the store or an
    object of the wrong class, both excluded by TypeScript's types), or it
    runs out of fuel (the model of a recursion or loop that has not finished
    within the given number of steps). *)
Inductive Outcome (A : Type) : Type :=
| Return (a : A) (s : Store)
| Throw (e : Error) (s : Store)
| Wrong
| OutOfFuel.
Arguments Return {A} a s.
Arguments Throw {A} e s.
Arguments Wrong {A}.
Arguments OutOfFuel {A}.

Definition M (A : Type) : Type := Store → Outcome A.

#[global] Instance M_ret : MRet M := λ A a s, Return a s.
#[global] Instance M_bind : MBind M := λ A B f m s,
  match m s with
  | Return a s' => f a s'
  | Throw e s' => Throw e s'
  | Wrong => Wrong
  | OutOfFuel => OutOfFuel
  end.

Definition throw {A} (e : Error) : M A := λ s, Throw e s.
Definition wrong {A} : M A := λ _, Wrong.
Definition out_of_fuel {A} : M A := λ _, OutOfFuel.

(** The store itself, for a callback that reads it. *)
Definition get_store : M Store := λ s, Return s s.

(** *** Objects *)

Definition get_item (l : loc) : M FSItem := λ s,
  match objects s !! l with
  | Some item => Return item s
  | None => Wrong
  end.

Definition put_item (l : loc) (item : FSItem) : M unit := λ s,
  Return () (mkStore (<[l := item]> (objects s)) (arrays s)).

(** [new C(...)]: the object gets a reference that is not in use. *)
Definition new_item (item : FSItem) : M loc := λ s,
  let l := fresh (dom (objects s)) in
  Return l (mkStore (<[l := item]> (objects s)) (arrays s)).

(** [item.parent = p]. *)
Definition with_parent (item : FSItem) (p : option loc) : FSItem :=
  match item with
  | File n _ => File n p
  | Directory a n _ d => Directory a n p d
  end.

Definition set_parent (l : loc) (p : option loc) : M unit :=
  item ← get_item l;
  put_item l (with_parent item p).

(** [dir._children], [dir.deleted] and the assignments to them. *)
Definition get__children (l : loc) : M aref :=
  item ← get_item l;
  match item with
  | Directory a _ _ _ => mret a
  | File _ _ => wrong
  end.

Definition set__children (l : loc) (a : aref) : M unit :=
  item ← get_item l;
  match item with
  | Directory _ n p d => put_item l (Directory a n p d)
  | File _ _ => wrong
  end.

Definition get_deleted (l : loc) : M bool :=
  item ← get_item l;
  match item with
  | Directory _ _ _ d => mret d
  | File _ _ => wrong
  end.

Definition set_deleted (l : loc) (d : bool) : M unit :=
  item ← get_item l;
  match item with
  | Directory a n p _ => put_item l (Directory a n p d)
  | File _ _ => wrong
  end.

(** *** Arrays *)

Definition read_array (a : aref) : M (list loc) := λ s,
  match arrays s !! a with
  | Some elems => Return elems s
  | None => Wrong
  end.

Definition write_array (a : aref) (elems : list loc) : M unit := λ s,
  match arrays s !! a with
  | Some _ => Return () (mkStore (objects s) (<[a := elems]> (arrays s)))
  | None => Wrong
  end.

(** An array literal, or the result array of [slice] and [filter]. *)
Definition new_array (elems : list loc) : M aref := λ s,
  let a := fresh (dom (arrays s)) in
  Return a (mkStore (objects s) (<[a := elems]> (arrays s))).

(** [a.slice()]: a new array with the same elements. *)
Definition slice (a : aref) : M aref :=
  elems ← read_array a;
  new_array elems.

(** [a.push(x)]: in place. *)
Definition push (a : aref) (x : loc) : M unit :=
  elems ← read_array a;
  write_array a (elems ++ [x]).

(** [a.filter(keep)]: a new array. *)
Definition filter_array (keep : loc → bool) (a : aref) : M aref :=
  elems ← read_array a;
  new_array (List.filter keep elems).

(** [x] goes before [y] under the comparator [cmp] when [cmp x y <= 0]. *)
Definition before {A} (cmp : A → A → Z) (x y : A) : Prop := (cmp x y ≤ 0)%Z.

#[global] Instance before_dec {A} (cmp : A → A → Z) x y : Decision (before cmp x y).
Proof. unfold before. apply _. Defined.

(** The order of [a.sort(cmp)]. The sort is stable: of two elements that
    the comparator does not put in strict order, the one that was first
    stays first. Under a consistent comparator every stable sort gives this
    result. *)
Fixpoint insert_before {A} (cmp : A → A → Z) (x : A) (l : list A) : list A :=
  match l with
  | [] => [x]
  | y :: l' =>
      if decide (before cmp x y) then x :: l else y :: insert_before cmp x l'
  end.

Fixpoint stable_sort {A} (cmp : A → A → Z) (l : list A) : list A :=
  match l with
  | [] => []
  | x :: l' => insert_before cmp x (stable_sort cmp l')
  end.

(** [a.sort(cmp)]: sorts [a] in place and returns [a]; the comparator is a
    callback and reads the store. *)
Definition sort (cmp : Store → loc → loc → Z) (a : aref) : M aref := λ s,
  match arrays s !! a with
  | Some elems =>
      Return a (mkStore (objects s) (<[a := stable_sort (cmp s) elems]> (arrays s)))
  | None => Wrong
  end.

(** [for (const x of xs) body(x)] over the elements read from an array. *)
Fixpoint for_each {A} (xs : list A) (body : A → M unit) : M unit :=
  match xs with
  | [] => mret ()
  | x :: rest => body x;; for_each rest body
  end.

(** ** The host's collation

    [String.prototype.localeCompare] belongs to the host: it returns a
    negative number, zero or a positive number according to the locale's
    order. *)
Class Locale : Type := { localeCompare : string → string → Z }.

(** A locale whose comparison is a consistent comparator: "goes before or
    ties with" is total and transitive. *)
Class LocaleOrder `{Locale} : Prop := {
  localeCompare_total : ∀ a b, before localeCompare a b ∨ before localeCompare b a;
  localeCompare_trans : ∀ a b c,
    before localeCompare a b → before localeCompare b c → before localeCompare a c;
}.

(** [x.name] for a reference held in an array; a reference that is not in
    the store (none is, in a typed program) reads as the empty name. *)
Definition name_at (s : Store) (l : loc) : string :=
  match objects s !! l with
  | Some item => name item
  | None => ""
  end.

(** The callback [(a, b) => a.name.localeCompare(b.name)]. *)
Definition by_name `{Locale} (s : Store) (a b : loc) : Z :=
  localeCompare (name_at s a) (name_at s b).

(** ** class File *)

Module File.

(** [new File(name)]. *)
Definition new (name : string) : M loc := new_item (File name None).

(** [get ext()]. It reads [this.name] only. *)
Definition ext (this : FSItem) : string :=
  let parts := JsString.split "." (name this) in
  if (length parts =? 1)%nat then
    if JsString.startsWith "." (name this) then nth 0 parts "" else ""
  else
    JsString.or_empty (JsString.at_last parts).

End File.

(** ** class Directory *)

Module Directory.

(** [new Directory(name)]: the field initialiser [_children = []] makes the
    directory's own array. *)
Definition new (name : string) : M loc :=
  a ← new_array [];
  new_item (Directory a name None false).

(** [add(item)]. *)
Definition add (this item : loc) : M loc :=
  is_deleted ← get_deleted this;
  if (is_deleted : bool) then
    throw (mkError "cannot add item to a deleted directory")
  else
    set_parent item (Some this);;
    a ← get__children this;
    push a item;;
    mret item.

(** [get children()]. MobX makes the getter a computed value: while
    nothing that it has read is written, a read may return the array of
    the read before instead of computing it again. This is the read that
    computes; the elements are the same either way. *)
Definition children `{Locale} (this : loc) : M aref :=
  a ← get__children this;
  copy ← slice a;
  sort by_name copy.

(** [delete(item)]. [fuel] bounds the depth of the recursion. The loop
    reads the elements of the array that [item.children] returned; no other
    reference to that array exists, so it is the same array throughout the
    loop. *)
Fixpoint delete `{Locale} (fuel : nat) (this item : loc) : M unit :=
  match fuel with
  | O => out_of_fuel
  | S fuel' =>
      it ← get_item item;
      match type it with
      | directory =>
          snapshot ← children item;
          elems ← read_array snapshot;
          for_each elems (λ child, delete fuel' item child);;
          set_deleted item true
      | file => mret ()
      end;;
      a ← get__children this;
      a' ← filter_array (λ child, negb (Pos.eqb child item)) a;
      set__children this a'
  end.

End Directory.

(** [filepath(item)]: the body of the [do ... while (item)] loop, with
    [fuel] bounding the number of iterations. *)
Fixpoint filepath_loop (fuel : nat) (item : loc) (parts : list string) : M (list string) :=
  match fuel with
  | O => out_of_fuel
  | S fuel' =>
      it ← get_item item;
      let parts := name it :: parts in
      match parent it with
      | Some p => filepath_loop fuel' p parts
      | None => mret parts
      end
  end.

Definition filepath (fuel : nat) (item : loc) : M string :=
  parts ← filepath_loop fuel item [];
  mret (JsString.join "/" parts).

(** [get path()], of [File] and of [Directory] alike. *)
Definition path (fuel : nat) (this : loc) : M string := filepath fuel this.

(** ** class Selection *)

Module Selection.

(** Modelled from the spec: the class [Selection<T>] of [src/selection.ts],
    which [file-system.ts] imports and which is not among the sources. The
    state is the spec's: the universe (an ordered reference sequence), the
    set of selected items and the anchor. *)
Record t (T : Type) `{Countable T} : Type := mk {
  universe : list T;
  selected : gset T;
  anchor : option T;
}.
Arguments mk {T _ _} universe selected anchor.
Arguments universe {T _ _} _.
Arguments selected {T _ _} _.
Arguments anchor {T _ _} _.

(** Modelled from the spec: the pointer-event descriptor's modifier keys. *)
Record Modifiers : Type := mkModifiers {
  toggleModifierHeld : bool;
  rangeModifierHeld : bool;
}.

(** Modelled from the spec: "constructed with an initial ordered universe";
    nothing is selected and there is no anchor. *)
Definition new {T} `{Countable T} (universe : list T) : t T := mk universe ∅ None.

(** Modelled from the spec: [has(item)], "pure membership test against the
    selected set". *)
Definition has {T} `{Countable T} (this : t T) (item : T) : bool :=
  bool_decide (item ∈ selected this).

(** Modelled from the spec: [clear()], "empties the selected set; anchor
    becomes undefined". *)
Definition clear {T} `{Countable T} (this : t T) : t T := mk (universe this) ∅ None.

(** The index of the first occurrence of [x]. *)
Definition indexOf {T} `{Countable T} (x : T) (l : list T) : option nat :=
  fst <$> list_find (λ y, y = x) l.

(** The items whose index lies in the inclusive span between [i] and [j]. *)
Definition span {T} (i j : nat) (l : list T) : list T :=
  take (S (Nat.max i j - Nat.min i j)) (drop (Nat.min i j) l).

(** Modelled from the spec: the plain click, "selected set becomes exactly
    {item}; anchor becomes item". *)
Definition plainClick {T} `{Countable T} (this : t T) (item : T) : t T :=
  mk (universe this) {[ item ]} (Some item).

(** Modelled from the spec: the toggle click, "if item is currently
    selected, remove it from the selected set; else add it; anchor becomes
    item regardless of direction". *)
Definition toggleClick {T} `{Countable T} (this : t T) (item : T) : t T :=
  mk (universe this)
     (if decide (item ∈ selected this) then selected this ∖ {[ item ]}
      else selected this ∪ {[ item ]})
     (Some item).

(** Modelled from the spec: the range click, "if no anchor exists, behaves
    like a plain click. Otherwise, compute the index of anchor and item
    within the universe sequence; select every item whose index lies in the
    inclusive span between the two; anchor is left unchanged". The spec
    leaves a click on an item outside the universe undefined: [None]. *)
Definition rangeClick {T} `{Countable T} (this : t T) (item : T) : option (t T) :=
  match anchor this with
  | None => Some (plainClick this item)
  | Some a =>
      match indexOf a (universe this), indexOf item (universe this) with
      | Some i, Some j =>
          Some (mk (universe this) (list_to_set (span i j (universe this))) (Some a))
      | _, _ => None
      end
  end.

(** Modelled from the spec: [fromClickEvent(item, modifiers)]. The spec
    describes the click with no modifier, with the toggle modifier and with
    the range modifier; it does not say what both modifiers together do:
    [None]. *)
Definition fromClickEvent {T} `{Countable T}
    (this : t T) (item : T) (modifiers : Modifiers) : option (t T) :=
  match toggleModifierHeld modifiers, rangeModifierHeld modifiers with
  | false, false => Some (plainClick this item)
  | true, false => Some (toggleClick this item)
  | false, true => rangeClick this item
  | true, true => None
  end.

(** Modelled from the spec: [items], "the selected set exposed as a
    stable-order sequence (order = universe order, not insertion order)". *)
Definition items {T} `{Countable T} (this : t T) : list T :=
  List.filter (λ x, bool_decide (x ∈ selected this)) (universe this).

End Selection.

(** ** class FSViewModel *)

Module FSViewModel.

(** The fields of the view model. A [Selection] is handed the array that
    [cwd.children] returned; that array is referenced from nowhere else and
    is never written again, so the selection holds its elements. *)
Record t : Type := mk {
  cwd : loc;
  selection : Selection.t loc;
  expandedDirs : gset loc;
}.

(** [new Selection(this.cwd.children)]. *)
Definition selectionOfChildren `{Locale} (dir : loc) : M (Selection.t loc) :=
  a ← Directory.children dir;
  universe ← read_array a;
  mret (Selection.new universe).

(** [constructor(dir)]. *)
Definition new `{Locale} (dir : loc) : M t :=
  sel ← selectionOfChildren dir;
  mret (mk dir sel ∅).

(** [expanded(item)]. *)
Definition expanded (this : t) (item : loc) : M bool :=
  it ← get_item item;
  mret (match type it with
        | directory => bool_decide (item ∈ expandedDirs this)
        | file => false
        end).

(** [toggleExpanded(dir, expanded?)]. *)
Definition toggleExpanded (this : t) (dir : loc) (expanded : option bool) : t :=
  let expanded := default (negb (bool_decide (dir ∈ expandedDirs this))) expanded in
  if expanded then mk (cwd this) (selection this) (expandedDirs this ∪ {[ dir ]})
  else mk (cwd this) (selection this) (expandedDirs this ∖ {[ dir ]}).

(** [create(type, name)]. *)
Definition create (type : FSType) (name : string) : M loc :=
  let name := JsString.trim name in
  if String.eqb name "" then
    throw (mkError "cannot create an item with an empty name")
  else
    match type with
    | file => File.new name
    | directory => Directory.new name
    end.

(** [selected(item)]. *)
Definition selected (this : t) (item : loc) : bool :=
  Selection.has (selection this) item.

(** [deleteSelection()]; [fuel] is handed to each [Directory.delete]. *)
Definition deleteSelection `{Locale} (fuel : nat) (this : t) : M t :=
  for_each (Selection.items (selection this)) (λ item,
    it ← get_item item;
    match parent it with
    | Some p => Directory.delete fuel p item
    | None => mret ()
    end);;
  sel ← selectionOfChildren (cwd this);
  mret (mk (cwd this) sel (expandedDirs this)).

(** [isNameAvailable(name)]. *)
Definition isNameAvailable `{Locale} (this : t) (name : string) : M bool :=
  a ← Directory.children (cwd this);
  elems ← read_array a;
  s ← get_store;
  mret (negb (existsb (λ item, String.eqb (name_at s item) name) elems)).

End FSViewModel.

(** ** The virtualizer *)

Module Virtualizer.

Local Open Scope Z_scope.

(** Modelled from the spec: the component [Virtualizer] of
    [src/virtualizer.tsx], which is not among the sources. Its inputs are
    the spec's: the row sequence [items], the fixed row height [itemHeight],
    the scroll offset and the viewport height, and the overscan margin (a
    number of rows). Lengths are whole pixels. *)

(** Modelled from the spec: "Total scrollable extent = items.length *
    itemHeight". *)
Definition totalExtent {T} (items : list T) (itemHeight : Z) : Z :=
  Z.of_nat (length items) * itemHeight.

(** Modelled from the spec: a row is placed "at vertical offset
    i * itemHeight". *)
Definition rowOffset (itemHeight : Z) (i : nat) : Z := Z.of_nat i * itemHeight.

(** Modelled from the spec: the rows "currently intersecting the viewport";
    row [i] covers the pixels from [i * itemHeight] up to, not including,
    [(i + 1) * itemHeight], and the viewport those from [scrollOffset] up
    to, not including, [scrollOffset + viewportHeight]. *)
Definition visible (itemHeight scrollOffset viewportHeight : Z) (i : nat) : bool :=
  (rowOffset itemHeight i <? scrollOffset + viewportHeight)
  && (scrollOffset <? rowOffset itemHeight (S i)).

(** Modelled from the spec: "the first and last visible row indices from
    current scroll offset and viewport height". *)
Definition firstVisible (itemHeight scrollOffset : Z) : Z :=
  scrollOffset / itemHeight.

Definition lastVisible (itemHeight scrollOffset viewportHeight : Z) : Z :=
  (scrollOffset + viewportHeight - 1) / itemHeight.

(** Modelled from the spec: the range of rows that are materialized, the
    visible range widened by [overscan] rows on either side and cut to the
    rows that exist; [(lo, count)] stands for the indices [lo], ...,
    [lo + count - 1]. *)
Definition renderRange (n : nat) (itemHeight scrollOffset viewportHeight : Z)
    (overscan : nat) : nat * nat :=
  let lo := Z.max 0 (firstVisible itemHeight scrollOffset - Z.of_nat overscan) in
  let hi := Z.min (Z.of_nat n - 1)
                  (lastVisible itemHeight scrollOffset viewportHeight + Z.of_nat overscan) in
  (Z.to_nat lo, Z.to_nat (hi - lo + 1)).

(** Modelled from the spec: one layout pass, which calls the render
    callback with [items[i]] and the offset [i * itemHeight] for each index
    [i] of the render range, and with nothing else. *)
Definition layout {T R} (renderItem : T → Z → R) (items : list T)
    (itemHeight scrollOffset viewportHeight : Z) (overscan : nat) : list R :=
  let '(lo, count) :=
    renderRange (length items) itemHeight scrollOffset viewportHeight overscan in
  omap (λ i, (λ row, renderItem row (rowOffset itemHeight i)) <$> items !! i)
       (seq lo count).

End Virtualizer.

(** ** Vocabulary of the properties *)

(** The elements of [p._children], for a directory [p]. *)
Definition kids (s : Store) (p : loc) : list loc :=
  match objects s !! p with
  | Some (Directory a _ _ _) => default [] (arrays s !! a)
  | _ => []
  end.

(** [p] contains [c]: [c] is an element of [p._children]. *)
Definition contains (s : Store) (p c : loc) : Prop := c ∈ kids s p.

(** [x] is a descendant of [d]: a child, a child of a child, and so on. *)
Definition descendant (s : Store) (d x : loc) : Prop := tc (contains s) d x.

(** [item.deleted] in the store. *)
Definition deleted_at (s : Store) (l : loc) : option bool :=
  item ← objects s !! l; deleted item.

Definition is_directory (s : Store) (l : loc) : Prop :=
  ∃ a n p d, objects s !! l = Some (Directory a n p d).

(** A directory is cleared when it is tombstoned and has no children left;
    a file has nothing to clear. *)
Definition cleared (s : Store) (l : loc) : Prop :=
  match objects s !! l with
  | Some (Directory _ _ _ d) => d = true ∧ kids s l = []
  | Some (File _ _) => True
  | None => False
  end.

(** The store of a typed program: a directory's [_children] is an array of
    the store, the elements of that array are objects of the store, and a
    [parent] is a directory of the store. *)
Record WellFormed (s : Store) : Prop := {
  wf_array : ∀ p a n q d,
    objects s !! p = Some (Directory a n q d) → is_Some (arrays s !! a);
  wf_kids : ∀ p c, c ∈ kids s p → is_Some (objects s !! c);
  wf_parent : ∀ x item q,
    objects s !! x = Some item → parent item = Some q → is_directory s q;
}.

Definition directoryb (s : Store) (l : loc) : bool :=
  match objects s !! l with
  | Some (Directory _ _ _ _) => true
  | _ => false
  end.

Definition item_ok (s : Store) (item : FSItem) : bool :=
  match parent item with
  | Some q => directoryb s q
  | None => true
  end
  && match item with
     | Directory a _ _ _ =>
         match arrays s !! a with
         | Some elems => forallb (λ c, bool_decide (is_Some (objects s !! c))) elems
         | None => false
         end
     | File _ _ => true
     end.

(** The executable form of [WellFormed]. *)
Definition well_formed (s : Store) : bool :=
  forallb (λ entry, item_ok s entry.2) (map_to_list (objects s)).

(** No directory contains itself, directly or through other directories:
    [rank] decreases from every directory to its children. *)
Definition Ranked (rank : loc → nat) (s : Store) : Prop :=
  ∀ p c, c ∈ kids s p → rank c < rank p.

Definition ranked (rank : loc → nat) (s : Store) : bool :=
  forallb (λ entry, forallb (λ c, (rank c <? rank entry.1)%nat) (kids s entry.1))
          (map_to_list (objects s)).

(** The elements of the array that a read of [d.children] returns. *)
Definition sorted_children `{Locale} (s : Store) (d : loc) : list loc :=
  stable_sort (by_name s) (kids s d).

(** A sequence of [add] calls on the directory [d], one for each item of
    [xs] in turn. *)
Definition add_all (d : loc) (xs : list loc) : M unit :=
  for_each xs (λ x, Directory.add d x;; mret ()).

(** [item.parent] in the store. *)
Definition parent_at (s : Store) (l : loc) : option loc :=
  item ← objects s !! l; parent item.

(** The store of a program that has not created anything yet. *)
Definition empty_store : Store := mkStore ∅ ∅.

(** What an operation may do to the objects that a postcondition does not
    mention: every object keeps its class, its name and its parent, a
    tombstone stays, and no directory gains a child. *)
Definition same_shape (item item' : FSItem) : Prop :=
  match item, item' with
  | File n p, File n' p' => n = n' ∧ p = p'
  | Directory _ n p d, Directory _ n' p' d' => n = n' ∧ p = p' ∧ (d = true → d' = true)
  | _, _ => False
  end.

Record shrinks (s s' : Store) : Prop := {
  shrinks_objects : ∀ l,
    match objects s !! l, objects s' !! l with
    | Some item, Some item' => same_shape item item'
    | None, None => True
    | _, _ => False
    end;
  shrinks_kids : ∀ p c, c ∈ kids s' p → c ∈ kids s p;
}.

(** Whenever [p] has lost a child [q] on the way from [s] to [s'],
    everything that [q] reached in [s] is cleared in [s']. *)
Definition cut_cleared (s s' : Store) : Prop :=
  ∀ p q, q ∈ kids s p → q ∉ kids s' p → ∀ x, rtc (contains s) q x → cleared s' x.

(** The test of the callback in [delete]: [child !== item]. *)
Definition is_not (item : loc) (child : loc) : bool := negb (Pos.eqb child item).

(** What [this.delete(item)] establishes on the way from [s] to [s']:
    everything that [item] reached is cleared, [item] is no longer among
    the receiver's children, and a directory that [item] did not reach
    keeps its tombstone flag and its children, except that the receiver
    loses [item]. *)
Record delete_post (s : Store) (this item : loc) (s' : Store) : Prop := {
  dp_wf : WellFormed s';
  dp_shrinks : shrinks s s';
  dp_cleared : ∀ x, rtc (contains s) item x → cleared s' x;
  dp_cut : cut_cleared s s';
  dp_removed : item ∉ kids s' this;
  dp_frame : ∀ p, ¬ rtc (contains s) item p →
    kids s' p = (if decide (p = this) then List.filter (is_not item) (kids s p)
                 else kids s p)
    ∧ deleted_at s' p = deleted_at s p;
}.

(** What the loop of [delete] over the children [cs] of [item]
    establishes. *)
Record loop_post (s : Store) (item : loc) (cs : list loc) (s' : Store) : Prop := {
  lp_wf : WellFormed s';
  lp_shrinks : shrinks s s';
  lp_cleared : ∀ c x, c ∈ cs → rtc (contains s) c x → cleared s' x;
  lp_cut : cut_cleared s s';
  lp_removed : ∀ c, c ∈ cs → c ∉ kids s' item;
  lp_frame : ∀ p, p ≠ item → (∀ c, c ∈ cs → ¬ rtc (contains s) c p) →
    kids s' p = kids s p ∧ deleted_at s' p = deleted_at s p;
}.

(** The names on the parent chain of [item], from the root (the ancestor
    with no parent) down to [item] itself. *)
Inductive chain (s : Store) : loc → list string → Prop :=
| chain_root item it :
    objects s !! item = Some it → parent it = None → chain s item [name it]
| chain_step item it p names :
    objects s !! item = Some it → parent it = Some p → chain s p names →
    chain s item (names ++ [name it]).

(** The code-unit order of strings, a locale for the examples. *)
Definition codeUnitCompare (a b : string) : Z :=
  match String.compare a b with
  | Lt => -1
  | Eq => 0
  | Gt => 1
  end%Z.

Definition codeUnitLocale : Locale := {| localeCompare := codeUnitCompare |}.

(** ** An example tree

    The root [""] holds the directory ["a"], which holds the file
    ["b.txt"] and the directory ["sub"], which holds the file ["c.txt"]. *)
Definition example_program : M (loc * loc * loc * loc * loc) :=
  root ← Directory.new "";
  a ← Directory.new "a";
  b ← File.new "b.txt";
  sub ← Directory.new "sub";
  c ← File.new "c.txt";
  Directory.add root a;;
  Directory.add a b;;
  Directory.add a sub;;
  Directory.add sub c;;
  mret (root, a, b, sub, c).

(** The store that [example_program] leaves. *)
Definition example_store : Store :=
  mkStore
    (list_to_map
       [(1%positive, Directory 1 "" None false);
        (2%positive, Directory 2 "a" (Some 1%positive) false);
        (3%positive, File "b.txt" (Some 2%positive));
        (4%positive, Directory 3 "sub" (Some 2%positive) false);
        (5%positive, File "c.txt" (Some 4%positive))])
    (list_to_map
       [(1%positive, [2%positive]);
        (2%positive, [3%positive; 4%positive]);
        (3%positive, [5%positive])]).

(** The height of each object of [example_store] above the leaves. *)
Definition example_rank (l : loc) : nat :=
  match l with
  | 1%positive => 3
  | 2%positive => 2
  | 4%positive => 1
  | _ => 0
  end.

(** A view model on the root of [example_store] in which the directory
    ["a"] and the directory ["sub"] inside it are both selected. *)
Definition example_view : FSViewModel.t :=
  FSViewModel.mk 1%positive
    (Selection.mk [2%positive; 4%positive] {[ 2%positive; 4%positive ]}
                  (Some 2%positive))
    ∅.

(** ** [parents] *)

(** [parents(item)]: the body of the [do ... while (item)] loop, with
    [fuel] bounding the number of iterations; [acc] holds the elements of
    the local array [parents], and the result is the elements of the array
    that the function returns. *)
Fixpoint parents_loop (fuel : nat) (item : loc) (acc : list loc) : M (list loc) :=
  match fuel with
  | O => out_of_fuel
  | S fuel' =>
      it ← get_item item;
      match parent it with
      | Some p => parents_loop fuel' p (p :: acc)
      | None => mret acc
      end
  end.

Definition parents (fuel : nat) (item : loc) : M (list loc) :=
  parents_loop fuel item [].

(** The ancestors of [item] along [parent], from the root down to the
    parent of [item]. *)
Inductive lineage (s : Store) : loc → list loc → Prop :=
| lineage_root item it :
    objects s !! item = Some it → parent it = None → lineage s item []
| lineage_step item it p ancestors :
    objects s !! item = Some it → parent it = Some p →
    lineage s p ancestors → lineage s item (ancestors ++ [p]).

(** A set of objects that [parent] never leaves: each has a parent, which
    is in the set again. *)
Definition parent_closed (s : Store) (inside : loc → Prop) : Prop :=
  ∀ l, inside l →
    ∃ it p, objects s !! l = Some it ∧ parent it = Some p ∧ inside p.

(** ** The rows of [DirectoryView] *)

Module DirectoryView.

(** The loop of the [rows] memo, over the elements of [view.cwd.children]
    that are still to come: [rows] and [row] are the two local arrays. The
    source reads [view.cwd.children] anew for each index; nothing is
    written in between, and every read returns the same elements (see
    [run_children]). *)
Fixpoint rows_loop {A} (columns : nat) (children : list A)
    (rows : list (list A)) (row : list A) : list (list A) :=
  match children with
  | [] => if (length row =? 0)%nat then rows else rows ++ [row]
  | child :: rest =>
      let row := row ++ [child] in
      if (length row =? columns)%nat
      then rows_loop columns rest (rows ++ [row]) []
      else rows_loop columns rest rows row
  end.

Definition rows {A} (columns : nat) (children : list A) : list (list A) :=
  rows_loop columns children [] [].

End DirectoryView.

(** ** class WindowManager *)

Module WindowManager.

(** A [DesktopWindow], with the content of a window (a React element) of
    any type [E]. The private field [manager] points back to the window
    manager and is never read; it is left out. *)
Record DesktopWindow (E : Type) : Type := mkWindow {
  id : Z;
  title : string;
  element : option E;
  details : option string;
  dialog : option (string * E);
}.
Arguments mkWindow {E} id title element details dialog.
Arguments id {E} _.
Arguments title {E} _.
Arguments element {E} _.
Arguments details {E} _.
Arguments dialog {E} _.

Record t (E : Type) : Type := mk {
  lastId : Z;
  windows : list (DesktopWindow E);
}.
Arguments mk {E} lastId windows.
Arguments lastId {E} _.
Arguments windows {E} _.

(** The value of [n] after [n++], for a number [n] that is a whole number
    of at most 2^53: the next whole number, except that 2^53 + 1 is not a
    number of JavaScript and rounds back to 2^53. *)
Definition increment (n : Z) : Z := if (n <? 2 ^ 53)%Z then (n + 1)%Z else n.

(** [new WindowManager()]. *)
Definition new {E} : t E := mk 1 [].

(** [createWindow(element)]: the new window, and the manager afterwards. *)
Definition createWindow {E} (this : t E) (element : option E)
    : DesktopWindow E * t E :=
  let w := mkWindow (lastId this) "New Window" element None None in
  (w, mk (increment (lastId this)) (windows this ++ [w])).

(** [openDialog(title, element)] and [closeDialog()] of a window. *)
Definition openDialog {E} (w : DesktopWindow E) (title' : string) (element' : E)
    : DesktopWindow E :=
  mkWindow (id w) (title w) (element w) (details w) (Some (title', element')).

Definition closeDialog {E} (w : DesktopWindow E) : DesktopWindow E :=
  mkWindow (id w) (title w) (element w) (details w) None.

(** A sequence of [createWindow] calls, one for each element in turn. *)
Definition createWindows {E} (this : t E) (elements : list (option E)) : t E :=
  foldl (λ wm element, (createWindow wm element).2) this elements.

End WindowManager.

(** ** The tree invariant *)

(** No two directories share an array. *)
Definition Owned (s : Store) : Prop :=
  ∀ p1 p2 a n1 q1 d1 n2 q2 d2,
    objects s !! p1 = Some (Directory a n1 q1 d1) →
    objects s !! p2 = Some (Directory a n2 q2 d2) → p1 = p2.

(** A well-formed store in which every directory has its own array, holds
    each child once, and is the parent of each of its children. *)
Record Linked (s : Store) : Prop := {
  linked_wf : WellFormed s;
  linked_owned : Owned s;
  linked_parent : ∀ p c, c ∈ kids s p → parent_at s c = Some p;
  linked_once : ∀ p, NoDup (kids s p);
}.

(** The store that [new Directory("loop")] leaves when nothing else was
    created. *)
Definition lone_directory_store : Store :=
  mkStore (list_to_map [(1%positive, Directory 1 "loop" None false)])
          (list_to_map [(1%positive, [])]).

(** The executable form of [Linked]. *)
Definition own_arrays (s : Store) : bool :=
  forallb (λ e1,
    forallb (λ e2,
      match e1.2, e2.2 with
      | Directory a1 _ _ _, Directory a2 _ _ _ =>
          implb (Pos.eqb a1 a2) (Pos.eqb e1.1 e2.1)
      | _, _ => true
      end) (map_to_list (objects s))) (map_to_list (objects s)).

Definition linked (s : Store) : bool :=
  well_formed s
  && own_arrays s
  && forallb (λ e,
       forallb (λ c, bool_decide (parent_at s c = Some e.1)) (kids s e.1)
       && bool_decide (NoDup (kids s e.1))) (map_to_list (objects s)).

(** [example_store] and a new file that no directory holds yet. *)
Definition orphan_store : Store :=
  mkStore (<[6%positive := File "new.txt" None]> (objects example_store))
          (arrays example_store).

(** * Properties *)

(** ** Running the primitives *)

Lemma run_bind {A B} (m : M A) (f : A → M B) s :
  (m ≫= f) s =
  match m s with
  | Return a s' => f a s'
  | Throw e s' => Throw e s'
  | Wrong => Wrong
  | OutOfFuel => OutOfFuel
  end.
Proof. reflexivity. Qed.

Lemma run_bind_Return {A B} (m : M A) (f : A → M B) s a s' :
  m s = Return a s' → (m ≫= f) s = f a s'.
Proof. intros E. rewrite run_bind, E. reflexivity. Qed.

Lemma run_ret {A} (a : A) s : (mret a : M A) s = Return a s.
Proof. reflexivity. Qed.

Lemma run_get_item s l item :
  objects s !! l = Some item → get_item l s = Return item s.
Proof. intros E. unfold get_item. rewrite E. reflexivity. Qed.

Lemma run_read_array s a elems :
  arrays s !! a = Some elems → read_array a s = Return elems s.
Proof. intros E. unfold read_array. rewrite E. reflexivity. Qed.

Lemma run_write_array s a elems elems' :
  arrays s !! a = Some elems →
  write_array a elems' s = Return () (mkStore (objects s) (<[a := elems']> (arrays s))).
Proof. intros E. unfold write_array. rewrite E. reflexivity. Qed.

Lemma run_get__children s l a n p d :
  objects s !! l = Some (Directory a n p d) → get__children l s = Return a s.
Proof.
  intros E. unfold get__children.
  rewrite (run_bind_Return _ _ _ _ _ (run_get_item _ _ _ E)). reflexivity.
Qed.

Lemma run_get_deleted s l a n p d :
  objects s !! l = Some (Directory a n p d) → get_deleted l s = Return d s.
Proof.
  intros E. unfold get_deleted.
  rewrite (run_bind_Return _ _ _ _ _ (run_get_item _ _ _ E)). reflexivity.
Qed.

Lemma run_set_deleted s l a n p d b :
  objects s !! l = Some (Directory a n p d) →
  set_deleted l b s =
  Return () (mkStore (<[l := Directory a n p b]> (objects s)) (arrays s)).
Proof.
  intros E. unfold set_deleted.
  rewrite (run_bind_Return _ _ _ _ _ (run_get_item _ _ _ E)). reflexivity.
Qed.

Lemma run_set__children s l a n p d a' :
  objects s !! l = Some (Directory a n p d) →
  set__children l a' s =
  Return () (mkStore (<[l := Directory a' n p d]> (objects s)) (arrays s)).
Proof.
  intros E. unfold set__children.
  rewrite (run_bind_Return _ _ _ _ _ (run_get_item _ _ _ E)). reflexivity.
Qed.

Lemma run_set_parent s l item p :
  objects s !! l = Some item →
  set_parent l p s =
  Return () (mkStore (<[l := with_parent item p]> (objects s)) (arrays s)).
Proof.
  intros E. unfold set_parent.
  rewrite (run_bind_Return _ _ _ _ _ (run_get_item _ _ _ E)). reflexivity.
Qed.

Lemma fresh_array_None (s : Store) : arrays s !! fresh (dom (arrays s)) = None.
Proof. apply not_elem_of_dom, is_fresh. Qed.

Lemma fresh_object_None (s : Store) : objects s !! fresh (dom (objects s)) = None.
Proof. apply not_elem_of_dom, is_fresh. Qed.

Lemma run_push s a elems x :
  arrays s !! a = Some elems →
  push a x s = Return () (mkStore (objects s) (<[a := elems ++ [x]]> (arrays s))).
Proof.
  intros E. unfold push.
  rewrite (run_bind_Return _ _ _ _ _ (run_read_array _ _ _ E)).
  by apply run_write_array with elems.
Qed.

Lemma run_slice s a elems :
  arrays s !! a = Some elems →
  slice a s =
  Return (fresh (dom (arrays s)))
         (mkStore (objects s) (<[fresh (dom (arrays s)) := elems]> (arrays s))).
Proof.
  intros E. unfold slice.
  rewrite (run_bind_Return _ _ _ _ _ (run_read_array _ _ _ E)). reflexivity.
Qed.

Lemma run_filter_array s keep a elems :
  arrays s !! a = Some elems →
  filter_array keep a s =
  Return (fresh (dom (arrays s)))
         (mkStore (objects s)
                  (<[fresh (dom (arrays s)) := List.filter keep elems]> (arrays s))).
Proof.
  intros E. unfold filter_array.
  rewrite (run_bind_Return _ _ _ _ _ (run_read_array _ _ _ E)). reflexivity.
Qed.

Lemma run_sort s cmp a elems :
  arrays s !! a = Some elems →
  sort cmp a s =
  Return a (mkStore (objects s)
                    (<[a := stable_sort (cmp s) elems]> (arrays s))).
Proof. intros E. unfold sort. rewrite E. reflexivity. Qed.

(** ** The stable sort *)

Lemma insert_before_Permutation {A} (cmp : A → A → Z) x l :
  insert_before cmp x l ≡ₚ x :: l.
Proof.
  induction l as [| y l IH]; simpl; [done |].
  case_decide; [done |]. by rewrite IH, Permutation_swap.
Qed.

Lemma stable_sort_Permutation {A} (cmp : A → A → Z) l : stable_sort cmp l ≡ₚ l.
Proof.
  induction l as [| x l IH]; simpl; [done |].
  by rewrite insert_before_Permutation, IH.
Qed.

Lemma insert_before_StronglySorted {A} (cmp : A → A → Z) x l :
  (∀ a b, before cmp a b ∨ before cmp b a) →
  (∀ a b c, before cmp a b → before cmp b c → before cmp a c) →
  StronglySorted (before cmp) l →
  StronglySorted (before cmp) (insert_before cmp x l).
Proof.
  intros Htotal Htrans. induction 1 as [| y l Hl IH Hy]; simpl.
  - repeat constructor.
  - case_decide as Hxy.
    + constructor; [by constructor |]. constructor; [done |].
      eapply Forall_impl; [exact Hy |]. intros z Hz. by eapply Htrans.
    + constructor; [exact IH |].
      rewrite insert_before_Permutation. constructor; [| done].
      by destruct (Htotal x y).
Qed.

Lemma stable_sort_StronglySorted {A} (cmp : A → A → Z) l :
  (∀ a b, before cmp a b ∨ before cmp b a) →
  (∀ a b c, before cmp a b → before cmp b c → before cmp a c) →
  StronglySorted (before cmp) (stable_sort cmp l).
Proof.
  intros Htotal Htrans. induction l as [| x l IH]; simpl; [constructor |].
  by apply insert_before_StronglySorted.
Qed.

(** A sequence that is in order already is left as it is: ties are not
    reordered. *)
Lemma stable_sort_sorted {A} (cmp : A → A → Z) l :
  StronglySorted (before cmp) l → stable_sort cmp l = l.
Proof.
  induction 1 as [| x l Hl IH Hx]; simpl; [done |]. rewrite IH.
  destruct Hx as [| y l Hxy _]; simpl; [done |]. by rewrite decide_True.
Qed.

(** ** [File.ext] *)

Lemma split_afterLast_None sep s :
  JsString.afterLast sep s = None → JsString.split sep s = [s].
Proof.
  induction s as [| c rest IH]; simpl; [done |].
  destruct (JsString.afterLast sep rest); [done |].
  destruct (Ascii.eqb c sep); [done |].
  intros _. rewrite IH; done.
Qed.

Lemma split_afterLast_Some sep s t :
  JsString.afterLast sep s = Some t →
  last (JsString.split sep s) = Some t ∧ (2 ≤ length (JsString.split sep s))%nat.
Proof.
  revert t. induction s as [| c rest IH]; simpl; [done |].
  intros t. destruct (JsString.afterLast sep rest) as [t' |] eqn:E.
  - intros [= <-]. destruct (IH _ eq_refl) as [Hl Hn].
    destruct (Ascii.eqb c sep).
    + split; [| simpl; lia].
      destruct (JsString.split sep rest); [simpl in Hn; lia | exact Hl].
    + destruct (JsString.split sep rest) as [| part [| part' parts]];
        simpl in *; try lia. split; [exact Hl | lia].
  - destruct (Ascii.eqb c sep); [| done]. intros [= <-].
    rewrite (split_afterLast_None _ _ E). split; [reflexivity | simpl; lia].
Qed.

Lemma startsWith_afterLast_None sep s :
  JsString.afterLast sep s = None →
  JsString.startsWith (String sep EmptyString) s = false.
Proof.
  destruct s as [| c rest]; simpl; [done |].
  destruct (JsString.afterLast sep rest); [done |].
  destruct (Ascii.eqb_spec c sep) as [-> | Hne]; [done |].
  intros _. unfold JsString.startsWith. simpl.
  destruct (ascii_dec sep c) as [-> | _]; [done | reflexivity].
Qed.

Lemma or_empty_Some t : JsString.or_empty (Some t) = t.
Proof.
  unfold JsString.or_empty. destruct (String.eqb_spec t ""); congruence.
Qed.

(** A name with a ['.'] has the substring after its last ['.'] as [ext]. *)
Lemma ext_after_last_dot this t :
  JsString.afterLast "." (name this) = Some t → File.ext this = t.
Proof.
  intros E. destruct (split_afterLast_Some _ _ _ E) as [Hl Hn].
  unfold File.ext, JsString.at_last. rewrite Hl, or_empty_Some.
  destruct (Nat.eqb_spec (length (JsString.split "." (name this))) 1); [lia | done].
Qed.

(** A name without ['.'] has the empty [ext]. *)
Lemma ext_without_dot this :
  JsString.afterLast "." (name this) = None → File.ext this = "".
Proof.
  intros E. unfold File.ext.
  rewrite (split_afterLast_None _ _ E). simpl.
  rewrite (startsWith_afterLast_None "."%char _ E). reflexivity.
Qed.

(** The first branch of [ext] never returns [parts[0]]: when [split] gives
    one part the name has no ['.'], so it does not start with one. *)
Lemma ext_single_part_not_dot_prefixed this :
  length (JsString.split "." (name this)) = 1%nat →
  JsString.startsWith "." (name this) = false.
Proof.
  intros Hn. destruct (JsString.afterLast "." (name this)) as [t |] eqn:E.
  - destruct (split_afterLast_Some _ _ _ E) as [_ H2]. lia.
  - apply (startsWith_afterLast_None "."%char), E.
Qed.

(** C2: [ext] of the names of the spec's examples. A name with several
    dots gives the part after the last one and a name without a dot gives
    the empty string, but the dot-prefixed [".gitignore"] gives
    ["gitignore"] where the spec says the empty string. *)
Theorem ext_examples :
  File.ext (File "report.tar.gz" None) = "gz"
  ∧ File.ext (File "README" None) = ""
  ∧ File.ext (File ".gitignore" None) = "gitignore".
Proof. repeat split; reflexivity. Qed.

(** ** [filepath] *)

Lemma filepath_loop_chain s item names :
  chain s item names →
  ∀ fuel acc, (length names ≤ fuel)%nat →
  filepath_loop fuel item acc s = Return (names ++ acc) s.
Proof.
  induction 1 as [item it Hit Hp | item it p names Hit Hp Hc IH];
    intros fuel acc Hfuel.
  - destruct fuel as [| fuel]; [simpl in Hfuel; lia |]. simpl.
    rewrite (run_bind_Return _ _ _ _ _ (run_get_item _ _ _ Hit)), Hp.
    reflexivity.
  - rewrite length_app in Hfuel. simpl in Hfuel.
    destruct fuel as [| fuel]; [lia |]. simpl.
    rewrite (run_bind_Return _ _ _ _ _ (run_get_item _ _ _ Hit)), Hp.
    rewrite IH by lia. rewrite <- app_assoc. reflexivity.
Qed.

(** C6: the path is the names on the parent chain, from the root down to
    the item, joined by ['/']; it is computed within as many iterations as
    the chain has items, and the store is left as it was. For a root named
    [""] with the chain root, ["a"], ["b.txt"] the path is ["/a/b.txt"]. *)
Theorem filepath_parent_chain :
  (∀ s item names fuel,
     chain s item names → (length names ≤ fuel)%nat →
     filepath fuel item s = Return (JsString.join "/" names) s)
  ∧ (∀ s root a b ar da aa pa,
       objects s !! root = Some (Directory ar "" None da) →
       objects s !! a = Some (Directory aa "a" (Some root) pa) →
       objects s !! b = Some (File "b.txt" (Some a)) →
       filepath 3 b s = Return "/a/b.txt" s
       ∧ path 3 b s = Return "/a/b.txt" s).
Proof.
  assert (G : ∀ s item names fuel,
     chain s item names → (length names ≤ fuel)%nat →
     filepath fuel item s = Return (JsString.join "/" names) s).
  { intros s item names fuel Hc Hfuel. unfold filepath.
    rewrite (run_bind_Return _ _ _ _ _ (filepath_loop_chain _ _ _ Hc _ [] Hfuel)).
    rewrite app_nil_r. reflexivity. }
  split; [exact G |].
  intros s root a b ar da aa pa Hr Ha Hb.
  cut (filepath 3 b s = Return "/a/b.txt" s); [by split |].
  apply (G s b ["" ; "a" ; "b.txt"] 3%nat); [| simpl; lia].
  apply (chain_step s b _ a ["" ; "a"] Hb eq_refl).
  apply (chain_step s a _ root [""] Ha eq_refl).
  apply (chain_root s root _ Hr eq_refl).
Qed.

(** ** Reading [kids] *)

Lemma kids_directory s p a n q d :
  objects s !! p = Some (Directory a n q d) → kids s p = default [] (arrays s !! a).
Proof. intros E. unfold kids. rewrite E. reflexivity. Qed.

Lemma kids_file s p n q : objects s !! p = Some (File n q) → kids s p = [].
Proof. intros E. unfold kids. rewrite E. reflexivity. Qed.

Lemma kids_None s p : objects s !! p = None → kids s p = [].
Proof. intros E. unfold kids. rewrite E. reflexivity. Qed.

Lemma kids_elem_directory s p c :
  c ∈ kids s p →
  ∃ a n q d elems, objects s !! p = Some (Directory a n q d)
    ∧ arrays s !! a = Some elems ∧ kids s p = elems.
Proof.
  unfold kids. destruct (objects s !! p) as [[n q | a n q d] |] eqn:E;
    try (intros Hc; inversion Hc; fail).
  destruct (arrays s !! a) as [elems |] eqn:Ea;
    [| intros Hc; inversion Hc].
  intros _. eauto 10.
Qed.

(** [kids] depends on the directory's own record and array only. *)
Lemma kids_frame s s' p :
  objects s' !! p = objects s !! p →
  (∀ a n q d, objects s !! p = Some (Directory a n q d) →
              arrays s' !! a = arrays s !! a) →
  kids s' p = kids s p.
Proof.
  intros Ho Ha. unfold kids. rewrite Ho.
  destruct (objects s !! p) as [[n q | a n q d] |] eqn:E; try reflexivity.
  rewrite (Ha _ _ _ _ eq_refl). reflexivity.
Qed.

(** ** [FSViewModel.create] *)

Lemma run_new_File s nm :
  File.new nm s =
  Return (fresh (dom (objects s)))
         (mkStore (<[fresh (dom (objects s)) := File nm None]> (objects s)) (arrays s)).
Proof. reflexivity. Qed.

Lemma run_new_Directory s nm :
  Directory.new nm s =
  Return (fresh (dom (objects s)))
         (mkStore (<[fresh (dom (objects s)) :=
                       Directory (fresh (dom (arrays s))) nm None false]> (objects s))
                  (<[fresh (dom (arrays s)) := []]> (arrays s))).
Proof. reflexivity. Qed.

(** An object made by [new] is in no directory of a well-formed store. *)
Lemma new_item_unattached s item elems p :
  WellFormed s →
  let l := fresh (dom (objects s)) in
  let a := fresh (dom (arrays s)) in
  p ≠ l →
  (l ∉ kids (mkStore (<[l := item]> (objects s)) (<[a := elems]> (arrays s))) p)
  ∧ (l ∉ kids (mkStore (<[l := item]> (objects s)) (arrays s)) p).
Proof.
  intros Hwf l a Hp.
  assert (Hl : l ∉ kids s p).
  { intros Hin. destruct (wf_kids _ Hwf _ _ Hin) as [x Hx].
    pose proof (fresh_object_None s) as Hf. fold l in Hf. congruence. }
  split.
  - rewrite (kids_frame s); [exact Hl | simpl; by rewrite lookup_insert_ne |].
    intros a0 n q d E. simpl. rewrite lookup_insert_ne; [done |].
    intros <-. destruct (wf_array _ Hwf _ _ _ _ _ E) as [x Hx].
    pose proof (fresh_array_None s) as Hf. fold a in Hf. congruence.
  - rewrite (kids_frame s); [exact Hl | simpl; by rewrite lookup_insert_ne |].
    intros a0 n q d E. reflexivity.
Qed.

Lemma run_new_File_at s :
  FSViewModel.create file " notes.txt " s = File.new "notes.txt" s.
Proof. reflexivity. Qed.

Lemma run_new_Directory_at s :
  FSViewModel.create directory "my docs" s = Directory.new "my docs" s.
Proof. reflexivity. Qed.

(** *** [trim], told apart from its definition *)

Lemma append_cons c (a b : string) : String c a +:+ b = String c (a +:+ b).
Proof. reflexivity. Qed.

Lemma trimStart_split s :
  ∃ pre, s = pre +:+ JsString.trimStart s
    ∧ JsString.allWhiteSpace pre = true
    ∧ JsString.startsWhite (JsString.trimStart s) = false.
Proof.
  induction s as [| c rest (pre & Hs & Hpre & Hstart)].
  - by exists EmptyString.
  - simpl. destruct (JsString.isWhiteSpace c) eqn:Hc.
    + exists (String c pre). rewrite append_cons, <- Hs. simpl.
      by rewrite Hc, Hpre.
    + exists EmptyString. simpl. by rewrite Hc.
Qed.

Lemma trimEnd_split s :
  ∃ post, s = JsString.trimEnd s +:+ post
    ∧ JsString.allWhiteSpace post = true
    ∧ JsString.endsWhite (JsString.trimEnd s) = false.
Proof.
  induction s as [| c rest (post & Hs & Hpost & Hend)].
  - by exists EmptyString.
  - simpl. destruct (JsString.trimEnd rest) as [| c' rest'] eqn:Hrest.
    + change (EmptyString +:+ post) with post in Hs. subst rest.
      destruct (JsString.isWhiteSpace c) eqn:Hc.
      * exists (String c post). split; [reflexivity |]. simpl.
        by rewrite Hc, Hpost.
      * exists post. split; [reflexivity |]. simpl. by rewrite Hc.
    + exists post. rewrite append_cons, <- Hs. by split.
Qed.

Lemma trimEnd_startsWhite s :
  JsString.startsWhite s = false →
  JsString.startsWhite (JsString.trimEnd s) = false.
Proof.
  destruct s as [| c rest]; [done |]. simpl. intros Hc.
  destruct (JsString.trimEnd rest); simpl; by rewrite ?Hc.
Qed.

Lemma string_append_assoc (a b c : string) : (a +:+ b) +:+ c = a +:+ b +:+ c.
Proof.
  induction a as [| x a IH]; [done |].
  rewrite !append_cons. by rewrite IH.
Qed.

(** The trimmed name is the name without the white space before and
    after it: the name is white space, the trimmed name, white space, and
    the trimmed name neither starts nor ends with white space. *)
Lemma trim_split nm :
  ∃ pre post,
    nm = pre +:+ JsString.trim nm +:+ post
    ∧ JsString.allWhiteSpace pre = true
    ∧ JsString.allWhiteSpace post = true
    ∧ JsString.startsWhite (JsString.trim nm) = false
    ∧ JsString.endsWhite (JsString.trim nm) = false.
Proof.
  destruct (trimStart_split nm) as (pre & Hs & Hpre & Hstart).
  destruct (trimEnd_split (JsString.trimStart nm)) as (post & Hs' & Hpost & Hend).
  exists pre, post. unfold JsString.trim.
  split; [by rewrite <- Hs' |]. split; [done |]. split; [done |].
  split; [by apply trimEnd_startsWhite | done].
Qed.

(** C5: [create] trims the name, that is, it drops the white space before
    and after it and nothing else, and throws when nothing is left, as for
    the name of three spaces; otherwise it returns a new object of the
    asked class, a [File] or a [Directory], whose name is the trimmed name
    and whose parent is not set, and leaves every other object as it was.
    The new object has no children, and in a well-formed store no directory
    contains it. So [" notes.txt "] gives a file named ["notes.txt"],
    ["my docs"] a directory of that name, inner space kept; and a name of
    tabs and line ends throws. The spec's [InvalidArgument] is the [Error]
    with the message below. *)
Theorem create_spec (ty : FSType) (nm : string) (s : Store) :
  (JsString.trim nm = "" →
   FSViewModel.create ty nm s =
   Throw (mkError "cannot create an item with an empty name") s)
  ∧ (JsString.trim nm ≠ "" →
     ∃ l s' item,
       FSViewModel.create ty nm s = Return l s'
       ∧ objects s !! l = None
       ∧ objects s' !! l = Some item
       ∧ type item = ty ∧ name item = JsString.trim nm ∧ parent item = None
       ∧ kids s' l = []
       ∧ (∀ l', l' ≠ l → objects s' !! l' = objects s !! l')
       ∧ (WellFormed s → ∀ p, l ∉ kids s' p))
  ∧ FSViewModel.create ty "   " s =
    Throw (mkError "cannot create an item with an empty name") s
  ∧ (∃ pre post,
       nm = pre +:+ JsString.trim nm +:+ post
       ∧ JsString.allWhiteSpace pre = true
       ∧ JsString.allWhiteSpace post = true
       ∧ JsString.startsWhite (JsString.trim nm) = false
       ∧ JsString.endsWhite (JsString.trim nm) = false)
  ∧ (∃ l s',
       FSViewModel.create file " notes.txt " s = Return l s'
       ∧ objects s' !! l = Some (File "notes.txt" None))
  ∧ (∃ l a s',
       FSViewModel.create directory "my docs" s = Return l s'
       ∧ objects s' !! l = Some (Directory a "my docs" None false)
       ∧ arrays s' !! a = Some [])
  ∧ FSViewModel.create ty (String "009" (String "010" (String "013" EmptyString))) s =
    Throw (mkError "cannot create an item with an empty name") s
  ∧ (∀ l s', FSViewModel.create ty nm s = Return l s' → nm ≠ EmptyString).
Proof.
  split; [| split; [| split; [reflexivity |]]].
  - intros E. unfold FSViewModel.create. rewrite E. reflexivity.
  - intros Hne. unfold FSViewModel.create.
    destruct (String.eqb_spec (JsString.trim nm) "") as [E | _]; [done |].
    destruct ty.
    + rewrite run_new_File.
      eexists _, _, _. split; [reflexivity |].
      split; [apply fresh_object_None |]. simpl.
      split; [apply lookup_insert_eq |].
      repeat split; try reflexivity.
      * apply kids_file with (n := JsString.trim nm) (q := None). simpl.
        apply lookup_insert_eq.
      * intros l' Hl'. by rewrite lookup_insert_ne.
      * intros Hwf p Hin.
        destruct (decide (p = fresh (dom (objects s)))) as [-> | Hp].
        -- erewrite kids_file in Hin; [inversion Hin |]. simpl.
           apply lookup_insert_eq.
        -- by apply (new_item_unattached s (File (JsString.trim nm) None) [] p Hwf Hp) in Hin.
    + rewrite run_new_Directory.
      eexists _, _, _. split; [reflexivity |].
      split; [apply fresh_object_None |]. simpl.
      split; [apply lookup_insert_eq |].
      assert (Hk : kids
        (mkStore (<[fresh (dom (objects s)) :=
                      Directory (fresh (dom (arrays s))) (JsString.trim nm) None false]>
                    (objects s))
                 (<[fresh (dom (arrays s)) := []]> (arrays s)))
        (fresh (dom (objects s))) = []).
      { erewrite kids_directory; [| simpl; apply lookup_insert_eq].
        simpl. by rewrite lookup_insert_eq. }
      repeat split; try reflexivity.
      * exact Hk.
      * intros l' Hl'. by rewrite lookup_insert_ne.
      * intros Hwf p Hin.
        destruct (decide (p = fresh (dom (objects s)))) as [-> | Hp].
        -- rewrite Hk in Hin. inversion Hin.
        -- by apply (new_item_unattached s _ [] p Hwf Hp) in Hin.
  - split; [apply trim_split |].
    split.
    { rewrite run_new_File_at, run_new_File. eexists _, _. split; [reflexivity |].
      simpl. apply lookup_insert_eq. }
    split.
    { rewrite run_new_Directory_at, run_new_Directory. eexists _, _, _. split; [reflexivity |].
      simpl. split; apply lookup_insert_eq. }
    split; [reflexivity |].
    intros l s' Hrun ->. unfold FSViewModel.create in Hrun. simpl in Hrun.
    discriminate.
Qed.

(** ** [Directory.add] *)

Lemma with_parent_directory a n q d p :
  with_parent (Directory a n q d) p = Directory a n p d.
Proof. reflexivity. Qed.

Lemma with_parent_fields item p :
  parent (with_parent item p) = p
  ∧ name (with_parent item p) = name item
  ∧ type (with_parent item p) = type item
  ∧ deleted (with_parent item p) = deleted item.
Proof. destruct item; repeat split. Qed.

(** A directory's record once [item.parent = np] has run: the same array
    and the same tombstone, whether or not [item] is that directory. *)
Lemma lookup_after_set_parent s l item it np a n p d :
  objects s !! l = Some (Directory a n p d) →
  objects s !! item = Some it →
  ∃ q, <[item := with_parent it np]> (objects s) !! l
       = Some (Directory a n q d).
Proof.
  intros Ht Hi. destruct (decide (item = l)) as [-> | Hne].
  - rewrite lookup_insert_eq. simplify_eq. eexists. reflexivity.
  - rewrite lookup_insert_ne by done. eauto.
Qed.

(** [add] on a directory that is not tombstoned, as a store update. *)
Lemma run_add s this item it a n p elems :
  objects s !! this = Some (Directory a n p false) →
  objects s !! item = Some it →
  arrays s !! a = Some elems →
  Directory.add this item s =
  Return item (mkStore (<[item := with_parent it (Some this)]> (objects s))
                       (<[a := elems ++ [item]]> (arrays s))).
Proof.
  intros Ht Hi Ha. unfold Directory.add.
  rewrite (run_bind_Return _ _ _ _ _ (run_get_deleted _ _ _ _ _ _ Ht)).
  rewrite (run_bind_Return _ _ _ _ _ (run_set_parent _ _ _ (Some this) Hi)).
  destruct (lookup_after_set_parent s this item it (Some this) a n p false Ht Hi) as [q Hq].
  rewrite (run_bind_Return _ _ _ _ _ (run_get__children
             (mkStore _ (arrays s)) this a n q false Hq)).
  rewrite (run_bind_Return _ _ _ _ _ (run_push (mkStore _ (arrays s)) a elems item Ha)).
  reflexivity.
Qed.

Lemma run_add_deleted s this item a n p :
  objects s !! this = Some (Directory a n p true) →
  Directory.add this item s =
  Throw (mkError "cannot add item to a deleted directory") s.
Proof.
  intros Ht. unfold Directory.add.
  rewrite (run_bind_Return _ _ _ _ _ (run_get_deleted _ _ _ _ _ _ Ht)).
  reflexivity.
Qed.

(** C4: [add] throws when the receiver is tombstoned and leaves the store
    as it was. Otherwise it returns [item], whose parent is now the
    receiver and whose class and name are unchanged; [item] is appended, in
    place, to the receiver's own array, and no other object and no other
    array changes. The spec's [InvalidOperation] is the [Error] with the
    message below. *)
Theorem add_spec (s : Store) (this item : loc) a n p d it elems :
  objects s !! this = Some (Directory a n p d) →
  objects s !! item = Some it →
  arrays s !! a = Some elems →
  if d then
    Directory.add this item s =
    Throw (mkError "cannot add item to a deleted directory") s
  else
    ∃ s', Directory.add this item s = Return item s'
      ∧ parent_at s' item = Some this
      ∧ name <$> objects s' !! item = Some (name it)
      ∧ type <$> objects s' !! item = Some (type it)
      ∧ kids s' this = kids s this ++ [item]
      ∧ (∃ q, objects s' !! this = Some (Directory a n q false))
      ∧ arrays s' = <[a := elems ++ [item]]> (arrays s)
      ∧ (∀ l, l ≠ item → objects s' !! l = objects s !! l).
Proof.
  intros Ht Hi Ha. destruct d.
  - by apply (run_add_deleted s this item a n p).
  - eexists. split; [by apply (run_add s this item it a n p elems) |].
    destruct (with_parent_fields it (Some this)) as (Hp & Hn & Hty & _).
    destruct (lookup_after_set_parent s this item it (Some this) a n p false Ht Hi) as [q Hq].
    unfold parent_at. simpl. rewrite lookup_insert_eq. simpl.
    rewrite Hp, Hn, Hty. repeat split; try done.
    + rewrite (kids_directory _ _ _ _ _ _ Ht), Ha.
      erewrite kids_directory by exact Hq. simpl. by rewrite lookup_insert_eq.
    + eauto.
    + intros l Hl. by rewrite lookup_insert_ne.
Qed.

(** ** [Directory.children] *)

(** A read of [children] allocates one array, holding the sorted elements,
    and changes nothing else. *)
Lemma run_children `{Locale} s this a n p d elems :
  objects s !! this = Some (Directory a n p d) →
  arrays s !! a = Some elems →
  Directory.children this s =
  Return (fresh (dom (arrays s)))
         (mkStore (objects s)
                  (<[fresh (dom (arrays s)) := sorted_children s this]> (arrays s))).
Proof.
  intros Ht Ha. unfold Directory.children.
  rewrite (run_bind_Return _ _ _ _ _ (run_get__children _ _ _ _ _ _ Ht)).
  rewrite (run_bind_Return _ _ _ _ _ (run_slice _ _ _ Ha)).
  erewrite run_sort by (simpl; apply lookup_insert_eq).
  simpl. rewrite insert_insert_eq.
  unfold sorted_children. rewrite (kids_directory _ _ _ _ _ _ Ht), Ha.
  reflexivity.
Qed.

(** An array that [new_array], [slice] or [filter] allocates is no
    directory's [_children] in a well-formed store. *)
Lemma kids_alloc s elems p :
  WellFormed s →
  kids (mkStore (objects s) (<[fresh (dom (arrays s)) := elems]> (arrays s))) p
  = kids s p.
Proof.
  intros Hwf. apply kids_frame; [reflexivity |].
  intros a n q d E. simpl. apply lookup_insert_ne. intros <-.
  destruct (wf_array _ Hwf _ _ _ _ _ E) as [x Hx].
  rewrite fresh_array_None in Hx. discriminate.
Qed.

Lemma sorted_children_Permutation `{Locale} s d : sorted_children s d ≡ₚ kids s d.
Proof. apply stable_sort_Permutation. Qed.

Lemma elem_of_sorted_children `{Locale} s d x :
  x ∈ sorted_children s d ↔ x ∈ kids s d.
Proof. by rewrite sorted_children_Permutation. Qed.

(** Under a consistent comparator the array is in order: each element goes
    before, or ties with, every later one. *)
Lemma sorted_children_StronglySorted `{Locale} `{!LocaleOrder} s d :
  StronglySorted (before (by_name s)) (sorted_children s d).
Proof.
  apply stable_sort_StronglySorted.
  - intros x y. unfold by_name. apply localeCompare_total.
  - intros x y z. unfold by_name. apply localeCompare_trans.
Qed.

(** ** A sequence of [add] calls *)

Lemma run_add_all xs : ∀ s d a n p elems,
  objects s !! d = Some (Directory a n p false) →
  arrays s !! a = Some elems →
  (∀ x, x ∈ xs → is_Some (objects s !! x)) →
  ∃ s' q, add_all d xs s = Return () s'
    ∧ objects s' !! d = Some (Directory a n q false)
    ∧ arrays s' = <[a := elems ++ xs]> (arrays s)
    ∧ (∀ l, name_at s' l = name_at s l)
    ∧ (∀ l, is_Some (objects s' !! l) ↔ is_Some (objects s !! l)).
Proof.
  induction xs as [| x xs IH]; intros s d a n p elems Hd Ha Hxs.
  - exists s, p. rewrite app_nil_r, (insert_id _ _ _ Ha). done.
  - destruct (Hxs x) as [it Hit]; [left |].
    set (s1 := mkStore (<[x := with_parent it (Some d)]> (objects s))
                       (<[a := elems ++ [x]]> (arrays s))).
    assert (Hbody : (Directory.add d x;; mret ()) s = Return () s1).
    { by rewrite (run_bind_Return _ _ _ _ _ (run_add s d x it a n p elems Hd Hit Ha)). }
    unfold add_all. simpl.
    rewrite (run_bind_Return _ _ _ _ _ Hbody). fold (add_all d xs).
    destruct (lookup_after_set_parent s d x it (Some d) a n p false Hd Hit) as [q Hq].
    assert (Hdom : ∀ l, is_Some (objects s1 !! l) ↔ is_Some (objects s !! l)).
    { intros l. simpl. destruct (decide (l = x)) as [-> | Hl].
      - rewrite lookup_insert_eq, Hit. split; eauto.
      - by rewrite lookup_insert_ne. }
    destruct (IH s1 d a n q (elems ++ [x])) as (s' & q' & Hrun & Hd' & Harr & Hname & Hdom').
    + exact Hq.
    + simpl. apply lookup_insert_eq.
    + intros y Hy. apply Hdom, Hxs. by right.
    + exists s', q'. split; [exact Hrun |]. split; [exact Hd' |].
      split; [| split].
      * rewrite Harr. simpl. rewrite insert_insert_eq, <- app_assoc. reflexivity.
      * intros l. rewrite Hname. unfold name_at. simpl.
        destruct (decide (l = x)) as [-> | Hl].
        -- rewrite lookup_insert_eq, Hit.
           by destruct (with_parent_fields it (Some d)) as (_ & -> & _).
        -- by rewrite lookup_insert_ne.
      * intros l. by rewrite Hdom', Hdom.
Qed.

(** C3: after any sequence of [add] calls on a directory that is not
    tombstoned, the directory holds the items it had followed by the added
    ones, and a read of [children] returns an array that is not the
    directory's own, leaves every object and every other array as it was,
    and holds a rearrangement of exactly those items (each as often as it
    was added) in which every element goes before, or ties with, all later
    ones under the locale's comparison of names. When at least one item was
    added, the array returned did not exist before the read: the getter's
    value was computed before the last [add], so it is computed again.
    (With nothing added, the getter may hand out the array of an earlier
    read, and nothing is said about the array's age.) A directory that was
    empty thus shows exactly the added items, in an order that does not
    depend on the order in which they were added beyond ties. *)
Theorem children_after_adds `{Locale} `{!LocaleOrder}
    (s : Store) (d : loc) a n p elems (xs : list loc) :
  objects s !! d = Some (Directory a n p false) →
  arrays s !! a = Some elems →
  (∀ x, x ∈ xs → is_Some (objects s !! x)) →
  ∃ s1 r s2 result,
    add_all d xs s = Return () s1
    ∧ kids s1 d = elems ++ xs
    ∧ Directory.children d s1 = Return r s2
    ∧ r ≠ a
    ∧ (xs ≠ [] → arrays s1 !! r = None)
    ∧ objects s2 = objects s1
    ∧ (∀ a', a' ≠ r → arrays s2 !! a' = arrays s1 !! a')
    ∧ kids s2 d = elems ++ xs
    ∧ arrays s2 !! r = Some result
    ∧ result ≡ₚ elems ++ xs
    ∧ (∀ x, x ∈ result ↔ x ∈ elems ∨ x ∈ xs)
    ∧ (elems = [] → ∀ x, x ∈ result ↔ x ∈ xs)
    ∧ StronglySorted
        (λ x y, before localeCompare (name_at s2 x) (name_at s2 y)) result.
Proof.
  intros Hd Ha Hxs.
  destruct (run_add_all xs s d a n p elems Hd Ha Hxs)
    as (s1 & q & Hrun & Hd1 & Harr & _ & _).
  assert (Ha1 : arrays s1 !! a = Some (elems ++ xs)).
  { rewrite Harr. apply lookup_insert_eq. }
  assert (Hk1 : kids s1 d = elems ++ xs).
  { by rewrite (kids_directory _ _ _ _ _ _ Hd1), Ha1. }
  assert (Hfresh : fresh (dom (arrays s1)) ≠ a).
  { intros E. pose proof (fresh_array_None s1) as Hf. rewrite E in Hf. congruence. }
  exists s1, (fresh (dom (arrays s1))),
    (mkStore (objects s1)
             (<[fresh (dom (arrays s1)) := sorted_children s1 d]> (arrays s1))),
    (sorted_children s1 d).
  split; [exact Hrun |]. split; [exact Hk1 |].
  split; [exact (run_children s1 d a n q false _ Hd1 Ha1) |].
  split; [exact Hfresh |].
  split; [intros _; apply fresh_array_None |]. simpl.
  split; [reflexivity |].
  split; [intros a' Ha'; by rewrite lookup_insert_ne |].
  split.
  { erewrite kids_directory by exact Hd1. simpl.
    rewrite lookup_insert_ne by done. by rewrite Ha1. }
  split; [apply lookup_insert_eq |].
  split; [by rewrite sorted_children_Permutation, Hk1 |].
  split.
  { intros x. by rewrite elem_of_sorted_children, Hk1, elem_of_app. }
  split.
  { intros -> x. by rewrite elem_of_sorted_children, Hk1. }
  change (StronglySorted (before (by_name s1)) (sorted_children s1 d)).
  apply sorted_children_StronglySorted.
Qed.

(** ** [add] of an item that another directory holds *)

(** C10: when [item] is in the directory [d1] and has it as parent, [add]
    on another directory [d2] that is not tombstoned makes [d2] the parent
    of [item] and appends [item] to [d2], and does not take it out of
    [d1]: afterwards [item] is among the children of both, as [_children]
    holds them and as a read of [children] returns them, while its parent
    is [d2] and no longer [d1]. *)
Theorem add_keeps_former_membership `{Locale}
    (s : Store) (d1 d2 item : loc) it a2 n2 p2 elems2 :
  d1 ≠ d2 →
  item ∈ kids s d1 →
  objects s !! item = Some it →
  parent it = Some d1 →
  objects s !! d2 = Some (Directory a2 n2 p2 false) →
  arrays s !! a2 = Some elems2 →
  ∃ s', Directory.add d2 item s = Return item s'
    ∧ parent_at s' item = Some d2
    ∧ parent_at s' item ≠ Some d1
    ∧ item ∈ kids s' d1
    ∧ item ∈ kids s' d2
    ∧ (∀ d, d = d1 ∨ d = d2 →
       ∃ r s'' result, Directory.children d s' = Return r s''
         ∧ arrays s'' !! r = Some result ∧ item ∈ result).
Proof.
  intros Hne Hin Hit Hp Hd2 Ha2.
  destruct (kids_elem_directory _ _ _ Hin) as (a1 & n1 & q1 & dd1 & elems1 & Hd1 & Ha1 & Hk1).
  rewrite Hk1 in Hin.
  set (s' := mkStore (<[item := with_parent it (Some d2)]> (objects s))
                     (<[a2 := elems2 ++ [item]]> (arrays s))).
  destruct (lookup_after_set_parent s d2 item it (Some d2) a2 n2 p2 false Hd2 Hit) as [q2 Hq2].
  destruct (lookup_after_set_parent s d1 item it (Some d2) a1 n1 q1 dd1 Hd1 Hit) as [q1' Hq1].
  assert (Hp2 : parent_at s' item = Some d2).
  { unfold parent_at. simpl. rewrite lookup_insert_eq. simpl.
    by destruct (with_parent_fields it (Some d2)) as (-> & _). }
  assert (Ha2' : arrays s' !! a2 = Some (elems2 ++ [item])).
  { simpl. apply lookup_insert_eq. }
  assert (Ha1' : ∃ elems1', arrays s' !! a1 = Some elems1' ∧ item ∈ elems1').
  { destruct (decide (a1 = a2)) as [-> | Ha].
    - eexists. split; [exact Ha2' |]. apply elem_of_app. right. by left.
    - exists elems1. split; [| exact Hin]. simpl. by rewrite lookup_insert_ne. }
  destruct Ha1' as (elems1' & Ha1' & Hin1).
  assert (Hk1' : item ∈ kids s' d1).
  { erewrite kids_directory by exact Hq1. by rewrite Ha1'. }
  assert (Hk2' : item ∈ kids s' d2).
  { erewrite kids_directory by exact Hq2. rewrite Ha2'. simpl.
    apply elem_of_app. right. by left. }
  exists s'. split; [by apply (run_add s d2 item it a2 n2 p2 elems2) |].
  split; [exact Hp2 |]. split; [rewrite Hp2; congruence |].
  split; [exact Hk1' |]. split; [exact Hk2' |].
  intros d [-> | ->].
  - eexists _, _, _. split; [exact (run_children s' d1 _ _ _ _ _ Hq1 Ha1') |].
    simpl. split; [apply lookup_insert_eq |].
    by apply elem_of_sorted_children.
  - eexists _, _, _. split; [exact (run_children s' d2 _ _ _ _ _ Hq2 Ha2') |].
    simpl. split; [apply lookup_insert_eq |].
    by apply elem_of_sorted_children.
Qed.

(** ** Stores along a deletion *)

Lemma same_shape_refl item : same_shape item item.
Proof. destruct item; simpl; auto. Qed.

Lemma same_shape_trans i1 i2 i3 :
  same_shape i1 i2 → same_shape i2 i3 → same_shape i1 i3.
Proof.
  destruct i1, i2, i3; simpl; try tauto.
  - intros [-> ->] [-> ->]. done.
  - intros (-> & -> & H1) (-> & -> & H2). auto.
Qed.

Lemma shrinks_refl s : shrinks s s.
Proof.
  split; [| done]. intros l. destruct (objects s !! l); [| done].
  apply same_shape_refl.
Qed.

Lemma shrinks_trans s1 s2 s3 : shrinks s1 s2 → shrinks s2 s3 → shrinks s1 s3.
Proof.
  intros [Ho1 Hk1] [Ho2 Hk2]. split; [| by eauto].
  intros l. specialize (Ho1 l). specialize (Ho2 l).
  destruct (objects s1 !! l), (objects s2 !! l), (objects s3 !! l); try done.
  by eapply same_shape_trans.
Qed.

Lemma shrinks_lookup s s' l item :
  shrinks s s' → objects s !! l = Some item →
  ∃ item', objects s' !! l = Some item' ∧ same_shape item item'.
Proof.
  intros [Ho _] E. specialize (Ho l). rewrite E in Ho.
  destruct (objects s' !! l); [eauto | done].
Qed.

Lemma shrinks_lookup_inv s s' l item' :
  shrinks s s' → objects s' !! l = Some item' →
  ∃ item, objects s !! l = Some item ∧ same_shape item item'.
Proof.
  intros [Ho _] E. specialize (Ho l). rewrite E in Ho.
  destruct (objects s !! l); [eauto | done].
Qed.

Lemma shrinks_is_Some s s' l :
  shrinks s s' → is_Some (objects s !! l) → is_Some (objects s' !! l).
Proof.
  intros Hs [item E]. destruct (shrinks_lookup _ _ _ _ Hs E) as (? & ? & _). eauto.
Qed.

Lemma shrinks_is_directory s s' l :
  shrinks s s' → is_directory s l → is_directory s' l.
Proof.
  intros Hs (a & n & p & d & E).
  destruct (shrinks_lookup _ _ _ _ Hs E) as ([|a' n' p' d'] & E' & Hsh); [done |].
  by exists a', n', p', d'.
Qed.

Lemma Ranked_shrinks rank s s' : shrinks s s' → Ranked rank s → Ranked rank s'.
Proof. intros [_ Hk] Hr p c Hc. apply Hr, Hk, Hc. Qed.

Lemma rtc_shrinks s s' x y :
  shrinks s s' → rtc (contains s') x y → rtc (contains s) x y.
Proof.
  intros [_ Hk]. apply rtc_subrel. intros p c. apply Hk.
Qed.

Lemma cleared_shrinks s s' x : shrinks s s' → cleared s x → cleared s' x.
Proof.
  intros Hs. unfold cleared.
  destruct (objects s !! x) as [item |] eqn:E; [| done].
  destruct (shrinks_lookup _ _ _ _ Hs E) as (item' & -> & Hsh).
  destruct item as [| a n p d], item' as [| a' n' p' d']; try done.
  destruct Hsh as (_ & _ & Hd). intros [Hdel Hkids]. split; [auto |].
  destruct (kids s' x) as [| c cs] eqn:Ek; [done |].
  assert (Hc : c ∈ kids s x) by (apply (shrinks_kids _ _ Hs); rewrite Ek; by left).
  rewrite Hkids in Hc. inversion Hc.
Qed.

(** A well-formed store stays well formed along [shrinks] when the
    directories still have their arrays. *)
Lemma WellFormed_shrinks s s' :
  WellFormed s → shrinks s s' →
  (∀ p a n q d, objects s' !! p = Some (Directory a n q d) →
                is_Some (arrays s' !! a)) →
  WellFormed s'.
Proof.
  intros Hwf Hs Harr. split; [exact Harr | |].
  - intros p c Hc. eapply shrinks_is_Some; [exact Hs |].
    eapply wf_kids; [exact Hwf |]. by apply (shrinks_kids _ _ Hs).
  - intros x item' q E Hq.
    destruct (shrinks_lookup_inv _ _ _ _ Hs E) as (item & E0 & Hsh).
    eapply shrinks_is_directory; [exact Hs |].
    eapply wf_parent; [exact Hwf | exact E0 |].
    destruct item, item'; simpl in *; try done.
    + by destruct Hsh as [_ ->].
    + by destruct Hsh as (_ & -> & _).
Qed.

(** A path of [s] survives in [s'] unless it runs into a cleared part. *)
Lemma cut_path s s' q x :
  cut_cleared s s' → rtc (contains s) q x →
  rtc (contains s') q x ∨ cleared s' x.
Proof.
  intros Hcut Hpath. induction Hpath as [q | q y x Hqy Hyx IH]; [by left |].
  destruct (decide (y ∈ kids s' q)) as [Hin | Hout].
  - destruct IH as [IH | IH]; [left | by right]. by eapply rtc_l.
  - right. by eapply Hcut.
Qed.

Lemma cut_cleared_same_kids s s' :
  (∀ p, kids s' p = kids s p) → cut_cleared s s'.
Proof. intros Hk p q Hin Hout. rewrite Hk in Hout. done. Qed.

Lemma cut_cleared_trans s1 s2 s3 :
  cut_cleared s1 s2 → cut_cleared s2 s3 → shrinks s2 s3 → cut_cleared s1 s3.
Proof.
  intros H12 H23 Hs p q Hin Hout x Hpath.
  destruct (decide (q ∈ kids s2 p)) as [Hin2 | Hout2].
  - destruct (cut_path _ _ _ _ H12 Hpath) as [Hpath2 | Hc].
    + by eapply H23.
    + by eapply cleared_shrinks.
  - eapply cleared_shrinks; [exact Hs |]. by eapply H12.
Qed.

Lemma elem_of_filter_is_not item c elems :
  c ∈ List.filter (is_not item) elems ↔ c ∈ elems ∧ c ≠ item.
Proof.
  rewrite !list_elem_of_In, filter_In, <- list_elem_of_In. unfold is_not.
  destruct (Pos.eqb_spec c item); simpl; intuition congruence.
Qed.

(** A file, and a directory without children, reach themselves only. *)
Lemma rtc_no_kids s x y : kids s x = [] → rtc (contains s) x y → x = y.
Proof.
  intros Hk Hpath. destruct Hpath as [| x z y Hxz _]; [done |].
  unfold contains in Hxz. rewrite Hk in Hxz. inversion Hxz.
Qed.

(** ** The three store updates of [delete] *)

(** Allocating an array. *)
Lemma alloc_facts s elems :
  WellFormed s →
  let s' := mkStore (objects s) (<[fresh (dom (arrays s)) := elems]> (arrays s)) in
  WellFormed s' ∧ shrinks s s' ∧ (∀ p, kids s' p = kids s p).
Proof.
  intros Hwf s'.
  assert (Hk : ∀ p, kids s' p = kids s p) by (intros p; by apply kids_alloc).
  assert (Hs : shrinks s s').
  { split; [| intros p c; by rewrite Hk]. intros l. simpl.
    destruct (objects s !! l); [apply same_shape_refl | done]. }
  split; [| done]. apply (WellFormed_shrinks s); [done | done |].
  intros p a n q d E. simpl in *.
  destruct (wf_array _ Hwf _ _ _ _ _ E) as [x Hx].
  destruct (decide (fresh (dom (arrays s)) = a)) as [<- | Hne].
  - rewrite lookup_insert_eq. eauto.
  - rewrite lookup_insert_ne by done. eauto.
Qed.

(** [item.deleted = true]. *)
Lemma tombstone_facts s item a n p d :
  WellFormed s →
  objects s !! item = Some (Directory a n p d) →
  let s' := mkStore (<[item := Directory a n p true]> (objects s)) (arrays s) in
  WellFormed s' ∧ shrinks s s' ∧ (∀ q, kids s' q = kids s q)
  ∧ deleted_at s' item = Some true
  ∧ (∀ q, q ≠ item → deleted_at s' q = deleted_at s q).
Proof.
  intros Hwf E s'.
  assert (Hk : ∀ q, kids s' q = kids s q).
  { intros q. unfold kids. simpl. destruct (decide (q = item)) as [-> | Hq].
    - by rewrite lookup_insert_eq, E.
    - by rewrite lookup_insert_ne. }
  assert (Hs : shrinks s s').
  { split; [| intros q c; by rewrite Hk]. intros l. simpl.
    destruct (decide (l = item)) as [-> | Hl].
    - rewrite lookup_insert_eq, E. simpl. auto.
    - rewrite lookup_insert_ne by done.
      destruct (objects s !! l); [apply same_shape_refl | done]. }
  split; [| split; [done | split; [done | split]]].
  - apply (WellFormed_shrinks s); [done | done |].
    intros q a' n' q' d' E'. simpl in *.
    destruct (decide (q = item)) as [-> | Hq].
    + rewrite lookup_insert_eq in E'. simplify_eq.
      by eapply wf_array.
    + rewrite lookup_insert_ne in E' by done. by eapply wf_array.
  - unfold deleted_at. simpl. by rewrite lookup_insert_eq.
  - intros q Hq. unfold deleted_at. simpl. by rewrite lookup_insert_ne.
Qed.

(** [this._children = this._children.filter(...)]. *)
Lemma run_remove s this item a n p d elems :
  objects s !! this = Some (Directory a n p d) →
  arrays s !! a = Some elems →
  (a0 ← get__children this;
   a' ← filter_array (λ child, negb (Pos.eqb child item)) a0;
   set__children this a') s =
  Return () (mkStore
    (<[this := Directory (fresh (dom (arrays s))) n p d]> (objects s))
    (<[fresh (dom (arrays s)) := List.filter (is_not item) elems]> (arrays s))).
Proof.
  intros Ht Ha.
  rewrite (run_bind_Return _ _ _ _ _ (run_get__children _ _ _ _ _ _ Ht)).
  rewrite (run_bind_Return _ _ _ _ _ (run_filter_array _ _ _ _ Ha)).
  erewrite run_set__children by exact Ht. reflexivity.
Qed.

Lemma remove_facts s this item a n p d elems :
  WellFormed s →
  objects s !! this = Some (Directory a n p d) →
  arrays s !! a = Some elems →
  let s' := mkStore
    (<[this := Directory (fresh (dom (arrays s))) n p d]> (objects s))
    (<[fresh (dom (arrays s)) := List.filter (is_not item) elems]> (arrays s)) in
  WellFormed s' ∧ shrinks s s'
  ∧ kids s' this = List.filter (is_not item) (kids s this)
  ∧ (∀ q, q ≠ this → kids s' q = kids s q)
  ∧ (∀ q, deleted_at s' q = deleted_at s q).
Proof.
  intros Hwf Ht Ha s'.
  assert (Hthis : kids s' this = List.filter (is_not item) (kids s this)).
  { rewrite (kids_directory _ _ _ _ _ _ Ht), Ha.
    erewrite kids_directory by (simpl; apply lookup_insert_eq).
    simpl. by rewrite lookup_insert_eq. }
  assert (Hother : ∀ q, q ≠ this → kids s' q = kids s q).
  { intros q Hq. apply kids_frame; simpl; [by rewrite lookup_insert_ne |].
    intros a0 n0 q0 d0 E. apply lookup_insert_ne. intros <-.
    destruct (wf_array _ Hwf _ _ _ _ _ E) as [x Hx].
    rewrite fresh_array_None in Hx. discriminate. }
  assert (Hs : shrinks s s').
  { split.
    - intros l. simpl. destruct (decide (l = this)) as [-> | Hl].
      + rewrite lookup_insert_eq, Ht. simpl. auto.
      + rewrite lookup_insert_ne by done.
        destruct (objects s !! l); [apply same_shape_refl | done].
    - intros q c. destruct (decide (q = this)) as [-> | Hq].
      + rewrite Hthis, elem_of_filter_is_not. tauto.
      + by rewrite Hother. }
  split; [| split; [done | split; [done | split; [done |]]]].
  - apply (WellFormed_shrinks s); [done | done |].
    intros q a' n' q' d' E'. simpl in *.
    destruct (decide (q = this)) as [-> | Hq].
    + rewrite lookup_insert_eq in E'. simplify_eq.
      rewrite lookup_insert_eq. eauto.
    + rewrite lookup_insert_ne in E' by done.
      destruct (wf_array _ Hwf _ _ _ _ _ E') as [x Hx].
      destruct (decide (fresh (dom (arrays s)) = a')) as [<- | Hne].
      * rewrite lookup_insert_eq. eauto.
      * rewrite lookup_insert_ne by done. eauto.
  - intros q. unfold deleted_at. simpl.
    destruct (decide (q = this)) as [-> | Hq].
    + by rewrite lookup_insert_eq, Ht.
    + by rewrite lookup_insert_ne.
Qed.

(** The last step of [delete] alone establishes [delete_post] when [item]
    has nothing left to clear. *)
Lemma remove_post s this item a n p d elems :
  WellFormed s →
  objects s !! this = Some (Directory a n p d) →
  arrays s !! a = Some elems →
  cleared s item → kids s item = [] →
  delete_post s this item (mkStore
    (<[this := Directory (fresh (dom (arrays s))) n p d]> (objects s))
    (<[fresh (dom (arrays s)) := List.filter (is_not item) elems]> (arrays s))).
Proof.
  intros Hwf Ht Ha Hc Hk.
  destruct (remove_facts s this item a n p d elems Hwf Ht Ha)
    as (Hwf' & Hs & Hthis & Hother & Hdel).
  split; [done | done | | | |].
  - intros x Hx. apply (rtc_no_kids _ _ _ Hk) in Hx as <-.
    by eapply cleared_shrinks.
  - intros q c Hin Hout x Hx.
    destruct (decide (q = this)) as [-> | Hq]; [| by rewrite Hother in Hout].
    rewrite Hthis, elem_of_filter_is_not in Hout.
    destruct (decide (c = item)) as [-> | Hci]; [| tauto].
    apply (rtc_no_kids _ _ _ Hk) in Hx as <-. by eapply cleared_shrinks.
  - rewrite Hthis, elem_of_filter_is_not. tauto.
  - intros q _. split; [| apply Hdel].
    destruct (decide (q = this)) as [-> | Hq]; [exact Hthis | by apply Hother].
Qed.

(** ** [Directory.delete] *)

Lemma delete_unfold `{Locale} fuel this item :
  Directory.delete (S fuel) this item =
  (it ← get_item item;
   match type it with
   | directory =>
       snapshot ← Directory.children item;
       elems ← read_array snapshot;
       for_each elems (λ child, Directory.delete fuel item child);;
       set_deleted item true
   | file => mret ()
   end;;
   a ← get__children this;
   a' ← filter_array (λ child, negb (Pos.eqb child item)) a;
   set__children this a').
Proof. reflexivity. Qed.

Lemma loop_post_nil s item : WellFormed s → loop_post s item [] s.
Proof.
  intros Hwf. split; try done.
  - apply shrinks_refl.
  - intros c x Hc. inversion Hc.
  - by apply cut_cleared_same_kids.
  - intros c Hc. inversion Hc.
Qed.

Lemma loop_post_cons s s1 s2 item c cs :
  delete_post s item c s1 → loop_post s1 item cs s2 →
  loop_post s item (c :: cs) s2.
Proof.
  intros Hd Hl. split.
  - apply (lp_wf _ _ _ _ Hl).
  - eapply shrinks_trans; [apply (dp_shrinks _ _ _ _ Hd) | apply (lp_shrinks _ _ _ _ Hl)].
  - intros c0 x Hc0 Hpath. apply elem_of_cons in Hc0 as [-> | Hc0].
    + eapply cleared_shrinks; [apply (lp_shrinks _ _ _ _ Hl) |].
      by apply (dp_cleared _ _ _ _ Hd).
    + destruct (cut_path _ _ _ _ (dp_cut _ _ _ _ Hd) Hpath) as [Hpath1 | Hc].
      * by apply (lp_cleared _ _ _ _ Hl c0).
      * eapply cleared_shrinks; [apply (lp_shrinks _ _ _ _ Hl) | done].
  - eapply cut_cleared_trans;
      [apply (dp_cut _ _ _ _ Hd) | apply (lp_cut _ _ _ _ Hl) | apply (lp_shrinks _ _ _ _ Hl)].
  - intros c0 Hc0. apply elem_of_cons in Hc0 as [-> | Hc0].
    + intros Hin. apply (dp_removed _ _ _ _ Hd).
      by apply (shrinks_kids _ _ (lp_shrinks _ _ _ _ Hl)).
    + by apply (lp_removed _ _ _ _ Hl).
  - intros p Hp Hfar.
    destruct (dp_frame _ _ _ _ Hd p) as [Hk1 Hd1]; [apply Hfar; by left |].
    rewrite decide_False in Hk1 by done.
    destruct (lp_frame _ _ _ _ Hl p Hp) as [Hk2 Hd2].
    + intros c0 Hc0 Hpath. apply (Hfar c0); [by right |].
      by eapply rtc_shrinks; [apply (dp_shrinks _ _ _ _ Hd) |].
    + split; congruence.
Qed.

Section delete_induction.
Context `{Locale} (rank : loc → nat) (fuel : nat).

(** The induction hypothesis on [fuel]: a [delete] of anything of rank
    below [fuel] returns and establishes [delete_post]. *)
Hypothesis delete_below : ∀ s this c,
  WellFormed s → Ranked rank s → is_directory s this →
  is_Some (objects s !! c) → rank c < fuel →
  ∃ s', Directory.delete fuel this c s = Return () s' ∧ delete_post s this c s'.

Lemma run_delete_loop item cs : ∀ s,
  WellFormed s → Ranked rank s → is_directory s item →
  (∀ c, c ∈ cs → is_Some (objects s !! c) ∧ rank c < fuel) →
  ∃ s', for_each cs (λ child, Directory.delete fuel item child) s = Return () s'
    ∧ loop_post s item cs s'.
Proof.
  induction cs as [| c cs IH]; intros s Hwf Hr Hdir Hcs.
  - exists s. split; [reflexivity | by apply loop_post_nil].
  - destruct (Hcs c) as [Hc Hrank]; [by left |].
    destruct (delete_below s item c Hwf Hr Hdir Hc Hrank) as (s1 & Hrun1 & Hpost1).
    pose proof (dp_shrinks _ _ _ _ Hpost1) as Hs1.
    destruct (IH s1) as (s2 & Hrun2 & Hpost2).
    + apply (dp_wf _ _ _ _ Hpost1).
    + by eapply Ranked_shrinks.
    + by eapply shrinks_is_directory.
    + intros c0 Hc0. destruct (Hcs c0) as [Hc0' Hrank0]; [by right |].
      split; [by eapply shrinks_is_Some | done].
    + exists s2. split; [| by eapply loop_post_cons].
      simpl. by rewrite (run_bind_Return _ _ _ _ _ Hrun1).
Qed.

Lemma run_delete_step s this item :
  WellFormed s → Ranked rank s → is_directory s this →
  is_Some (objects s !! item) → rank item < S fuel →
  ∃ s', Directory.delete (S fuel) this item s = Return () s'
    ∧ delete_post s this item s'.
Proof.
  intros Hwf Hr (at_ & nt & pt & dt & Ht) [it Hit] Hrank.
  rewrite delete_unfold.
  rewrite (run_bind_Return _ _ _ _ _ (run_get_item _ _ _ Hit)).
  destruct it as [n p | a n p d]; simpl type; cbv iota.
  - (* a file: nothing to clear *)
    destruct (wf_array _ Hwf _ _ _ _ _ Ht) as [elems Ha].
    rewrite (run_bind_Return _ _ _ _ _ (run_ret () s)).
    rewrite (run_remove s this item _ _ _ _ _ Ht Ha).
    eexists. split; [reflexivity |].
    apply (remove_post s this item at_ nt pt dt elems Hwf Ht Ha).
    + unfold cleared. by rewrite Hit.
    + by apply (kids_file s item n p).
  - (* a directory *)
    destruct (wf_array _ Hwf _ _ _ _ _ Hit) as [elems Ha].
    pose proof (run_children s item a n p d elems Hit Ha) as Hrun1.
    destruct (alloc_facts s (sorted_children s item) Hwf) as (Hwf1 & Hs1 & Hk1).
    set (s1 := mkStore (objects s)
                 (<[fresh (dom (arrays s)) := sorted_children s item]> (arrays s)))
      in *.
    destruct (run_delete_loop item (sorted_children s item) s1) as (s2 & Hrun2 & Hpost2).
    { done. } { by eapply Ranked_shrinks. }
    { exists a, n, p, d. exact Hit. }
    { intros c Hc. apply elem_of_sorted_children in Hc. split.
      - by eapply (wf_kids _ Hwf).
      - specialize (Hr _ _ Hc). lia. }
    pose proof (lp_shrinks _ _ _ _ Hpost2) as Hs2.
    pose proof (lp_wf _ _ _ _ Hpost2) as Hwf2.
    destruct (shrinks_lookup s1 s2 item _ Hs2 Hit) as ([| a2 n2 p2 d2] & Hit2 & Hsh2);
      [done |].
    destruct (tombstone_facts s2 item a2 n2 p2 d2 Hwf2 Hit2)
      as (Hwf3 & Hs3 & Hk3 & Hdel3 & Hdel3').
    set (s3 := mkStore (<[item := Directory a2 n2 p2 true]> (objects s2)) (arrays s2))
      in *.
    assert (Hblock :
      (snapshot ← Directory.children item;
       elems0 ← read_array snapshot;
       for_each elems0 (λ child, Directory.delete fuel item child);;
       set_deleted item true) s = Return () s3).
    { rewrite (run_bind_Return _ _ _ _ _ Hrun1).
      rewrite (run_bind_Return _ _ _ _ _
                 (run_read_array s1 _ (sorted_children s item) (lookup_insert_eq _ _ _))).
      rewrite (run_bind_Return _ _ _ _ _ Hrun2).
      by apply run_set_deleted with d2. }
    rewrite (run_bind_Return _ _ _ _ _ Hblock).
    assert (Hs03 : shrinks s s3).
    { eapply shrinks_trans; [exact Hs1 |]. by eapply shrinks_trans. }
    destruct (shrinks_lookup s s3 this _ Hs03 Ht) as ([| a3 n3 p3 d3] & Ht3 & Hsh3);
      [done |].
    destruct (wf_array _ Hwf3 _ _ _ _ _ Ht3) as [elems3 Ha3].
    rewrite (run_remove s3 this item _ _ _ _ _ Ht3 Ha3).
    eexists. split; [reflexivity |].
    (* the children of [item] are gone after the loop *)
    assert (Hempty : kids s3 item = []).
    { rewrite Hk3. destruct (kids s2 item) as [| c cs] eqn:Ek; [done |].
      assert (Hc2 : c ∈ kids s2 item) by (rewrite Ek; by left).
      exfalso. apply (lp_removed _ _ _ _ Hpost2 c); [| done].
      apply elem_of_sorted_children. rewrite <- Hk1.
      by apply (shrinks_kids _ _ Hs2). }
    assert (Hcl3 : cleared s3 item).
    { unfold cleared. unfold deleted_at in Hdel3.
      destruct (objects s3 !! item) as [[|]|]; simpl in Hdel3; try done.
      split; [congruence | done]. }
    pose proof (remove_post s3 this item _ _ _ _ _ Hwf3 Ht3 Ha3 Hcl3 Hempty) as Hpost4.
    set (s4 := mkStore _ _) in *.
    pose proof (dp_shrinks _ _ _ _ Hpost4) as Hs4.
    assert (Hcut3 : cut_cleared s s3).
    { eapply cut_cleared_trans; [by apply cut_cleared_same_kids | | exact (shrinks_trans _ _ _ Hs2 Hs3)].
      eapply cut_cleared_trans; [apply (lp_cut _ _ _ _ Hpost2) | | exact Hs3].
      by apply cut_cleared_same_kids. }
    split.
    + apply (dp_wf _ _ _ _ Hpost4).
    + by eapply shrinks_trans.
    + intros x Hx. apply rtc_inv in Hx as [<- | (c & Hc & Hcx)].
      * apply (dp_cleared _ _ _ _ Hpost4). apply rtc_refl.
      * eapply cleared_shrinks; [exact (shrinks_trans _ _ _ Hs3 Hs4) |].
        apply (lp_cleared _ _ _ _ Hpost2 c).
        -- by apply elem_of_sorted_children.
        -- eapply rtc_subrel; [| exact Hcx]. intros y z. unfold contains.
           by rewrite Hk1.
    + eapply cut_cleared_trans; [exact Hcut3 | apply (dp_cut _ _ _ _ Hpost4) | done].
    + apply (dp_removed _ _ _ _ Hpost4).
    + intros q Hq.
      assert (Hqi : q ≠ item) by (intros ->; apply Hq, rtc_refl).
      destruct (lp_frame _ _ _ _ Hpost2 q Hqi) as [Hkq2 Hdq2].
      { intros c Hc Hpath. apply Hq. eapply rtc_l.
        - apply elem_of_sorted_children in Hc. exact Hc.
        - eapply rtc_subrel; [| exact Hpath]. intros y z. unfold contains.
          by rewrite Hk1. }
      destruct (dp_frame _ _ _ _ Hpost4 q) as [Hkq4 Hdq4].
      { intros Hpath. apply (rtc_no_kids _ _ _ Hempty) in Hpath. done. }
      rewrite Hkq4, Hdq4, Hk3, Hkq2, Hk1, (Hdel3' q Hqi), Hdq2.
      split; reflexivity.
Qed.

End delete_induction.

(** With enough fuel for the rank of [item], [delete] returns. *)
Lemma run_delete `{Locale} (rank : loc → nat) : ∀ fuel s this item,
  WellFormed s → Ranked rank s → is_directory s this →
  is_Some (objects s !! item) → rank item < fuel →
  ∃ s', Directory.delete fuel this item s = Return () s'
    ∧ delete_post s this item s'.
Proof.
  induction fuel as [| fuel IH]; intros s this item Hwf Hr Hdir Hit Hrank; [lia |].
  by apply (run_delete_step rank fuel IH).
Qed.

(** ** The executable checks *)

Lemma directoryb_true s l : directoryb s l = true ↔ is_directory s l.
Proof.
  unfold directoryb, is_directory.
  destruct (objects s !! l) as [[n p | a n p d] |]; split;
    try done; try (intros (? & ? & ? & ? & ?); done).
  intros _. by exists a, n, p, d.
Qed.

Lemma well_formed_item_ok s l item :
  well_formed s = true → objects s !! l = Some item → item_ok s item = true.
Proof.
  unfold well_formed. rewrite forallb_forall. intros Hall E.
  apply (Hall (l, item)). apply list_elem_of_In, elem_of_map_to_list, E.
Qed.

Lemma well_formed_WellFormed s : well_formed s = true → WellFormed s.
Proof.
  intros Hall. split.
  - intros p a n q d E. pose proof (well_formed_item_ok _ _ _ Hall E) as Hok.
    unfold item_ok in Hok. apply andb_true_iff in Hok as [_ Hok].
    destruct (arrays s !! a); [eauto | done].
  - intros p c Hc.
    destruct (kids_elem_directory _ _ _ Hc) as (a & n & q & d & elems & E & Ea & Ek).
    pose proof (well_formed_item_ok _ _ _ Hall E) as Hok.
    unfold item_ok in Hok. apply andb_true_iff in Hok as [_ Hok].
    rewrite Ea in Hok. rewrite forallb_forall in Hok.
    rewrite Ek in Hc. apply list_elem_of_In in Hc.
    by apply Hok, bool_decide_eq_true in Hc.
  - intros x item q E Hq. pose proof (well_formed_item_ok _ _ _ Hall E) as Hok.
    unfold item_ok in Hok. apply andb_true_iff in Hok as [Hok _].
    rewrite Hq in Hok. by apply directoryb_true.
Qed.

Lemma ranked_Ranked rank s : ranked rank s = true → Ranked rank s.
Proof.
  unfold ranked. rewrite forallb_forall. intros Hall p c Hc.
  destruct (kids_elem_directory _ _ _ Hc) as (a & n & q & d & elems & E & _ & _).
  specialize (Hall (p, Directory a n q d)). simpl in Hall.
  rewrite forallb_forall in Hall.
  apply Nat.ltb_lt, Hall.
  - apply list_elem_of_In, elem_of_map_to_list, E.
  - by apply list_elem_of_In.
Qed.

Lemma same_shape_fields item item' :
  same_shape item item' →
  name item' = name item ∧ parent item' = parent item ∧ type item' = type item.
Proof.
  destruct item, item'; simpl; try done.
  - by intros [-> ->].
  - by intros (-> & -> & _).
Qed.

Lemma shrinks_fields s s' l :
  shrinks s s' →
  name_at s' l = name_at s l ∧ parent_at s' l = parent_at s l
  ∧ directoryb s' l = directoryb s l.
Proof.
  intros Hs. pose proof (shrinks_objects _ _ Hs l) as Ho.
  unfold name_at, parent_at, directoryb.
  destruct (objects s !! l) as [item |], (objects s' !! l) as [item' |]; try done.
  destruct (same_shape_fields _ _ Ho) as (Hn & Hp & Hty). simpl.
  split; [done | split; [done |]]. by destruct item, item'.
Qed.

Lemma cleared_deleted_at s x :
  cleared s x →
  deleted_at s x = (if directoryb s x then Some true else None) ∧ kids s x = [].
Proof.
  unfold cleared, deleted_at, directoryb.
  destruct (objects s !! x) as [[n p | a n p d] |] eqn:E; simpl; try done.
  - intros _. split; [done |]. by apply (kids_file s x n p).
  - by intros [-> ->].
Qed.

(** C1, as amended: [this.delete(item)] on a well-formed store without
    containment cycles returns when the fuel exceeds the rank of [item],
    and then [item] and every descendant of [item] that is a directory is
    tombstoned, while a descendant that is a file has no [deleted] field to
    set; [item] and every descendant directory have no children left, so
    each descendant is absent from the children of its former parent;
    [item] itself is no longer among the receiver's children, which loses
    nothing but the occurrences of [item] (the removal is by identity);
    names and parents are unchanged, and a directory outside the deleted
    part keeps its children and its flag. *)
Theorem delete_cascades `{Locale} (rank : loc → nat) (fuel : nat)
    (s : Store) (this item : loc) :
  well_formed s = true →
  ranked rank s = true →
  directoryb s this = true →
  is_Some (objects s !! item) →
  rank item < fuel →
  ∃ s', Directory.delete fuel this item s = Return () s'
    ∧ (∀ x, x = item ∨ descendant s item x →
         deleted_at s' x = (if directoryb s x then Some true else None)
         ∧ kids s' x = [])
    ∧ (∀ p x, p = item ∨ descendant s item p → x ∈ kids s p → x ∉ kids s' p)
    ∧ (item ∉ kids s' this)
    ∧ (¬ rtc (contains s) item this →
         kids s' this = List.filter (is_not item) (kids s this)
         ∧ deleted_at s' this = deleted_at s this)
    ∧ (∀ p, ¬ rtc (contains s) item p → p ≠ this →
         kids s' p = kids s p ∧ deleted_at s' p = deleted_at s p)
    ∧ (∀ l, name_at s' l = name_at s l ∧ parent_at s' l = parent_at s l)
    ∧ WellFormed s'.
Proof.
  intros Hwf Hr Hdir Hit Hrank.
  destruct (run_delete rank fuel s this item) as (s' & Hrun & Hpost);
    [by apply well_formed_WellFormed | by apply ranked_Ranked
    | by apply directoryb_true | done | done |].
  exists s'. split; [exact Hrun |].
  assert (Hcl : ∀ x, x = item ∨ descendant s item x → cleared s' x).
  { intros x Hx. apply (dp_cleared _ _ _ _ Hpost), rtc_tc.
    destruct Hx as [-> | Hx]; [by left | by right]. }
  split; [| split; [| split; [| split; [| split; [| split]]]]].
  - intros x Hx. destruct (cleared_deleted_at _ _ (Hcl x Hx)) as [Hd Hk].
    split; [| done]. rewrite Hd.
    by destruct (shrinks_fields s s' x (dp_shrinks _ _ _ _ Hpost)) as (_ & _ & ->).
  - intros p x Hp _ Hin.
    destruct (cleared_deleted_at _ _ (Hcl p Hp)) as [_ Hk].
    rewrite Hk in Hin. inversion Hin.
  - apply (dp_removed _ _ _ _ Hpost).
  - intros Hfar. destruct (dp_frame _ _ _ _ Hpost this Hfar) as [Hk Hd].
    by rewrite decide_True in Hk.
  - intros p Hfar Hp. destruct (dp_frame _ _ _ _ Hpost p Hfar) as [Hk Hd].
    by rewrite decide_False in Hk.
  - intros l.
    by destruct (shrinks_fields s s' l (dp_shrinks _ _ _ _ Hpost)) as (-> & -> & _).
  - apply (dp_wf _ _ _ _ Hpost).
Qed.

(** ** [FSViewModel.deleteSelection] *)

Lemma sorted_children_same `{Locale} s s' d :
  objects s' = objects s → kids s' d = kids s d →
  sorted_children s' d = sorted_children s d.
Proof.
  intros Ho Hk. unfold sorted_children, by_name, name_at. by rewrite Ho, Hk.
Qed.

Lemma run_selectionOfChildren `{Locale} s d :
  WellFormed s → is_directory s d →
  FSViewModel.selectionOfChildren d s =
  Return (Selection.new (sorted_children s d))
         (mkStore (objects s)
                  (<[fresh (dom (arrays s)) := sorted_children s d]> (arrays s))).
Proof.
  intros Hwf (a & n & p & dd & Hd).
  destruct (wf_array _ Hwf _ _ _ _ _ Hd) as [elems Ha].
  unfold FSViewModel.selectionOfChildren.
  rewrite (run_bind_Return _ _ _ _ _ (run_children s d a n p dd elems Hd Ha)).
  by rewrite (run_bind_Return _ _ _ _ _
                (run_read_array (mkStore _ _) _ _ (lookup_insert_eq _ _ _))).
Qed.

Lemma items_new {T} `{Countable T} (universe : list T) :
  Selection.items (Selection.new universe) = [].
Proof.
  unfold Selection.items. simpl. induction universe as [| x l IH]; [done |].
  simpl. rewrite bool_decide_eq_false_2 by set_solver. exact IH.
Qed.

Lemma run_deleteSelection_loop `{Locale} (rank : loc → nat) (fuel : nat) :
  ∀ items s,
  WellFormed s → Ranked rank s →
  (∀ x, x ∈ items → is_Some (objects s !! x) ∧ rank x < fuel) →
  ∃ s', for_each items (λ item,
          it ← get_item item;
          match parent it with
          | Some p => Directory.delete fuel p item
          | None => mret ()
          end) s = Return () s'
    ∧ WellFormed s' ∧ shrinks s s'
    ∧ (∀ x p, x ∈ items → parent_at s x = Some p →
         (x ∉ kids s' p) ∧ cleared s' x).
Proof.
  induction items as [| x xs IH]; intros s Hwf Hr Hitems.
  - exists s. split; [reflexivity |]. split; [done |].
    split; [apply shrinks_refl |]. intros x p Hx. inversion Hx.
  - destruct (Hitems x) as [[it Hit] Hrank]; [by left |].
    assert (Hstep : ∃ s1,
      (it0 ← get_item x;
       match parent it0 with
       | Some p => Directory.delete fuel p x
       | None => mret ()
       end) s = Return () s1
      ∧ WellFormed s1 ∧ shrinks s s1
      ∧ (∀ p, parent_at s x = Some p → (x ∉ kids s1 p) ∧ cleared s1 x)).
    { rewrite (run_bind_Return _ _ _ _ _ (run_get_item _ _ _ Hit)).
      unfold parent_at. rewrite Hit. simpl.
      destruct (parent it) as [p |] eqn:Hp.
      - destruct (run_delete rank fuel s p x) as (s1 & Hrun & Hpost);
          [done | done | by eapply wf_parent | by eauto | done |].
        exists s1. split; [done |].
        split; [apply (dp_wf _ _ _ _ Hpost) |].
        split; [apply (dp_shrinks _ _ _ _ Hpost) |].
        intros ? [= <-]. split; [apply (dp_removed _ _ _ _ Hpost) |].
        apply (dp_cleared _ _ _ _ Hpost), rtc_refl.
      - exists s. split; [reflexivity |]. split; [done |].
        split; [apply shrinks_refl | done]. }
    destruct Hstep as (s1 & Hrun1 & Hwf1 & Hs1 & Hx1).
    destruct (IH s1) as (s2 & Hrun2 & Hwf2 & Hs2 & Hxs2);
      [done | by eapply Ranked_shrinks | |].
    { intros y Hy. destruct (Hitems y) as [Hy' Hranky]; [by right |].
      split; [by eapply shrinks_is_Some | done]. }
    exists s2. split.
    { simpl. by rewrite (run_bind_Return _ _ _ _ _ Hrun1). }
    split; [done |]. split; [by eapply shrinks_trans |].
    intros y p Hy Hp. apply elem_of_cons in Hy as [-> | Hy].
    + destruct (Hx1 p Hp) as [Hout Hcl]. split.
      * intros Hin. by apply Hout, (shrinks_kids _ _ Hs2).
      * by eapply cleared_shrinks.
    + apply Hxs2; [done |].
      by destruct (shrinks_fields s s1 y Hs1) as (_ & -> & _).
Qed.

(** C7: on a well-formed store without containment cycles, with fuel above
    the ranks of the selected items, [deleteSelection] returns: every
    selected item that has a parent is deleted through it, whichever other
    items are selected and in whichever order (a selected item inside a
    selected directory included), and the view model ends with the same
    [cwd], a new selection over the children that [cwd] has now, with
    nothing selected. A second call right after it returns as well, with
    any fuel, and gives the same view model; it leaves every object and
    every existing array as they were (the array that the read of
    [children] allocates is all it adds). *)
Theorem deleteSelection_twice `{Locale} (rank : loc → nat) (fuel : nat)
    (s : Store) (vm : FSViewModel.t) :
  well_formed s = true →
  ranked rank s = true →
  directoryb s (FSViewModel.cwd vm) = true →
  (∀ x, x ∈ Selection.items (FSViewModel.selection vm) →
        is_Some (objects s !! x) ∧ rank x < fuel) →
  ∃ vm' s',
    FSViewModel.deleteSelection fuel vm s = Return vm' s'
    ∧ vm' = FSViewModel.mk (FSViewModel.cwd vm)
              (Selection.new (sorted_children s' (FSViewModel.cwd vm)))
              (FSViewModel.expandedDirs vm)
    ∧ Selection.items (FSViewModel.selection vm') = []
    ∧ (∀ x p, x ∈ Selection.items (FSViewModel.selection vm) →
         parent_at s x = Some p →
         (x ∉ kids s' p)
         ∧ deleted_at s' x = (if directoryb s x then Some true else None)
         ∧ kids s' x = [])
    ∧ (∀ fuel', ∃ s'',
         FSViewModel.deleteSelection fuel' vm' s' = Return vm' s''
         ∧ objects s'' = objects s'
         ∧ (∀ a, is_Some (arrays s' !! a) → arrays s'' !! a = arrays s' !! a)
         ∧ (∀ p, kids s'' p = kids s' p)).
Proof.
  intros Hwf Hr Hdir Hitems.
  apply well_formed_WellFormed in Hwf. apply ranked_Ranked in Hr.
  apply directoryb_true in Hdir.
  destruct (run_deleteSelection_loop rank fuel _ s Hwf Hr Hitems)
    as (s1 & Hrun1 & Hwf1 & Hs1 & Hdone).
  pose proof (shrinks_is_directory _ _ _ Hs1 Hdir) as Hdir1.
  destruct (alloc_facts s1 (sorted_children s1 (FSViewModel.cwd vm)) Hwf1)
    as (Hwf2 & Hs2 & Hk2).
  set (s2 := mkStore (objects s1) _) in *.
  assert (Hsc2 : sorted_children s2 (FSViewModel.cwd vm)
                 = sorted_children s1 (FSViewModel.cwd vm)).
  { by apply sorted_children_same. }
  set (vm' := FSViewModel.mk (FSViewModel.cwd vm)
                (Selection.new (sorted_children s2 (FSViewModel.cwd vm)))
                (FSViewModel.expandedDirs vm)).
  exists vm', s2. split.
  { unfold FSViewModel.deleteSelection.
    rewrite (run_bind_Return _ _ _ _ _ Hrun1).
    rewrite (run_bind_Return _ _ _ _ _ (run_selectionOfChildren s1 _ Hwf1 Hdir1)).
    unfold vm'. rewrite Hsc2. reflexivity. }
  split; [reflexivity |]. split; [apply items_new |]. split.
  { intros x p Hx Hp. destruct (Hdone x p Hx Hp) as [Hout Hcl]. split.
    - intros Hin. by apply Hout, (shrinks_kids _ _ Hs2).
    - destruct (cleared_deleted_at s2 x) as [Hd Hk];
        [by eapply cleared_shrinks |].
      split; [| done]. rewrite Hd.
      by destruct (shrinks_fields s s2 x (shrinks_trans _ _ _ Hs1 Hs2)) as (_ & _ & ->). }
  intros fuel'.
  pose proof (shrinks_is_directory _ _ _ Hs2 Hdir1) as Hdir2.
  destruct (alloc_facts s2 (sorted_children s2 (FSViewModel.cwd vm)) Hwf2)
    as (_ & _ & Hk3).
  eexists. split.
  { unfold FSViewModel.deleteSelection.
    change (FSViewModel.selection vm')
      with (Selection.new (sorted_children s2 (FSViewModel.cwd vm))).
    rewrite items_new. simpl for_each.
    rewrite (run_bind_Return _ _ _ _ _ (run_ret () s2)).
    change (FSViewModel.cwd vm') with (FSViewModel.cwd vm).
    rewrite (run_bind_Return _ _ _ _ _ (run_selectionOfChildren s2 _ Hwf2 Hdir2)).
    reflexivity. }
  split; [reflexivity |]. split; [| exact Hk3].
  intros a [elems Ha]. simpl. apply lookup_insert_ne. intros <-.
  pose proof (fresh_array_None s2) as Hf. simpl in Hf, Ha. congruence.
Qed.

(** ** The selection scenario *)

Lemma indexOf_head {T} `{Countable T} (x : T) l : Selection.indexOf x (x :: l) = Some 0%nat.
Proof. unfold Selection.indexOf. simpl. by rewrite decide_True. Qed.

Lemma indexOf_tail {T} `{Countable T} (x y : T) l :
  y ≠ x → Selection.indexOf x (y :: l) = S <$> Selection.indexOf x l.
Proof.
  intros Hne. unfold Selection.indexOf. simpl. rewrite decide_False by done.
  by destruct (list_find (λ y0 : T, y0 = x) l) as [[i z] |].
Qed.

(** C8: over the universe [a, b, c, d, e] of five different items, a
    plain click on [c] selects exactly [c] and anchors it; a range click
    on [e] then selects [c], [d], [e] and keeps the anchor [c]; a toggle
    click on [a] then gives [a], [c], [d], [e] with the anchor [a]; a range
    click on [c] finally selects [a], [b], [c], the span between the
    anchor [a] and [c], which [items] lists in the universe's order. *)
Theorem selection_scenario {T} `{HCountable : Countable T} (a b c d e : T) :
  NoDup [a; b; c; d; e] →
  let plain := Selection.mkModifiers false false in
  let toggle := Selection.mkModifiers true false in
  let range := Selection.mkModifiers false true in
  ∃ s1 s2 s3 s4,
    Selection.fromClickEvent (Selection.new [a; b; c; d; e]) c plain = Some s1
    ∧ Selection.selected s1 = {[ c ]} ∧ Selection.anchor s1 = Some c
    ∧ Selection.fromClickEvent s1 e range = Some s2
    ∧ Selection.selected s2 = {[ c; d; e ]} ∧ Selection.anchor s2 = Some c
    ∧ Selection.fromClickEvent s2 a toggle = Some s3
    ∧ Selection.selected s3 = {[ a; c; d; e ]} ∧ Selection.anchor s3 = Some a
    ∧ Selection.fromClickEvent s3 c range = Some s4
    ∧ Selection.selected s4 = {[ a; b; c ]} ∧ Selection.anchor s4 = Some a
    ∧ Selection.items s4 = [a; b; c]
    ∧ Selection.universe s4 = [a; b; c; d; e].
Proof.
  intros Hnd plain toggle range.
  assert (Hne : a ≠ b ∧ a ≠ c ∧ a ≠ d ∧ a ≠ e ∧ b ≠ c ∧ b ≠ d ∧ b ≠ e
                ∧ c ≠ d ∧ c ≠ e ∧ d ≠ e).
  { repeat (apply NoDup_cons in Hnd as [? Hnd]). set_solver. }
  destruct Hne as (Hab & Hac & Had & Hae & Hbc & Hbd & Hbe & Hcd & Hce & Hde).
  assert (Ia : Selection.indexOf a [a; b; c; d; e] = Some 0%nat)
    by apply indexOf_head.
  assert (Ic : Selection.indexOf c [a; b; c; d; e] = Some 2%nat).
  { rewrite !indexOf_tail by done. by rewrite indexOf_head. }
  assert (Ie : Selection.indexOf e [a; b; c; d; e] = Some 4%nat).
  { rewrite !indexOf_tail by done. by rewrite indexOf_head. }
  eexists _, _, _, _.
  split; [reflexivity |]. split; [reflexivity |]. split; [reflexivity |].
  split.
  { unfold Selection.fromClickEvent, Selection.rangeClick. simpl.
    rewrite Ic, Ie. reflexivity. }
  split; [simpl; set_solver |]. split; [reflexivity |].
  split; [reflexivity |].
  split.
  { simpl. rewrite decide_False by set_solver. set_solver. }
  split; [reflexivity |].
  split.
  { unfold Selection.fromClickEvent, Selection.rangeClick. simpl.
    rewrite Ia, Ic. reflexivity. }
  split; [simpl; set_solver |]. split; [reflexivity |].
  split; [| reflexivity].
  unfold Selection.items. simpl.
  assert (Sa : a ∈ list_to_set (C := gset T) [a; b; c]) by set_solver.
  assert (Sb : b ∈ list_to_set (C := gset T) [a; b; c]) by set_solver.
  assert (Sc : c ∈ list_to_set (C := gset T) [a; b; c]) by set_solver.
  assert (Sd : d ∉ list_to_set (C := gset T) [a; b; c]) by set_solver.
  assert (Se : e ∉ list_to_set (C := gset T) [a; b; c]) by set_solver.
  simpl in Sa, Sb, Sc, Sd, Se.
  rewrite (bool_decide_eq_true_2 _ Sa), (bool_decide_eq_true_2 _ Sb),
    (bool_decide_eq_true_2 _ Sc), (bool_decide_eq_false_2 _ Sd),
    (bool_decide_eq_false_2 _ Se).
  reflexivity.
Qed.

(** ** The virtualizer scenario *)

Lemma visible_iff (itemHeight scrollOffset viewportHeight : Z) (i : nat) :
  (0 < itemHeight)%Z →
  Virtualizer.visible itemHeight scrollOffset viewportHeight i = true ↔
  (Virtualizer.firstVisible itemHeight scrollOffset ≤ Z.of_nat i
   ≤ Virtualizer.lastVisible itemHeight scrollOffset viewportHeight)%Z.
Proof.
  intros Hh. unfold Virtualizer.visible, Virtualizer.firstVisible,
    Virtualizer.lastVisible, Virtualizer.rowOffset.
  rewrite andb_true_iff, !Z.ltb_lt, Nat2Z.inj_succ.
  pose proof (Z.div_mod scrollOffset itemHeight ltac:(lia)) as E1.
  pose proof (Z.mod_pos_bound scrollOffset itemHeight Hh) as B1.
  pose proof (Z.div_mod (scrollOffset + viewportHeight - 1) itemHeight ltac:(lia)) as E2.
  pose proof (Z.mod_pos_bound (scrollOffset + viewportHeight - 1) itemHeight Hh) as B2.
  split; intros [H1 H2]; split; nia.
Qed.

(** C9: the total extent is the number of rows times the row height, for
    every row sequence and every row height, whatever is rendered; so a row
    more makes it one row height more, and no rows make it 0. For 1000 rows
    of height 24, a viewport of height 240 and the scroll offset 480, the
    extent is 24000, the visible rows are those from 20 to 29, and with an
    overscan of [k] rows a layout pass renders exactly the rows from
    [20 - k] to [29 + k] that exist, each row [i] once, with [items[i]] at
    the offset [i * 24]. *)
Theorem virtualizer_scenario {T R} (renderItem : T → Z → R)
    (items : list T) (overscan : nat) :
  (∀ itemHeight,
     Virtualizer.totalExtent items itemHeight
     = (Z.of_nat (length items) * itemHeight)%Z)
  ∧ (∀ row itemHeight,
       Virtualizer.totalExtent (items ++ [row]) itemHeight
       = (Virtualizer.totalExtent items itemHeight + itemHeight)%Z)
  ∧ (∀ itemHeight, Virtualizer.totalExtent (@nil T) itemHeight = 0%Z)
  ∧ (length items = 1000%nat →
  (∀ itemHeight, Virtualizer.totalExtent items itemHeight = (1000 * itemHeight)%Z)
  ∧ Virtualizer.totalExtent items 24 = 24000%Z
  ∧ (∀ i, Virtualizer.visible 24 480 240 i = true ↔ (20 ≤ i ≤ 29)%nat)
  ∧ Virtualizer.renderRange (length items) 24 480 240 0 = (20%nat, 10%nat)
  ∧ (∀ out, out ∈ Virtualizer.layout renderItem items 24 480 240 overscan ↔
       ∃ i row, items !! i = Some row
         ∧ (20 - overscan ≤ i ≤ 29 + overscan)%nat
         ∧ out = renderItem row (Z.of_nat i * 24)%Z)
  ∧ length (Virtualizer.layout renderItem items 24 480 240 0) = 10%nat).
Proof.
  split; [reflexivity |].
  split.
  { intros row h. unfold Virtualizer.totalExtent. rewrite length_app. simpl. lia. }
  split; [reflexivity |].
  intros Hlen.
  assert (Hrange : ∀ k, Virtualizer.renderRange (length items) 24 480 240 k
    = ((20 - k)%nat, (Nat.min 999 (29 + k) - (20 - k) + 1)%nat)).
  { intros k. unfold Virtualizer.renderRange, Virtualizer.firstVisible,
      Virtualizer.lastVisible. rewrite Hlen.
    change (480 / 24)%Z with 20%Z. change ((480 + 240 - 1) / 24)%Z with 29%Z.
    f_equal; lia. }
  split; [| split; [| split; [| split; [| split]]]].
  - intros h. unfold Virtualizer.totalExtent. rewrite Hlen. lia.
  - unfold Virtualizer.totalExtent. rewrite Hlen. lia.
  - intros i. rewrite visible_iff by lia.
    unfold Virtualizer.firstVisible, Virtualizer.lastVisible.
    change (480 / 24)%Z with 20%Z. change ((480 + 240 - 1) / 24)%Z with 29%Z. lia.
  - rewrite Hrange. reflexivity.
  - intros out. unfold Virtualizer.layout. rewrite Hrange.
    rewrite list_elem_of_omap. split.
    + intros (i & Hi & Hout). apply elem_of_seq in Hi.
      destruct (items !! i) as [row |] eqn:Hrow; [| done].
      simpl in Hout. injection Hout as <-.
      exists i, row. split; [done |]. split; [lia | reflexivity].
    + intros (i & row & Hrow & Hi & ->). exists i. split.
      * apply elem_of_seq. apply lookup_lt_Some in Hrow. lia.
      * rewrite Hrow. reflexivity.
  - unfold Virtualizer.layout. rewrite Hrange. simpl.
    assert (Hget : ∀ i, (i < 1000)%nat → is_Some (items !! i)).
    { intros i Hi. apply lookup_lt_is_Some. lia. }
    repeat match goal with
    | |- context [items !! ?i] =>
        let row := fresh "row" in let E := fresh "E" in
        destruct (Hget i) as [row E]; [lia |]; rewrite E
    end.
    reflexivity.
Qed.

(** ** The code-unit locale *)

Lemma ascii_compare_N x y :
  Ascii.compare x y = N.compare (N_of_ascii x) (N_of_ascii y).
Proof. reflexivity. Qed.

Lemma string_compare_not_Gt_trans : ∀ a b c : string,
  String.compare a b ≠ Gt → String.compare b c ≠ Gt → String.compare a c ≠ Gt.
Proof.
  induction a as [| x a IH]; intros [| y b] [| z c]; simpl; try done.
  rewrite !ascii_compare_N.
  destruct (N.compare_spec (N_of_ascii x) (N_of_ascii y)) as [Exy | Lxy | Gxy];
    destruct (N.compare_spec (N_of_ascii y) (N_of_ascii z)) as [Eyz | Lyz | Gyz];
    try done; intros Hab Hbc.
  - rewrite Exy, Eyz, N.compare_refl. by eapply IH.
  - rewrite Exy. by rewrite (proj2 (N.compare_lt_iff _ _) Lyz).
  - rewrite <- Eyz. by rewrite (proj2 (N.compare_lt_iff _ _) Lxy).
  - by rewrite (proj2 (N.compare_lt_iff _ _) (N.lt_trans _ _ _ Lxy Lyz)).
Qed.

Lemma before_codeUnitCompare a b :
  before codeUnitCompare a b ↔ String.compare a b ≠ Gt.
Proof.
  unfold before, codeUnitCompare. destruct (String.compare a b); split; try done; lia.
Qed.

Lemma codeUnitLocale_order : @LocaleOrder codeUnitLocale.
Proof.
  split; simpl.
  - intros a b. rewrite !before_codeUnitCompare, (String.compare_antisym a b).
    destruct (String.compare b a); simpl; [left | right | left]; done.
  - intros a b c. rewrite !before_codeUnitCompare. apply string_compare_not_Gt_trans.
Qed.

(** ** The example tree *)

Lemma example_program_store :
  ∃ r, example_program empty_store = Return r example_store.
Proof. eexists. vm_compute. reflexivity. Qed.

Lemma example_store_well_formed : well_formed example_store = true.
Proof. vm_compute. reflexivity. Qed.

Lemma example_store_ranked : ranked example_rank example_store = true.
Proof. vm_compute. reflexivity. Qed.

Lemma example_kids :
  kids example_store 1 = [2%positive]
  ∧ kids example_store 2 = [3%positive; 4%positive]
  ∧ kids example_store 4 = [5%positive].
Proof. repeat split; vm_compute; reflexivity. Qed.

(** Along containment the rank does not grow. *)
Lemma Ranked_rtc rank s x y :
  Ranked rank s → rtc (contains s) x y → (rank y ≤ rank x)%nat.
Proof.
  intros Hr Hpath. induction Hpath as [x | x z y Hxz _ IH]; [lia |].
  specialize (Hr _ _ Hxz). lia.
Qed.

(** ** The properties at the example tree *)

(** C1 as stated fails: after [root.delete(a)] the file ["b.txt"], a
    descendant of ["a"], has no [deleted] flag at all. *)
Lemma delete_leaves_file_without_flag :
  ∃ s', @Directory.delete codeUnitLocale 3 1 2 example_store = Return () s'
    ∧ descendant example_store 2 3
    ∧ deleted_at s' 3 = None.
Proof.
  eexists. split; [vm_compute; reflexivity |]. split.
  - apply tc_once. unfold contains.
    destruct example_kids as (_ & -> & _). by left.
  - vm_compute. reflexivity.
Qed.

Lemma delete_cascades_witness :
  ∃ s', @Directory.delete codeUnitLocale 3 1 2 example_store = Return () s'
    ∧ deleted_at s' 2 = Some true
    ∧ deleted_at s' 4 = Some true
    ∧ deleted_at s' 5 = None
    ∧ kids s' 2 = [] ∧ kids s' 4 = []
    ∧ kids s' 1 = [].
Proof.
  destruct example_kids as (K1 & K2 & K4).
  assert (D4 : descendant example_store 2 4).
  { apply tc_once. unfold contains. rewrite K2. right. left. }
  assert (D5 : descendant example_store 2 5).
  { eapply tc_r; [exact D4 |]. unfold contains. rewrite K4. left. }
  destruct (@delete_cascades codeUnitLocale example_rank 3 example_store 1 2)
    as (s' & Hrun & Hdesc & _ & _ & Hthis & _).
  - exact example_store_well_formed.
  - exact example_store_ranked.
  - vm_compute. reflexivity.
  - eexists. vm_compute. reflexivity.
  - vm_compute. lia.
  - exists s'. split; [exact Hrun |].
    destruct (Hdesc 2%positive (or_introl eq_refl)) as [Hd2 Hk2].
    destruct (Hdesc 4%positive (or_intror D4)) as [Hd4 Hk4].
    destruct (Hdesc 5%positive (or_intror D5)) as [Hd5 _].
    destruct Hthis as [Hk1 _].
    { intros Hpath.
      pose proof (Ranked_rtc example_rank _ _ _
                    (ranked_Ranked _ _ example_store_ranked) Hpath) as Hle.
      vm_compute in Hle. lia. }
    rewrite K1 in Hk1. repeat split; assumption.
Defined.

Lemma children_after_adds_witness :
  ∃ s1 r s2 result,
    add_all 1 [5%positive; 3%positive] example_store = Return () s1
    ∧ @Directory.children codeUnitLocale 1 s1 = Return r s2
    ∧ arrays s2 !! r = Some result
    ∧ result ≡ₚ [2%positive; 5%positive; 3%positive].
Proof.
  destruct (@children_after_adds codeUnitLocale codeUnitLocale_order
              example_store 1 1 "" None [2%positive] [5%positive; 3%positive])
    as (s1 & r & s2 & result & Hadd & _ & Hread & _ & _ & _ & _ & _ & Hres & Hperm & _).
  - vm_compute. reflexivity.
  - vm_compute. reflexivity.
  - intros x Hx. apply elem_of_cons in Hx as [-> | Hx];
      [eexists; vm_compute; reflexivity |].
    apply elem_of_cons in Hx as [-> | Hx];
      [eexists; vm_compute; reflexivity | inversion Hx].
  - exists s1, r, s2, result. repeat split; assumption.
Defined.

Lemma add_spec_witness :
  ∃ s', Directory.add 1 5 example_store = Return 5%positive s'
    ∧ parent_at s' 5 = Some 1%positive
    ∧ kids s' 1 = kids example_store 1 ++ [5%positive].
Proof.
  destruct (add_spec example_store 1 5 1 "" None false
              (File "c.txt" (Some 4%positive)) [2%positive])
    as (s' & Hrun & Hp & _ & _ & Hk & _).
  - vm_compute. reflexivity.
  - vm_compute. reflexivity.
  - vm_compute. reflexivity.
  - exists s'. repeat split; assumption.
Defined.

Lemma add_keeps_former_membership_witness :
  ∃ s', Directory.add 1 3 example_store = Return 3%positive s'
    ∧ parent_at s' 3 = Some 1%positive
    ∧ 3%positive ∈ kids s' 2
    ∧ 3%positive ∈ kids s' 1.
Proof.
  destruct (@add_keeps_former_membership codeUnitLocale example_store 2 1 3
              (File "b.txt" (Some 2%positive)) 1 "" None [2%positive])
    as (s' & Hrun & Hp & _ & H1 & H2 & _).
  - discriminate.
  - destruct example_kids as (_ & -> & _). left.
  - vm_compute. reflexivity.
  - reflexivity.
  - vm_compute. reflexivity.
  - vm_compute. reflexivity.
  - exists s'. repeat split; assumption.
Defined.

Lemma deleteSelection_twice_witness :
  ∃ vm' s',
    @FSViewModel.deleteSelection codeUnitLocale 3 example_view example_store
    = Return vm' s'
    ∧ Selection.items (FSViewModel.selection vm') = []
    ∧ (2%positive ∉ kids s' 1)
    ∧ deleted_at s' 4 = Some true
    ∧ ∀ fuel', ∃ s'',
        @FSViewModel.deleteSelection codeUnitLocale fuel' vm' s' = Return vm' s''
        ∧ objects s'' = objects s'.
Proof.
  destruct (@deleteSelection_twice codeUnitLocale example_rank 3
              example_store example_view)
    as (vm' & s' & Hrun & _ & Hitems & Hdone & Hagain).
  - exact example_store_well_formed.
  - exact example_store_ranked.
  - vm_compute. reflexivity.
  - intros x Hx. change (x ∈ [2%positive; 4%positive]) in Hx.
    apply elem_of_cons in Hx as [-> | Hx];
      [split; [eexists; vm_compute; reflexivity | vm_compute; lia] |].
    apply elem_of_cons in Hx as [-> | Hx];
      [split; [eexists; vm_compute; reflexivity | vm_compute; lia] | inversion Hx].
  - exists vm', s'. split; [exact Hrun |]. split; [exact Hitems |].
    destruct (Hdone 2%positive 1%positive) as [Hout _].
    { change (2%positive ∈ [2%positive; 4%positive]). left. }
    { vm_compute. reflexivity. }
    destruct (Hdone 4%positive 2%positive) as (_ & Hd4 & _).
    { change (4%positive ∈ [2%positive; 4%positive]). right. left. }
    { vm_compute. reflexivity. }
    split; [exact Hout |]. split; [exact Hd4 |].
    intros fuel'. destruct (Hagain fuel') as (s'' & Hrun' & Ho & _).
    exists s''. split; assumption.
Defined.

Lemma selection_scenario_witness :
  ∃ s1 s2 s3 s4 : Selection.t positive,
    Selection.fromClickEvent (Selection.new [1; 2; 3; 4; 5]%positive) 3%positive
      (Selection.mkModifiers false false) = Some s1
    ∧ Selection.fromClickEvent s1 5%positive (Selection.mkModifiers false true) = Some s2
    ∧ Selection.fromClickEvent s2 1%positive (Selection.mkModifiers true false) = Some s3
    ∧ Selection.fromClickEvent s3 3%positive (Selection.mkModifiers false true) = Some s4
    ∧ Selection.items s4 = [1; 2; 3]%positive.
Proof.
  destruct (selection_scenario 1%positive 2%positive 3%positive 4%positive 5%positive)
    as (s1 & s2 & s3 & s4 & H1 & _ & _ & H2 & _ & _ & H3 & _ & _ & H4 & _ & _ & Hitems & _).
  - apply (bool_decide_unpack _). vm_compute. exact I.
  - exists s1, s2, s3, s4. repeat split; assumption.
Defined.

Lemma virtualizer_scenario_witness :
  Virtualizer.totalExtent (replicate 1000 ()) 24 = 24000%Z
  ∧ length (Virtualizer.layout (λ (_ : ()) (top : Z), top) (replicate 1000 ())
                               24 480 240 0) = 10%nat.
Proof.
  destruct (virtualizer_scenario (λ (_ : ()) (top : Z), top) (replicate 1000 ()) 2)
    as (_ & _ & _ & Hscenario).
  destruct (Hscenario (length_replicate 1000 ())) as (_ & Htotal & _ & _ & _ & Hlen).
  split; assumption.
Defined.

(** * Further properties of the sources *)

(** ** [File.ext], for every name *)

Lemma afterLast_afterLast sep s t :
  JsString.afterLast sep s = Some t → JsString.afterLast sep t = None.
Proof.
  revert t. induction s as [| c rest IH]; simpl; [done |].
  intros t. destruct (JsString.afterLast sep rest) as [t' |] eqn:E.
  - intros [= <-]. by apply IH.
  - destruct (Ascii.eqb c sep); [| done]. by intros [= <-].
Qed.

(** X1: for every name, [ext] is the substring after the last ['.'] of
    the name, and the empty string when the name has no ['.'] (a name that
    starts with its only ['.'] has the rest of the name as [ext]); [ext]
    itself never contains a ['.']. *)
Theorem ext_is_after_last_dot (this : FSItem) :
  File.ext this = default EmptyString (JsString.afterLast "." (name this))
  ∧ JsString.afterLast "." (File.ext this) = None.
Proof.
  destruct (JsString.afterLast "." (name this)) as [t |] eqn:E; simpl.
  - rewrite (ext_after_last_dot _ _ E). split; [done |].
    by apply (afterLast_afterLast _ _ _ E).
  - rewrite (ext_without_dot _ E). done.
Qed.

(** ** [parents] *)

Lemma parents_loop_lineage s item ancestors :
  lineage s item ancestors →
  ∀ fuel acc, length ancestors < fuel →
  parents_loop fuel item acc s = Return (ancestors ++ acc) s.
Proof.
  induction 1 as [item it Hit Hp | item it p ancestors Hit Hp Hl IH];
    intros fuel acc Hfuel.
  - destruct fuel as [| fuel]; [simpl in Hfuel; lia |]. simpl.
    by rewrite (run_bind_Return _ _ _ _ _ (run_get_item _ _ _ Hit)), Hp.
  - rewrite length_app in Hfuel. simpl in Hfuel.
    destruct fuel as [| fuel]; [lia |]. simpl.
    rewrite (run_bind_Return _ _ _ _ _ (run_get_item _ _ _ Hit)), Hp.
    rewrite IH by lia. by rewrite <- app_assoc.
Qed.

Lemma lineage_chain s item ancestors :
  lineage s item ancestors →
  chain s item (name_at s <$> (ancestors ++ [item])).
Proof.
  induction 1 as [item it Hit Hp | item it p ancestors Hit Hp Hl IH].
  - simpl. unfold name_at. rewrite Hit. by apply chain_root.
  - rewrite fmap_app. simpl. unfold name_at at 2. rewrite Hit.
    by eapply chain_step.
Qed.

(** X2: when the parent chain of [item] ends at a root, [parents] returns
    the ancestors of [item] from the root down to its parent (none for a
    root) within one iteration more than there are ancestors, and leaves
    the store as it was; the path of [item] is the names of these
    ancestors and of [item] itself, joined by ['/']. *)
Theorem parents_lineage (s : Store) (item : loc) (ancestors : list loc) (fuel : nat) :
  lineage s item ancestors →
  length ancestors < fuel →
  parents fuel item s = Return ancestors s
  ∧ filepath fuel item s
    = Return (JsString.join "/" (name_at s <$> (ancestors ++ [item]))) s.
Proof.
  intros Hl Hfuel. split.
  - unfold parents. rewrite (parents_loop_lineage _ _ _ Hl) by done.
    by rewrite app_nil_r.
  - assert (Hlen : (length (name_at s <$> (ancestors ++ [item])) ≤ fuel)%nat).
    { rewrite length_fmap, length_app. simpl. lia. }
    unfold filepath.
    rewrite (run_bind_Return _ _ _ _ _
               (filepath_loop_chain _ _ _ (lineage_chain _ _ _ Hl) fuel [] Hlen)).
    by rewrite app_nil_r.
Qed.

(** ** Parent chains that do not end *)

Lemma filepath_loop_closed s inside :
  parent_closed s inside →
  ∀ fuel item acc, inside item → filepath_loop fuel item acc s = OutOfFuel.
Proof.
  intros Hclosed. induction fuel as [| fuel IH]; intros item acc Hin; [done |].
  destruct (Hclosed item Hin) as (it & p & Hit & Hp & Hin'). simpl.
  rewrite (run_bind_Return _ _ _ _ _ (run_get_item _ _ _ Hit)), Hp.
  by apply IH.
Qed.

Lemma parents_loop_closed s inside :
  parent_closed s inside →
  ∀ fuel item acc, inside item → parents_loop fuel item acc s = OutOfFuel.
Proof.
  intros Hclosed. induction fuel as [| fuel IH]; intros item acc Hin; [done |].
  destruct (Hclosed item Hin) as (it & p & Hit & Hp & Hin'). simpl.
  rewrite (run_bind_Return _ _ _ _ _ (run_get_item _ _ _ Hit)), Hp.
  by apply IH.
Qed.

(** A directory whose only child is itself is never deleted: the cascade
    enters it again and again. *)
Lemma delete_self_child `{Locale} d : ∀ fuel s this a n p dd,
  objects s !! d = Some (Directory a n p dd) →
  arrays s !! a = Some [d] →
  Directory.delete fuel this d s = OutOfFuel.
Proof.
  induction fuel as [| fuel IH]; intros s this a n p dd Hd Ha; [done |].
  rewrite delete_unfold.
  rewrite (run_bind_Return _ _ _ _ _ (run_get_item _ _ _ Hd)). simpl type.
  cbv iota.
  assert (Hk : sorted_children s d = [d]).
  { unfold sorted_children. by rewrite (kids_directory _ _ _ _ _ _ Hd), Ha. }
  set (s1 := mkStore (objects s)
               (<[fresh (dom (arrays s)) := sorted_children s d]> (arrays s))).
  assert (Ha1 : arrays s1 !! a = Some [d]).
  { simpl. rewrite lookup_insert_ne; [done |]. intros E.
    pose proof (fresh_array_None s) as Hf. rewrite E in Hf. congruence. }
  assert (Hblock :
    (snapshot ← Directory.children d;
     elems ← read_array snapshot;
     for_each elems (λ child, Directory.delete fuel d child);;
     set_deleted d true) s = OutOfFuel).
  { rewrite (run_bind_Return _ _ _ _ _ (run_children s d a n p dd _ Hd Ha)).
    rewrite (run_bind_Return _ _ _ _ _
               (run_read_array s1 _ (sorted_children s d) (lookup_insert_eq _ _ _))).
    rewrite Hk. simpl for_each. rewrite !run_bind.
    by rewrite (IH s1 d a n p dd Hd Ha1). }
  by rewrite run_bind, Hblock.
Qed.

(** X3: [add] does not refuse the receiver itself as the item. After
    [d.add(d)] on a directory that is not tombstoned, [d] is its own
    parent, and neither [filepath] nor [parents] of [d] returns, however
    many iterations they are given; when [d] had no children, [d] is then
    its own only child and no [delete] of [d] returns either. *)
Theorem add_self_never_ends `{Locale} (s : Store) (d : loc) a n p elems :
  objects s !! d = Some (Directory a n p false) →
  arrays s !! a = Some elems →
  ∃ s', Directory.add d d s = Return d s'
    ∧ parent_at s' d = Some d
    ∧ d ∈ kids s' d
    ∧ (∀ fuel, filepath fuel d s' = OutOfFuel ∧ parents fuel d s' = OutOfFuel)
    ∧ (elems = [] → ∀ fuel this, Directory.delete fuel this d s' = OutOfFuel).
Proof.
  intros Hd Ha.
  set (s' := mkStore (<[d := with_parent (Directory a n p false) (Some d)]> (objects s))
                     (<[a := elems ++ [d]]> (arrays s))).
  assert (Hd' : objects s' !! d = Some (Directory a n (Some d) false)).
  { simpl. by rewrite lookup_insert_eq. }
  assert (Ha' : arrays s' !! a = Some (elems ++ [d])).
  { simpl. by rewrite lookup_insert_eq. }
  assert (Hclosed : parent_closed s' (λ l, l = d)).
  { intros l ->. by exists (Directory a n (Some d) false), d. }
  exists s'. split; [by apply (run_add s d d _ a n p elems) |].
  split; [unfold parent_at; by rewrite Hd' |].
  split.
  { rewrite (kids_directory _ _ _ _ _ _ Hd'), Ha'. simpl.
    apply elem_of_app. right. by left. }
  split.
  - intros fuel. split.
    + unfold filepath. by rewrite run_bind, (filepath_loop_closed _ _ Hclosed).
    + unfold parents. by apply (parents_loop_closed _ _ Hclosed).
  - intros -> fuel this. by apply (delete_self_child d fuel s' this a n (Some d) false).
Qed.

(** ** The array that [children] returns *)

(** X4: the array that a read of [children] returns is a copy: it is not
    the directory's own array, which the read leaves in the order of
    insertion, and the read changes no object. An [add] after the read
    does not reach the array handed out, which keeps the elements it had;
    the read after the [add] returns another array, again not the
    directory's own, that holds the added item with the former ones in
    the order of their names, and it leaves the first array as it was. *)
Theorem children_is_a_copy `{Locale} `{!LocaleOrder}
    (s : Store) (d : loc) a n p elems (x : loc) item :
  objects s !! d = Some (Directory a n p false) →
  arrays s !! a = Some elems →
  objects s !! x = Some item →
  ∃ r1 s1 s2 r2 s3 result,
    Directory.children d s = Return r1 s1
    ∧ r1 ≠ a
    ∧ arrays s1 !! r1 = Some (sorted_children s d)
    ∧ arrays s1 !! a = Some elems
    ∧ objects s1 = objects s
    ∧ Directory.add d x s1 = Return x s2
    ∧ arrays s2 !! r1 = Some (sorted_children s d)
    ∧ arrays s2 !! a = Some (elems ++ [x])
    ∧ Directory.children d s2 = Return r2 s3
    ∧ r2 ≠ r1 ∧ r2 ≠ a
    ∧ arrays s3 !! r1 = Some (sorted_children s d)
    ∧ arrays s3 !! a = Some (elems ++ [x])
    ∧ arrays s3 !! r2 = Some result
    ∧ result ≡ₚ elems ++ [x]
    ∧ x ∈ result
    ∧ StronglySorted
        (λ y z, before localeCompare (name_at s3 y) (name_at s3 z)) result.
Proof.
  intros Hd Ha Hx.
  set (r1 := fresh (dom (arrays s))).
  set (s1 := mkStore (objects s) (<[r1 := sorted_children s d]> (arrays s))).
  assert (Hr1 : arrays s !! r1 = None) by apply fresh_array_None.
  assert (Hr1a : r1 ≠ a) by (intros E; rewrite E in Hr1; congruence).
  assert (Ha1 : arrays s1 !! a = Some elems).
  { simpl. by rewrite lookup_insert_ne. }
  set (s2 := mkStore (<[x := with_parent item (Some d)]> (objects s1))
                     (<[a := elems ++ [x]]> (arrays s1))).
  destruct (lookup_after_set_parent s1 d x item (Some d) a n p false Hd Hx)
    as [q Hq].
  assert (Hd2 : objects s2 !! d = Some (Directory a n q false)) by exact Hq.
  assert (Ha2 : arrays s2 !! a = Some (elems ++ [x])).
  { simpl. by rewrite lookup_insert_eq. }
  assert (H21 : arrays s2 !! r1 = Some (sorted_children s d)).
  { simpl. rewrite lookup_insert_ne by done. by rewrite lookup_insert_eq. }
  set (r2 := fresh (dom (arrays s2))).
  set (s3 := mkStore (objects s2) (<[r2 := sorted_children s2 d]> (arrays s2))).
  assert (Hr2 : arrays s2 !! r2 = None) by apply fresh_array_None.
  assert (Hr2a : r2 ≠ a) by (intros E; rewrite E in Hr2; congruence).
  assert (Hr21 : r2 ≠ r1) by (intros E; rewrite E in Hr2; congruence).
  assert (Hk2 : kids s2 d = elems ++ [x]).
  { by rewrite (kids_directory _ _ _ _ _ _ Hd2), Ha2. }
  exists r1, s1, s2, r2, s3, (sorted_children s2 d).
  split; [by apply (run_children s d a n p false elems) |].
  split; [done |].
  split; [simpl; by rewrite lookup_insert_eq |].
  split; [done |].
  split; [reflexivity |].
  split; [by apply (run_add s1 d x item a n p elems) |].
  split; [done |].
  split; [done |].
  split; [by apply (run_children s2 d a n q false (elems ++ [x])) |].
  split; [done |]. split; [done |].
  split; [simpl; rewrite lookup_insert_ne by done; exact H21 |].
  split; [simpl; rewrite lookup_insert_ne by done; exact Ha2 |].
  split; [simpl; by rewrite lookup_insert_eq |].
  split; [by rewrite sorted_children_Permutation, Hk2 |].
  split.
  { rewrite elem_of_sorted_children, Hk2. apply elem_of_app. right. by left. }
  change (StronglySorted (before (by_name s2)) (sorted_children s2 d)).
  apply sorted_children_StronglySorted.
Qed.

(** ** Paths after a deletion *)

Lemma filepath_loop_shrinks s s' :
  shrinks s s' →
  ∀ fuel item acc v s0,
  filepath_loop fuel item acc s = Return v s0 →
  filepath_loop fuel item acc s' = Return v s'.
Proof.
  intros Hs. induction fuel as [| fuel IH]; intros item acc v s0 Hrun; [done |].
  simpl in Hrun. rewrite run_bind in Hrun. unfold get_item in Hrun.
  destruct (objects s !! item) as [it |] eqn:Hit; [| done].
  destruct (shrinks_lookup _ _ _ _ Hs Hit) as (it' & Hit' & Hsh).
  destruct (same_shape_fields _ _ Hsh) as (Hn & Hp & _).
  simpl. rewrite (run_bind_Return _ _ _ _ _ (run_get_item _ _ _ Hit')).
  rewrite Hn, Hp. destruct (parent it) as [p |].
  - by eapply IH.
  - by injection Hrun as -> _.
Qed.

Lemma parents_loop_shrinks s s' :
  shrinks s s' →
  ∀ fuel item acc v s0,
  parents_loop fuel item acc s = Return v s0 →
  parents_loop fuel item acc s' = Return v s'.
Proof.
  intros Hs. induction fuel as [| fuel IH]; intros item acc v s0 Hrun; [done |].
  simpl in Hrun. rewrite run_bind in Hrun. unfold get_item in Hrun.
  destruct (objects s !! item) as [it |] eqn:Hit; [| done].
  destruct (shrinks_lookup _ _ _ _ Hs Hit) as (it' & Hit' & Hsh).
  destruct (same_shape_fields _ _ Hsh) as (Hn & Hp & _).
  simpl. rewrite (run_bind_Return _ _ _ _ _ (run_get_item _ _ _ Hit')).
  rewrite Hp. destruct (parent it) as [p |].
  - by eapply IH.
  - by injection Hrun as -> _.
Qed.

(** X5: [delete] does not reset the parent of what it deletes. On a
    well-formed store without containment cycles, every item, deleted or
    not, has after [this.delete(item)] the path and the ancestors it had
    before. *)
Theorem delete_keeps_paths `{Locale} (rank : loc → nat) (fuel : nat)
    (s : Store) (this item : loc) :
  well_formed s = true →
  ranked rank s = true →
  directoryb s this = true →
  is_Some (objects s !! item) →
  rank item < fuel →
  ∃ s', Directory.delete fuel this item s = Return () s'
    ∧ (∀ x n v, filepath n x s = Return v s → filepath n x s' = Return v s')
    ∧ (∀ x n v, parents n x s = Return v s → parents n x s' = Return v s')
    ∧ parent_at s' item = parent_at s item.
Proof.
  intros Hwf Hr Hdir Hit Hrank.
  destruct (run_delete rank fuel s this item) as (s' & Hrun & Hpost);
    [by apply well_formed_WellFormed | by apply ranked_Ranked
    | by apply directoryb_true | done | done |].
  pose proof (dp_shrinks _ _ _ _ Hpost) as Hs.
  exists s'. split; [done |]. split; [| split].
  - intros x n v Hx. unfold filepath in *. rewrite run_bind in Hx.
    destruct (filepath_loop n x [] s) as [parts s0 | | |] eqn:E; try done.
    rewrite (run_bind_Return _ _ _ _ _ (filepath_loop_shrinks _ _ Hs _ _ _ _ _ E)).
    by injection Hx as -> _.
  - intros x n v Hx. unfold parents in *.
    by eapply parents_loop_shrinks.
  - by destruct (shrinks_fields s s' item Hs) as (_ & -> & _).
Qed.

(** ** [add] after a deletion *)

(** X6: once [this.delete(item)] has returned, [add] on [item], when it
    is a directory, and on every directory that was a descendant of
    [item], throws, whatever is added, and leaves the store as it is. *)
Theorem add_after_delete_throws `{Locale} (rank : loc → nat) (fuel : nat)
    (s : Store) (this item : loc) :
  well_formed s = true →
  ranked rank s = true →
  directoryb s this = true →
  is_Some (objects s !! item) →
  rank item < fuel →
  ∃ s', Directory.delete fuel this item s = Return () s'
    ∧ ∀ x y, x = item ∨ descendant s item x → directoryb s x = true →
        Directory.add x y s'
        = Throw (mkError "cannot add item to a deleted directory") s'.
Proof.
  intros Hwf Hr Hdir Hit Hrank.
  destruct (run_delete rank fuel s this item) as (s' & Hrun & Hpost);
    [by apply well_formed_WellFormed | by apply ranked_Ranked
    | by apply directoryb_true | done | done |].
  exists s'. split; [done |]. intros x y Hx Hdx.
  assert (Hcl : cleared s' x).
  { apply (dp_cleared _ _ _ _ Hpost), rtc_tc.
    destruct Hx as [-> | Hx]; [by left | by right]. }
  destruct (shrinks_fields s s' x (dp_shrinks _ _ _ _ Hpost)) as (_ & _ & Hd').
  rewrite Hdx in Hd'. unfold cleared in Hcl. unfold directoryb in Hd'.
  destruct (objects s' !! x) as [[n p | a n p d] |] eqn:E; try done.
  destruct Hcl as [-> _]. by apply (run_add_deleted s' x y a n p).
Qed.

(** ** Deleting again *)

(** A [delete] of an item that is cleared and is not among the receiver's
    children returns at once and changes no directory's children and no
    flag. *)
Lemma run_delete_cleared `{Locale} (fuel : nat) (s : Store) (this item : loc) :
  WellFormed s → is_directory s this → cleared s item →
  item ∉ kids s this →
  ∃ s', Directory.delete (S fuel) this item s = Return () s'
    ∧ WellFormed s' ∧ shrinks s s'
    ∧ (∀ p, kids s' p = kids s p)
    ∧ (∀ l, deleted_at s' l = deleted_at s l).
Proof.
  intros Hwf (at_ & nt & pt & dt & Ht) Hcl Hout.
  assert (Hfilter : List.filter (is_not item) (kids s this) = kids s this).
  { apply forallb_filter_id, forallb_forall. intros c Hc.
    apply list_elem_of_In in Hc. unfold is_not.
    destruct (Pos.eqb_spec c item) as [-> | _]; [done | reflexivity]. }
  rewrite delete_unfold. unfold cleared in Hcl.
  destruct (objects s !! item) as [[n p | a n p d] |] eqn:Hit; [| | done].
  - (* a file *)
    rewrite (run_bind_Return _ _ _ _ _ (run_get_item _ _ _ Hit)). simpl type.
    cbv iota.
    destruct (wf_array _ Hwf _ _ _ _ _ Ht) as [elems Ha].
    rewrite (run_bind_Return _ _ _ _ _ (run_ret () s)).
    rewrite (run_remove s this item _ _ _ _ _ Ht Ha).
    destruct (remove_facts s this item _ _ _ _ _ Hwf Ht Ha)
      as (Hwf' & Hs' & Hthis & Hother & Hdel).
    eexists. split; [reflexivity |]. split; [done |]. split; [done |].
    split; [| done]. intros q. destruct (decide (q = this)) as [-> | Hq].
    + by rewrite Hthis, Hfilter.
    + by apply Hother.
  - (* a cleared directory *)
    destruct Hcl as [-> Hk].
    rewrite (run_bind_Return _ _ _ _ _ (run_get_item _ _ _ Hit)). simpl type.
    cbv iota.
    destruct (wf_array _ Hwf _ _ _ _ _ Hit) as [elems Ha].
    assert (Hsc : sorted_children s item = []).
    { unfold sorted_children. by rewrite Hk. }
    destruct (alloc_facts s (sorted_children s item) Hwf) as (Hwf1 & Hs1 & Hk1).
    set (s1 := mkStore (objects s)
                 (<[fresh (dom (arrays s)) := sorted_children s item]> (arrays s)))
      in *.
    assert (Hit1 : objects s1 !! item = Some (Directory a n p true)) by done.
    destruct (tombstone_facts s1 item a n p true Hwf1 Hit1)
      as (Hwf2 & Hs2 & Hk2 & _ & Hdel2).
    set (s2 := mkStore (<[item := Directory a n p true]> (objects s1)) (arrays s1))
      in *.
    assert (Hblock :
      (snapshot ← Directory.children item;
       elems0 ← read_array snapshot;
       for_each elems0 (λ child, Directory.delete fuel item child);;
       set_deleted item true) s = Return () s2).
    { rewrite (run_bind_Return _ _ _ _ _ (run_children s item a n p true elems Hit Ha)).
      rewrite (run_bind_Return _ _ _ _ _
                 (run_read_array s1 _ (sorted_children s item) (lookup_insert_eq _ _ _))).
      rewrite Hsc. simpl for_each.
      rewrite (run_bind_Return _ _ _ _ _ (run_ret () s1)).
      by apply run_set_deleted with true. }
    rewrite (run_bind_Return _ _ _ _ _ Hblock).
    assert (Hd2 : ∀ l, deleted_at s2 l = deleted_at s l).
    { intros l. destruct (decide (l = item)) as [-> | Hl].
      - unfold deleted_at. simpl. by rewrite lookup_insert_eq, Hit.
      - by rewrite Hdel2. }
    destruct (shrinks_lookup s s2 this _ (shrinks_trans _ _ _ Hs1 Hs2) Ht)
      as ([| a3 n3 p3 d3] & Ht2 & Hsh); [done |].
    destruct (wf_array _ Hwf2 _ _ _ _ _ Ht2) as [elems2 Ha2].
    rewrite (run_remove s2 this item _ _ _ _ _ Ht2 Ha2).
    destruct (remove_facts s2 this item _ _ _ _ _ Hwf2 Ht2 Ha2)
      as (Hwf' & Hs' & Hthis & Hother & Hdel).
    eexists. split; [reflexivity |]. split; [done |].
    split; [by eapply shrinks_trans; [eapply shrinks_trans |] |].
    split.
    + intros q. destruct (decide (q = this)) as [-> | Hq].
      * by rewrite Hthis, Hk2, Hk1, Hfilter.
      * by rewrite Hother, Hk2, Hk1.
    + intros l. by rewrite Hdel, Hd2.
Qed.

(** X7: deleting what is deleted already is harmless. After
    [this.delete(item)] has returned, the same call again returns, with
    any fuel of at least one, and changes no directory's children, no
    tombstone flag, no name and no parent. *)
Theorem delete_again_is_harmless `{Locale} (rank : loc → nat) (fuel : nat)
    (s : Store) (this item : loc) :
  well_formed s = true →
  ranked rank s = true →
  directoryb s this = true →
  is_Some (objects s !! item) →
  rank item < fuel →
  ∃ s', Directory.delete fuel this item s = Return () s'
    ∧ ∀ fuel', ∃ s'',
        Directory.delete (S fuel') this item s' = Return () s''
        ∧ (∀ p, kids s'' p = kids s' p)
        ∧ (∀ l, deleted_at s'' l = deleted_at s' l
                ∧ name_at s'' l = name_at s' l
                ∧ parent_at s'' l = parent_at s' l).
Proof.
  intros Hwf Hr Hdir Hit Hrank.
  destruct (run_delete rank fuel s this item) as (s' & Hrun & Hpost);
    [by apply well_formed_WellFormed | by apply ranked_Ranked
    | by apply directoryb_true | done | done |].
  exists s'. split; [done |]. intros fuel'.
  destruct (run_delete_cleared fuel' s' this item)
    as (s'' & Hrun' & _ & Hs' & Hk & Hd).
  - apply (dp_wf _ _ _ _ Hpost).
  - eapply shrinks_is_directory; [apply (dp_shrinks _ _ _ _ Hpost) |].
    by apply directoryb_true.
  - apply (dp_cleared _ _ _ _ Hpost), rtc_refl.
  - apply (dp_removed _ _ _ _ Hpost).
  - exists s''. split; [done |]. split; [done |]. intros l.
    destruct (shrinks_fields s' s'' l Hs') as (Hn & Hp & _). by rewrite Hd.
Qed.

(** ** [FSViewModel.isNameAvailable] *)

(** X8: [isNameAvailable(name)] returns [true] exactly when no child of
    [cwd] has that name, compared as a whole and by code unit; it changes
    no object and not the children of [cwd] (the array of the [children]
    read is all it allocates). *)
Theorem isNameAvailable_spec `{Locale} (this : FSViewModel.t) (nm : string)
    (s : Store) a n p d elems :
  objects s !! FSViewModel.cwd this = Some (Directory a n p d) →
  arrays s !! a = Some elems →
  ∃ available s',
    FSViewModel.isNameAvailable this nm s = Return available s'
    ∧ (available = true ↔ ∀ c, c ∈ elems → name_at s c ≠ nm)
    ∧ objects s' = objects s
    ∧ arrays s' !! a = Some elems.
Proof.
  intros Hd Ha.
  set (s1 := mkStore (objects s)
               (<[fresh (dom (arrays s)) := sorted_children s (FSViewModel.cwd this)]>
                  (arrays s))).
  exists (negb (existsb (λ item, String.eqb (name_at s1 item) nm)
                        (sorted_children s (FSViewModel.cwd this)))), s1.
  split.
  { unfold FSViewModel.isNameAvailable.
    rewrite (run_bind_Return _ _ _ _ _ (run_children s _ a n p d elems Hd Ha)).
    by rewrite (run_bind_Return _ _ _ _ _
                  (run_read_array s1 _ _ (lookup_insert_eq _ _ _))). }
  split; [| split; [done |]].
  - rewrite negb_true_iff, <- not_true_iff_false, existsb_exists. split.
    + intros Hno c Hc Hname. apply Hno. exists c. split.
      * apply list_elem_of_In, elem_of_sorted_children.
        by rewrite (kids_directory _ _ _ _ _ _ Hd), Ha.
      * by apply String.eqb_eq.
    + intros Hall (c & Hc & Hname). apply String.eqb_eq in Hname.
      apply (Hall c); [| done].
      apply list_elem_of_In, elem_of_sorted_children in Hc.
      by rewrite (kids_directory _ _ _ _ _ _ Hd), Ha in Hc.
  - simpl. rewrite lookup_insert_ne; [done |]. intros E.
    pose proof (fresh_array_None s) as Hf. rewrite E in Hf. congruence.
Qed.

(** ** [FSViewModel.toggleExpanded] and [expanded] *)

(** X9: toggling a directory twice without an explicit value gives the
    view model back; after [toggleExpanded(dir, b)] the directory [dir]
    reads as expanded exactly when [b] is [true], and every other item
    reads as it did; a [File] never reads as expanded. *)
Theorem toggleExpanded_spec (this : FSViewModel.t) (dir : loc) :
  FSViewModel.toggleExpanded (FSViewModel.toggleExpanded this dir None) dir None
  = this
  ∧ (∀ b s a n p d,
       objects s !! dir = Some (Directory a n p d) →
       FSViewModel.expanded (FSViewModel.toggleExpanded this dir (Some b)) dir s
       = Return b s)
  ∧ (∀ b s x, x ≠ dir →
       FSViewModel.expanded (FSViewModel.toggleExpanded this dir (Some b)) x s
       = FSViewModel.expanded this x s)
  ∧ (∀ s x n p,
       objects s !! x = Some (File n p) →
       FSViewModel.expanded this x s = Return false s).
Proof.
  destruct this as [cwd sel dirs]. split; [| split; [| split]].
  - unfold FSViewModel.toggleExpanded. simpl.
    destruct (decide (dir ∈ dirs)) as [Hin | Hout].
    + rewrite (bool_decide_eq_true_2 _ Hin). simpl.
      rewrite bool_decide_eq_false_2 by set_solver. simpl.
      f_equal. apply set_eq. intros x. rewrite elem_of_union, elem_of_difference,
        elem_of_singleton. destruct (decide (x = dir)) as [-> | Hx]; tauto.
    + rewrite (bool_decide_eq_false_2 _ Hout). simpl.
      rewrite bool_decide_eq_true_2 by set_solver. simpl.
      f_equal. apply set_eq. intros x. rewrite elem_of_difference, elem_of_union,
        elem_of_singleton. destruct (decide (x = dir)) as [-> | Hx]; tauto.
  - intros b s a n p d Hd. unfold FSViewModel.expanded.
    rewrite (run_bind_Return _ _ _ _ _ (run_get_item _ _ _ Hd)). simpl type.
    cbv iota. rewrite run_ret. f_equal.
    destruct b; simpl.
    + apply bool_decide_eq_true_2. set_solver.
    + apply bool_decide_eq_false_2. set_solver.
  - intros b s x Hx. unfold FSViewModel.expanded. rewrite !run_bind.
    destruct (get_item x s) as [it s0 | | |]; try done.
    destruct (type it); [done |]. rewrite !run_ret. f_equal.
    apply bool_decide_ext. destruct b; simpl; set_solver.
  - intros s x n p Hx. unfold FSViewModel.expanded.
    by rewrite (run_bind_Return _ _ _ _ _ (run_get_item _ _ _ Hx)).
Qed.

(** ** The ids of [WindowManager] *)

Lemma createWindows_from {E} (elements : list (option E)) :
  ∀ wm : WindowManager.t E,
  (WindowManager.lastId wm + Z.of_nat (length elements) ≤ 2 ^ 53)%Z →
  let wm' := WindowManager.createWindows wm elements in
  WindowManager.lastId wm'
  = (WindowManager.lastId wm + Z.of_nat (length elements))%Z
  ∧ ∃ added,
      WindowManager.windows wm' = WindowManager.windows wm ++ added
      ∧ WindowManager.id <$> added
        = (λ i, (WindowManager.lastId wm + Z.of_nat i)%Z) <$> seq 0 (length elements)
      ∧ WindowManager.element <$> added = elements.
Proof.
  induction elements as [| e elements IH]; intros wm Hbound.
  - simpl. split; [lia |]. exists []. by rewrite app_nil_r.
  - simpl length in *.
    change (WindowManager.createWindows wm (e :: elements))
      with (WindowManager.createWindows (WindowManager.createWindow wm e).2 elements).
    set (wm1 := (WindowManager.createWindow wm e).2).
    assert (Hlast : WindowManager.lastId wm1 = (WindowManager.lastId wm + 1)%Z).
    { simpl. unfold WindowManager.increment.
      destruct (Z.ltb_spec (WindowManager.lastId wm) (2 ^ 53)); lia. }
    destruct (IH wm1) as (Hl & added & Hw & Hids & Hels); [lia |].
    cbv zeta. split; [lia |].
    exists (WindowManager.mkWindow (WindowManager.lastId wm) "New Window" e None None
            :: added).
    split; [rewrite Hw; simpl; by rewrite <- app_assoc |].
    split; [| by rewrite fmap_cons, Hels].
    rewrite fmap_cons, Hids, Hlast. cbn [seq]. rewrite fmap_cons. f_equal.
    { simpl. lia. }
    rewrite <- fmap_S_seq, <- list_fmap_compose.
    apply list_fmap_ext. intros i x _. simpl. lia.
Qed.

(** X10: a new window manager that creates fewer than 2^53 windows gives
    them the ids 1, 2, 3, ... in the order of creation, so no two windows
    share an id; each window holds the element it was created with, and
    [lastId] ends one above the number of windows. *)
Theorem createWindows_ids {E} (elements : list (option E)) :
  (Z.of_nat (length elements) < 2 ^ 53)%Z →
  let wm := WindowManager.createWindows WindowManager.new elements in
  WindowManager.id <$> WindowManager.windows wm
  = Z.of_nat <$> seq 1 (length elements)
  ∧ NoDup (WindowManager.id <$> WindowManager.windows wm)
  ∧ WindowManager.element <$> WindowManager.windows wm = elements
  ∧ WindowManager.lastId wm = (Z.of_nat (length elements) + 1)%Z.
Proof.
  intros Hbound wm.
  destruct (createWindows_from elements WindowManager.new) as (Hl & added & Hw & Hids & Hels).
  { simpl. lia. }
  fold wm in Hl, Hw. simpl in Hl, Hw, Hids.
  assert (Hseq : WindowManager.id <$> WindowManager.windows wm
                 = Z.of_nat <$> seq 1 (length elements)).
  { rewrite Hw, Hids, <- fmap_S_seq, <- list_fmap_compose.
    apply list_fmap_ext. intros i x _. simpl. lia. }
  split; [exact Hseq |]. split; [| split; [by rewrite Hw | lia]].
  rewrite Hseq. apply NoDup_fmap_2; [| apply NoDup_seq].
  intros x y. lia.
Qed.

(** ** The rows of the directory view *)

Lemma rows_loop_concat {A} (columns : nat) (children : list A) :
  ∀ rows row,
  concat (DirectoryView.rows_loop columns children rows row)
  = concat rows ++ row ++ children.
Proof.
  induction children as [| x children IH]; intros rows row; simpl.
  - destruct row; simpl; [by rewrite app_nil_r |].
    by rewrite concat_app, app_nil_r; simpl; rewrite app_nil_r.
  - destruct (length (row ++ [x]) =? columns)%nat.
    + rewrite IH, concat_app. simpl. by rewrite app_nil_r, <- !app_assoc.
    + rewrite IH. by rewrite <- app_assoc.
Qed.

Lemma rows_loop_shape {A} (columns : nat) (children : list A) :
  (0 < columns)%nat →
  ∀ rows row,
  (length row < columns)%nat →
  ∃ full last,
    DirectoryView.rows_loop columns children rows row = rows ++ full ++ last
    ∧ Forall (λ r, length r = columns) full
    ∧ (length last ≤ 1)%nat
    ∧ Forall (λ r, (0 < length r < columns)%nat) last
    ∧ (length full * columns + length (concat last)
       = length row + length children)%nat.
Proof.
  intros Hc. induction children as [| x children IH]; intros rows row Hrow; simpl.
  - destruct row as [| y row]; simpl.
    + exists [], []. rewrite app_nil_r.
      split; [done |]. split; [constructor |]. split; [simpl; lia |].
      split; [constructor | done].
    + exists [], [y :: row].
      split; [done |]. split; [constructor |]. split; [simpl; lia |].
      split; [constructor; [simpl in *; lia | constructor] |].
      simpl. rewrite app_nil_r. lia.
  - destruct (Nat.eqb_spec (length (row ++ [x])) columns) as [Heq | Hne].
    + destruct (IH (rows ++ [row ++ [x]]) []) as (full & last & -> & Hfull & Hlen & Hlast & Hcount);
        [simpl; lia |].
      exists ((row ++ [x]) :: full), last.
      split; [by rewrite <- app_assoc |].
      split; [by constructor |]. split; [done |]. split; [done |].
      rewrite length_app in Heq. simpl in *. lia.
    + rewrite length_app in Hne. simpl in Hne.
      destruct (IH rows (row ++ [x])) as (full & last & -> & Hfull & Hlen & Hlast & Hcount);
        [rewrite length_app; simpl; lia |].
      exists full, last.
      split; [done |]. split; [done |]. split; [done |]. split; [done |].
      rewrite length_app in Hcount. simpl in *. lia.
Qed.

(** X11: the rows that the directory view hands to the virtualizer hold
    the children in order, nothing lost and nothing repeated, and no row
    is empty (so [row[0]] exists); with a positive number of columns every
    row but the last has exactly that many items, the last has at most
    that many, and there are as many rows as the children need. *)
Theorem rows_spec {A} (columns : nat) (children : list A) :
  concat (DirectoryView.rows columns children) = children
  ∧ Forall (λ r, r ≠ []) (DirectoryView.rows columns children)
  ∧ ((0 < columns)%nat →
     (∀ i r, DirectoryView.rows columns children !! i = Some r →
             (0 < length r ≤ columns)%nat
             ∧ (S i < length (DirectoryView.rows columns children) →
                length r = columns))
     ∧ length (DirectoryView.rows columns children)
       = ((length children + columns - 1) / columns)%nat).
Proof.
  assert (Hconcat : concat (DirectoryView.rows columns children) = children).
  { unfold DirectoryView.rows. by rewrite rows_loop_concat. }
  assert (Hne : ∀ (l : list A) rows row,
    Forall (λ r, r ≠ []) rows →
    Forall (λ r, r ≠ []) (DirectoryView.rows_loop columns l rows row)).
  { induction l as [| x l IH]; intros rows row Hrows; simpl.
    - destruct row; simpl; [done |]. apply Forall_app. split; [done |].
      by repeat constructor.
    - destruct (length (row ++ [x]) =? columns)%nat; apply IH; [| done].
      apply Forall_app. split; [done |]. repeat constructor.
      by destruct row. }
  split; [done |]. split; [by apply Hne |].
  intros Hc.
  destruct (rows_loop_shape columns children Hc [] []) as (full & last & Hrows & Hfull & Hlen & Hlast & Hcount);
    [simpl; lia |].
  fold (DirectoryView.rows columns children) in Hrows. simpl in Hrows, Hcount.
  rewrite Hrows. split.
  - intros i r Hr. apply lookup_app_Some in Hr as [Hr | [Hi Hr]].
    + rewrite Forall_lookup in Hfull. rewrite (Hfull _ _ Hr). split; [lia | done].
    + rewrite Forall_lookup in Hlast. specialize (Hlast _ _ Hr).
      split; [lia |]. rewrite length_app. apply lookup_lt_Some in Hr. lia.
  - rewrite length_app.
    destruct last as [| r [| r' last]]; simpl in *; [| | lia].
    + rewrite <- Hcount, Nat.add_0_r, Nat.add_0_r.
      replace (length full * columns + columns - 1)%nat
        with ((columns - 1) + length full * columns)%nat by lia.
      rewrite Nat.div_add by lia. rewrite Nat.div_small by lia. lia.
    + apply Forall_cons in Hlast as [Hr _]. rewrite app_nil_r in Hcount.
      rewrite <- Hcount.
      replace (length full * columns + length r + columns - 1)%nat
        with ((length r - 1) + (length full + 1) * columns)%nat by lia.
      rewrite Nat.div_add by lia. rewrite Nat.div_small by lia. lia.
Qed.

(** ** What [delete] keeps *)

Section delete_invariant.
Context `{Locale} (rank : loc → nat) (P : Store → Prop).

(** [P] is kept by the three store updates that [delete] is made of:
    allocating an array, setting a tombstone, and giving the receiver a
    filtered array. *)
Hypothesis P_alloc : ∀ s elems,
  WellFormed s → P s →
  P (mkStore (objects s) (<[fresh (dom (arrays s)) := elems]> (arrays s))).
Hypothesis P_tombstone : ∀ s item a n p d,
  WellFormed s → objects s !! item = Some (Directory a n p d) → P s →
  P (mkStore (<[item := Directory a n p true]> (objects s)) (arrays s)).
Hypothesis P_remove : ∀ s this item a n p d elems,
  WellFormed s → objects s !! this = Some (Directory a n p d) →
  arrays s !! a = Some elems → P s →
  P (mkStore
       (<[this := Directory (fresh (dom (arrays s))) n p d]> (objects s))
       (<[fresh (dom (arrays s)) := List.filter (is_not item) elems]> (arrays s))).

Lemma loop_keeps (fuel : nat) (item : loc) :
  (∀ s this c,
     WellFormed s → Ranked rank s → is_directory s this →
     is_Some (objects s !! c) → rank c < fuel → P s →
     ∃ s', Directory.delete fuel this c s = Return () s' ∧ P s') →
  ∀ cs s,
  WellFormed s → Ranked rank s → is_directory s item →
  (∀ c, c ∈ cs → is_Some (objects s !! c) ∧ rank c < fuel) → P s →
  ∃ s', for_each cs (λ child, Directory.delete fuel item child) s = Return () s'
    ∧ P s' ∧ WellFormed s' ∧ shrinks s s'.
Proof.
  intros IHfuel. induction cs as [| c cs IH]; intros s Hwf Hr Hdir Hcs HP.
  - exists s. split; [reflexivity |]. split; [done |]. split; [done |].
    apply shrinks_refl.
  - destruct (Hcs c) as [Hc Hrank]; [by left |].
    destruct (IHfuel s item c Hwf Hr Hdir Hc Hrank HP) as (s1 & Hrun1 & HP1).
    destruct (run_delete rank fuel s item c Hwf Hr Hdir Hc Hrank)
      as (s1' & Hrun1' & Hpost1).
    rewrite Hrun1 in Hrun1'. injection Hrun1' as <-.
    pose proof (dp_shrinks _ _ _ _ Hpost1) as Hs1.
    destruct (IH s1) as (s2 & Hrun2 & HP2 & Hwf2 & Hs2).
    + apply (dp_wf _ _ _ _ Hpost1).
    + by eapply Ranked_shrinks.
    + by eapply shrinks_is_directory.
    + intros c0 Hc0. destruct (Hcs c0) as [Hc0' Hrank0]; [by right |].
      split; [by eapply shrinks_is_Some | done].
    + done.
    + exists s2. split.
      { simpl. by rewrite (run_bind_Return _ _ _ _ _ Hrun1). }
      split; [done |]. split; [done |]. by eapply shrinks_trans.
Qed.

Lemma delete_keeps : ∀ fuel s this item,
  WellFormed s → Ranked rank s → is_directory s this →
  is_Some (objects s !! item) → rank item < fuel → P s →
  ∃ s', Directory.delete fuel this item s = Return () s' ∧ P s'.
Proof.
  induction fuel as [| fuel IHfuel];
    intros s this item Hwf Hr (at_ & nt & pt & dt & Ht) [it Hit] Hrank HP; [lia |].
  rewrite delete_unfold.
  rewrite (run_bind_Return _ _ _ _ _ (run_get_item _ _ _ Hit)).
  destruct it as [n p | a n p d]; simpl type; cbv iota.
  - destruct (wf_array _ Hwf _ _ _ _ _ Ht) as [elems Ha].
    rewrite (run_bind_Return _ _ _ _ _ (run_ret () s)).
    rewrite (run_remove s this item _ _ _ _ _ Ht Ha).
    eexists. split; [reflexivity |]. by eapply P_remove.
  - destruct (wf_array _ Hwf _ _ _ _ _ Hit) as [elems Ha].
    pose proof (run_children s item a n p d elems Hit Ha) as Hrun1.
    destruct (alloc_facts s (sorted_children s item) Hwf) as (Hwf1 & Hs1 & Hk1).
    pose proof (P_alloc s (sorted_children s item) Hwf HP) as HP1.
    set (s1 := mkStore (objects s)
                 (<[fresh (dom (arrays s)) := sorted_children s item]> (arrays s)))
      in *.
    destruct (loop_keeps fuel item IHfuel (sorted_children s item) s1)
      as (s2 & Hrun2 & HP2 & Hwf2 & Hs2).
    { done. } { by eapply Ranked_shrinks. }
    { exists a, n, p, d. exact Hit. }
    { intros c Hc. apply elem_of_sorted_children in Hc. split.
      - by eapply (wf_kids _ Hwf).
      - specialize (Hr _ _ Hc). lia. }
    { done. }
    destruct (shrinks_lookup s1 s2 item _ Hs2 Hit) as ([| a2 n2 p2 d2] & Hit2 & Hsh2);
      [done |].
    destruct (tombstone_facts s2 item a2 n2 p2 d2 Hwf2 Hit2)
      as (Hwf3 & Hs3 & _).
    pose proof (P_tombstone s2 item a2 n2 p2 d2 Hwf2 Hit2 HP2) as HP3.
    set (s3 := mkStore (<[item := Directory a2 n2 p2 true]> (objects s2)) (arrays s2))
      in *.
    assert (Hblock :
      (snapshot ← Directory.children item;
       elems0 ← read_array snapshot;
       for_each elems0 (λ child, Directory.delete fuel item child);;
       set_deleted item true) s = Return () s3).
    { rewrite (run_bind_Return _ _ _ _ _ Hrun1).
      rewrite (run_bind_Return _ _ _ _ _
                 (run_read_array s1 _ (sorted_children s item) (lookup_insert_eq _ _ _))).
      rewrite (run_bind_Return _ _ _ _ _ Hrun2).
      by apply run_set_deleted with d2. }
    rewrite (run_bind_Return _ _ _ _ _ Hblock).
    assert (Hs03 : shrinks s s3).
    { eapply shrinks_trans; [exact Hs1 |]. by eapply shrinks_trans. }
    destruct (shrinks_lookup s s3 this _ Hs03 Ht) as ([| a3 n3 p3 d3] & Ht3 & Hsh3);
      [done |].
    destruct (wf_array _ Hwf3 _ _ _ _ _ Ht3) as [elems3 Ha3].
    rewrite (run_remove s3 this item _ _ _ _ _ Ht3 Ha3).
    eexists. split; [reflexivity |]. by eapply P_remove.
Qed.

End delete_invariant.

(** ** The tree invariant *)

Lemma filter_sublist {A} (f : A → bool) (l : list A) : sublist (List.filter f l) l.
Proof.
  induction l as [| x l IH]; simpl; [constructor |].
  destruct (f x); by constructor.
Qed.

Lemma own_arrays_Owned s : own_arrays s = true → Owned s.
Proof.
  unfold own_arrays. rewrite forallb_forall.
  intros Hall p1 p2 a n1 q1 d1 n2 q2 d2 E1 E2.
  specialize (Hall (p1, Directory a n1 q1 d1)). rewrite forallb_forall in Hall.
  specialize (Hall ltac:(by apply list_elem_of_In, elem_of_map_to_list)
                   (p2, Directory a n2 q2 d2)
                   ltac:(by apply list_elem_of_In, elem_of_map_to_list)).
  simpl in Hall. rewrite Pos.eqb_refl in Hall. simpl in Hall.
  by apply Pos.eqb_eq in Hall.
Qed.

Lemma linked_Linked s : linked s = true → Linked s.
Proof.
  unfold linked. rewrite !andb_true_iff, forallb_forall.
  intros [[Hwf Hown] Hall].
  assert (Hentry : ∀ p c, c ∈ kids s p →
    forallb (λ c, bool_decide (parent_at s c = Some p)) (kids s p) = true
    ∧ NoDup (kids s p)).
  { intros p c Hc.
    destruct (kids_elem_directory _ _ _ Hc) as (a & n & q & d & elems & E & _ & _).
    specialize (Hall (p, Directory a n q d)
                     ltac:(by apply list_elem_of_In, elem_of_map_to_list)).
    simpl in Hall. apply andb_true_iff in Hall as [H1 H2].
    by apply bool_decide_eq_true in H2. }
  split; [by apply well_formed_WellFormed | by apply own_arrays_Owned | |].
  - intros p c Hc. destruct (Hentry p c Hc) as [Hpar _].
    rewrite forallb_forall in Hpar.
    by apply list_elem_of_In, Hpar, bool_decide_eq_true in Hc.
  - intros p. destruct (kids s p) as [| c cs] eqn:Ek; [constructor |].
    rewrite <- Ek. apply (Hentry p c). rewrite Ek. by left.
Qed.

Lemma Linked_orphan s item :
  Linked s → parent_at s item = None → ∀ q, item ∉ kids s q.
Proof.
  intros Hl Hp q Hin. rewrite (linked_parent _ Hl _ _ Hin) in Hp. done.
Qed.

(** X12: [create] keeps the tree invariant: in a store where every
    directory has its own array, holds each child once and is the parent
    of its children, [create] either throws and leaves the store as it
    was, or returns a new item without parent in a store that has the
    invariant again. *)
Theorem create_keeps_linked (s : Store) (ty : FSType) (nm : string) :
  linked s = true →
  match FSViewModel.create ty nm s with
  | Return l s' => Linked s' ∧ parent_at s' l = None ∧ objects s !! l = None
  | Throw _ s' => s' = s
  | _ => False
  end.
Proof.
  intros Hl. apply linked_Linked in Hl. pose proof (linked_wf _ Hl) as Hwf.
  unfold FSViewModel.create.
  destruct (String.eqb_spec (JsString.trim nm) "") as [_ | _]; [done |].
  set (l := fresh (dom (objects s))).
  assert (Hfresh : objects s !! l = None) by apply fresh_object_None.
  assert (Hnew : ∀ (item : FSItem) (arrs : gmap positive (list positive)),
    parent item = None →
    (∀ a, is_Some (arrays s !! a) → arrs !! a = arrays s !! a) →
    (∀ a n q d, item = Directory a n q d → arrays s !! a = None ∧ arrs !! a = Some []) →
    Linked (mkStore (<[l := item]> (objects s)) arrs)).
  { intros item arrs Hp Harrs Hdir.
    set (s' := mkStore (<[l := item]> (objects s)) arrs).
    assert (Hk : ∀ p, p ≠ l → kids s' p = kids s p).
    { intros p Hpl. apply kids_frame; [simpl; by rewrite lookup_insert_ne |].
      intros a n q d E. simpl. apply Harrs. by eapply wf_array. }
    assert (Hkl : kids s' l = []).
    { unfold kids. simpl. rewrite lookup_insert_eq.
      destruct item as [| a n q d]; [done |]. simpl.
      pose proof (proj2 (Hdir a n q d eq_refl)) as Ea. by rewrite Ea. }
    assert (Hin : ∀ p c, c ∈ kids s' p → p ≠ l ∧ c ≠ l ∧ c ∈ kids s p).
    { intros p c Hc. destruct (decide (p = l)) as [-> | Hpl].
      - rewrite Hkl in Hc. inversion Hc.
      - rewrite Hk in Hc by done. split; [done |]. split; [| done].
        intros ->. destruct (wf_kids _ Hwf _ _ Hc) as [x Hx]. congruence. }
    split; [split | | |].
    - intros p a n q d E. simpl in E. destruct (decide (p = l)) as [-> | Hpl].
      + rewrite lookup_insert_eq in E. injection E as ->.
        pose proof (proj2 (Hdir a n q d eq_refl)) as Ea. simpl. rewrite Ea. eauto.
      + rewrite lookup_insert_ne in E by done. simpl.
        rewrite Harrs; by eapply wf_array.
    - intros p c Hc. destruct (Hin p c Hc) as (_ & Hcl & Hc').
      simpl. rewrite lookup_insert_ne by done. by eapply wf_kids.
    - intros x it q E Hq. simpl in E. destruct (decide (x = l)) as [-> | Hxl].
      + rewrite lookup_insert_eq in E. injection E as ->. congruence.
      + rewrite lookup_insert_ne in E by done.
        destruct (wf_parent _ Hwf _ _ _ E Hq) as (a & n & r & d & Eq).
        exists a, n, r, d. simpl. rewrite lookup_insert_ne; [done |].
        intros ->. congruence.
    - intros p1 p2 a n1 q1 d1 n2 q2 d2 E1 E2. simpl in E1, E2.
      destruct (decide (p1 = l)) as [-> | H1], (decide (p2 = l)) as [-> | H2];
        [done | | |].
      + rewrite lookup_insert_eq in E1. rewrite lookup_insert_ne in E2 by done.
        injection E1 as E1. destruct (Hdir _ _ _ _ E1) as [Hnone _].
        destruct (wf_array _ Hwf _ _ _ _ _ E2) as [x Hx]. congruence.
      + rewrite lookup_insert_eq in E2. rewrite lookup_insert_ne in E1 by done.
        injection E2 as E2. destruct (Hdir _ _ _ _ E2) as [Hnone _].
        destruct (wf_array _ Hwf _ _ _ _ _ E1) as [x Hx]. congruence.
      + rewrite lookup_insert_ne in E1, E2 by done.
        by eapply (linked_owned _ Hl).
    - intros p c Hc. destruct (Hin p c Hc) as (_ & Hcl & Hc').
      unfold parent_at. simpl. rewrite lookup_insert_ne by done.
      by apply (linked_parent _ Hl).
    - intros p. destruct (decide (p = l)) as [-> | Hpl].
      + rewrite Hkl. constructor.
      + rewrite Hk by done. apply (linked_once _ Hl). }
  destruct ty.
  - rewrite run_new_File. fold l. split; [| split; [| done]].
    + by apply Hnew.
    + unfold parent_at. simpl. by rewrite lookup_insert_eq.
  - rewrite run_new_Directory. fold l. split; [| split; [| done]].
    + apply Hnew; [done | |].
      * intros a [x Hx]. apply lookup_insert_ne. intros <-.
        rewrite fresh_array_None in Hx. done.
      * intros a n q d [= <- _ _ _]. split; [apply fresh_array_None |].
        apply lookup_insert_eq.
    + unfold parent_at. simpl. by rewrite lookup_insert_eq.
Qed.

(** X13: [add] keeps the tree invariant when the item is in no
    directory: on a directory that is not tombstoned it returns, the
    receiver gains the item as its last child, no other directory's
    children change, and the store has the invariant again. *)
Theorem add_keeps_linked (s : Store) (this item : loc) a n p elems :
  linked s = true →
  objects s !! this = Some (Directory a n p false) →
  arrays s !! a = Some elems →
  is_Some (objects s !! item) →
  (∀ q, item ∉ kids s q) →
  ∃ s', Directory.add this item s = Return item s'
    ∧ Linked s'
    ∧ kids s' this = elems ++ [item]
    ∧ (∀ q, q ≠ this → kids s' q = kids s q)
    ∧ parent_at s' item = Some this.
Proof.
  intros Hl Ht Ha [it Hit] Hfree. apply linked_Linked in Hl.
  pose proof (linked_wf _ Hl) as Hwf.
  set (s' := mkStore (<[item := with_parent it (Some this)]> (objects s))
                     (<[a := elems ++ [item]]> (arrays s))).
  destruct (with_parent_fields it (Some this)) as (Hwp & _ & Hwt & _).
  assert (Hshape : ∀ x a0 n0 q0 d0,
    objects s' !! x = Some (Directory a0 n0 q0 d0) →
    ∃ q1, objects s !! x = Some (Directory a0 n0 q1 d0)).
  { intros x a0 n0 q0 d0 E. simpl in E. destruct (decide (x = item)) as [-> | Hx].
    - rewrite lookup_insert_eq in E. destruct it as [| a1 n1 q1 d1]; [done |].
      simpl in E. injection E as -> -> _ ->. eauto.
    - rewrite lookup_insert_ne in E by done. eauto. }
  assert (Hshape' : ∀ x a0 n0 q0 d0,
    objects s !! x = Some (Directory a0 n0 q0 d0) →
    ∃ q1, objects s' !! x = Some (Directory a0 n0 q1 d0)).
  { intros x a0 n0 q0 d0 E.
    by apply (lookup_after_set_parent s x item it (Some this) a0 n0 q0 d0). }
  assert (Hkt : kids s' this = elems ++ [item]).
  { destruct (Hshape' _ _ _ _ _ Ht) as [q1 E].
    rewrite (kids_directory _ _ _ _ _ _ E). simpl. by rewrite lookup_insert_eq. }
  assert (Hko : ∀ q, q ≠ this → kids s' q = kids s q).
  { intros q Hq. unfold kids at 1.
    destruct (objects s' !! q) as [[n0 q0 | a0 n0 q0 d0] |] eqn:E.
    - simpl in E. destruct (decide (q = item)) as [-> | Hqi].
      + rewrite lookup_insert_eq in E. destruct it; [| done].
        symmetry. by eapply kids_file.
      + rewrite lookup_insert_ne in E by done. symmetry. by eapply kids_file.
    - destruct (Hshape _ _ _ _ _ E) as [q1 E0].
      rewrite (kids_directory _ _ _ _ _ _ E0). simpl.
      rewrite lookup_insert_ne; [done |]. intros <-.
      apply Hq. by eapply (linked_owned _ Hl).
    - simpl in E. destruct (decide (q = item)) as [-> | Hqi].
      + by rewrite lookup_insert_eq in E.
      + rewrite lookup_insert_ne in E by done. symmetry. by apply kids_None. }
  assert (Hke : kids s this = elems).
  { by rewrite (kids_directory _ _ _ _ _ _ Ht), Ha. }
  assert (Hin : ∀ q c, c ∈ kids s' q → c ∈ kids s q ∨ (q = this ∧ c = item)).
  { intros q c Hc. destruct (decide (q = this)) as [-> | Hq].
    - rewrite Hkt in Hc. apply elem_of_app in Hc as [Hc | Hc].
      + left. by rewrite Hke.
      + right. apply list_elem_of_singleton in Hc. done.
    - rewrite Hko in Hc by done. by left. }
  exists s'. split; [by apply (run_add s this item it a n p elems) |].
  split; [| split; [done | split; [done |]]].
  - split; [split | | |].
    + intros q a0 n0 q0 d0 E. destruct (Hshape _ _ _ _ _ E) as [q1 E0].
      destruct (wf_array _ Hwf _ _ _ _ _ E0) as [x Hx]. simpl.
      destruct (decide (a = a0)) as [<- | Hne].
      * rewrite lookup_insert_eq. eauto.
      * rewrite lookup_insert_ne by done. eauto.
    + intros q c Hc. simpl.
      assert (Hc0 : is_Some (objects s !! c)).
      { destruct (Hin q c Hc) as [Hc' | [_ ->]]; [by eapply wf_kids | eauto]. }
      destruct (decide (c = item)) as [-> | Hci].
      * rewrite lookup_insert_eq. eauto.
      * by rewrite lookup_insert_ne.
    + intros x it' q E Hq. simpl in E.
      assert (Hq0 : is_directory s q).
      { destruct (decide (x = item)) as [-> | Hx].
        - rewrite lookup_insert_eq in E. injection E as <-.
          rewrite Hwp in Hq. injection Hq as <-. by exists a, n, p, false.
        - rewrite lookup_insert_ne in E by done. by eapply wf_parent. }
      destruct Hq0 as (a0 & n0 & q0 & d0 & E0).
      destruct (Hshape' _ _ _ _ _ E0) as [q1 E1]. by exists a0, n0, q1, d0.
    + intros p1 p2 a0 n1 q1 d1 n2 q2 d2 E1 E2.
      destruct (Hshape _ _ _ _ _ E1) as [r1 E1'].
      destruct (Hshape _ _ _ _ _ E2) as [r2 E2'].
      by eapply (linked_owned _ Hl).
    + intros q c Hc. unfold parent_at. simpl.
      destruct (Hin q c Hc) as [Hc' | [-> ->]].
      * rewrite lookup_insert_ne by (intros <-; by apply (Hfree q)).
        by apply (linked_parent _ Hl).
      * rewrite lookup_insert_eq. simpl. by rewrite Hwp.
    + intros q. destruct (decide (q = this)) as [-> | Hq].
      * rewrite Hkt. apply NoDup_app. split; [| split].
        -- rewrite <- Hke. apply (linked_once _ Hl).
        -- intros c Hc ->%list_elem_of_singleton. apply (Hfree this).
           by rewrite Hke.
        -- apply NoDup_singleton.
      * rewrite Hko by done. apply (linked_once _ Hl).
  - unfold parent_at. simpl. rewrite lookup_insert_eq. simpl. by rewrite Hwp.
Qed.

(** X14: [delete] keeps the tree invariant: from a store that has it,
    and has no containment cycle, [this.delete(item)] returns a store that
    has it again, in which every directory holds what is left of its
    children in the order they had. *)
Theorem delete_keeps_linked `{Locale} (rank : loc → nat) (fuel : nat)
    (s : Store) (this item : loc) :
  linked s = true →
  ranked rank s = true →
  directoryb s this = true →
  is_Some (objects s !! item) →
  rank item < fuel →
  ∃ s', Directory.delete fuel this item s = Return () s'
    ∧ Linked s'
    ∧ ∀ p, sublist (kids s' p) (kids s p).
Proof.
  intros Hl Hr Hdir Hit Hrank. apply linked_Linked in Hl.
  pose proof (linked_wf _ Hl) as Hwf. apply ranked_Ranked in Hr.
  apply directoryb_true in Hdir.
  set (P := λ s' : Store, Owned s' ∧ ∀ p, sublist (kids s' p) (kids s p)).
  assert (Hsame : ∀ s1 s2 : Store,
    (∀ x a0 n0 q0 d0, objects s2 !! x = Some (Directory a0 n0 q0 d0) →
       ∃ n1 q1 d1, objects s1 !! x = Some (Directory a0 n1 q1 d1)) →
    Owned s1 → Owned s2).
  { intros s1 s2 Hsh Ho p1 p2 a0 n1 q1 d1 n2 q2 d2 E1 E2.
    destruct (Hsh _ _ _ _ _ E1) as (? & ? & ? & E1').
    destruct (Hsh _ _ _ _ _ E2) as (? & ? & ? & E2').
    by eapply Ho. }
  destruct (delete_keeps rank P) with (fuel := fuel) (s := s) (this := this)
    (item := item) as (s' & Hrun & Hown & Hsub); try done.
  - (* allocating an array *)
    intros s0 elems Hwf0 [Ho Hs]. split; [by eapply Hsame; [| exact Ho]; eauto |].
    intros q. by rewrite kids_alloc.
  - (* setting a tombstone *)
    intros s0 x a n p d Hwf0 Hx [Ho Hs].
    destruct (tombstone_facts s0 x a n p d Hwf0 Hx) as (_ & _ & Hk & _).
    split; [| intros q; by rewrite Hk].
    eapply Hsame; [| exact Ho]. intros y a0 n0 q0 d0 E. simpl in E.
    destruct (decide (y = x)) as [-> | Hy].
    + rewrite lookup_insert_eq in E. injection E as <- <- <- <-. eauto.
    + rewrite lookup_insert_ne in E by done. eauto.
  - (* giving the receiver a filtered array *)
    intros s0 t x a n p d elems Hwf0 Ht Ha [Ho Hs].
    destruct (remove_facts s0 t x a n p d elems Hwf0 Ht Ha)
      as (_ & _ & Hthis & Hother & _).
    split.
    + intros p1 p2 a0 n1 q1 d1 n2 q2 d2 E1 E2. simpl in E1, E2.
      destruct (decide (p1 = t)) as [-> | H1], (decide (p2 = t)) as [-> | H2];
        [done | | |].
      * rewrite lookup_insert_eq in E1. rewrite lookup_insert_ne in E2 by done.
        injection E1 as <- _ _ _.
        destruct (wf_array _ Hwf0 _ _ _ _ _ E2) as [y Hy].
        rewrite fresh_array_None in Hy. done.
      * rewrite lookup_insert_eq in E2. rewrite lookup_insert_ne in E1 by done.
        injection E2 as <- _ _ _.
        destruct (wf_array _ Hwf0 _ _ _ _ _ E1) as [y Hy].
        rewrite fresh_array_None in Hy. done.
      * rewrite lookup_insert_ne in E1, E2 by done. by eapply Ho.
    + intros q. destruct (decide (q = t)) as [-> | Hq].
      * rewrite Hthis. etrans; [apply filter_sublist | apply Hs].
      * by rewrite Hother.
  - split; [apply (linked_owned _ Hl) | done].
  - destruct (run_delete rank fuel s this item Hwf Hr Hdir Hit Hrank)
      as (s'' & Hrun' & Hpost).
    rewrite Hrun in Hrun'. injection Hrun' as <-.
    exists s'. split; [done |]. split; [| done].
    split; [apply (dp_wf _ _ _ _ Hpost) | done | |].
    + intros p c Hc.
      destruct (shrinks_fields s s' c (dp_shrinks _ _ _ _ Hpost)) as (_ & -> & _).
      apply (linked_parent _ Hl). by apply (sublist_subseteq _ _ (Hsub p)).
    + intros p. exact (sublist_NoDup _ _ (linked_once _ Hl p) (Hsub p)).
Qed.

(** ** The path of an added item *)

Lemma join_snoc sep (parts : list string) (last : string) :
  parts ≠ [] →
  JsString.join sep (parts ++ [last]) = JsString.join sep parts +:+ sep +:+ last.
Proof.
  induction parts as [| part parts IH]; [done |]. intros _.
  destruct parts as [| part' parts]; [reflexivity |].
  change (JsString.join sep ((part :: part' :: parts) ++ [last]))
    with (part +:+ sep +:+ JsString.join sep ((part' :: parts) ++ [last])).
  rewrite IH by done.
  change (JsString.join sep (part :: part' :: parts))
    with (part +:+ sep +:+ JsString.join sep (part' :: parts)).
  by rewrite !string_append_assoc.
Qed.

Lemma lineage_frame s s' item ancestors :
  lineage s item ancestors →
  (∀ x, x ∈ item :: ancestors → objects s' !! x = objects s !! x) →
  lineage s' item ancestors.
Proof.
  induction 1 as [item it Hit Hp | item it p ancestors Hit Hp Hl IH]; intros Hsame.
  - apply lineage_root with it; [| done]. rewrite Hsame; [done | by left].
  - apply lineage_step with it; [| done |].
    + rewrite Hsame; [done | by left].
    + apply IH. intros x Hx. apply Hsame. right.
      apply elem_of_cons in Hx as [-> | Hx]; apply elem_of_app; [right | left];
        [by left | done].
Qed.

(** X15: [add] puts the item under the receiver's path. When the parent
    chain of the receiver ends at a root and the item is neither the
    receiver nor one of its ancestors, then after [this.add(item)] the
    ancestors of the item are those of the receiver followed by the
    receiver, and the path of the item is the path of the receiver, a
    ['/'] and the name of the item. *)
Theorem add_extends_path (s : Store) (this item : loc) it a n p elems
    (ancestors : list loc) (fuel : nat) :
  objects s !! this = Some (Directory a n p false) →
  arrays s !! a = Some elems →
  objects s !! item = Some it →
  lineage s this ancestors →
  item ∉ this :: ancestors →
  S (length ancestors) < fuel →
  ∃ s' dirpath,
    Directory.add this item s = Return item s'
    ∧ filepath fuel this s = Return dirpath s
    ∧ filepath fuel item s' = Return (dirpath +:+ "/" +:+ name it) s'
    ∧ parents fuel item s' = Return (ancestors ++ [this]) s'.
Proof.
  intros Ht Ha Hit Hl Hout Hfuel.
  set (s' := mkStore (<[item := with_parent it (Some this)]> (objects s))
                     (<[a := elems ++ [item]]> (arrays s))).
  destruct (with_parent_fields it (Some this)) as (Hwp & Hwn & _).
  assert (Hl' : lineage s' this ancestors).
  { apply (lineage_frame s); [done |]. intros x Hx. simpl.
    apply lookup_insert_ne. by intros <-. }
  assert (Hli : lineage s' item (ancestors ++ [this])).
  { apply lineage_step with (with_parent it (Some this)); [| done | done].
    simpl. apply lookup_insert_eq. }
  assert (Hnames : ∀ x, name_at s' x = name_at s x).
  { intros x. unfold name_at. simpl. destruct (decide (x = item)) as [-> | Hx].
    - by rewrite lookup_insert_eq, Hit.
    - by rewrite lookup_insert_ne. }
  assert (Hlen1 : (length (name_at s <$> (ancestors ++ [this])) ≤ fuel)%nat).
  { rewrite length_fmap, length_app. simpl. lia. }
  assert (Hlen2 : (length (name_at s' <$> ((ancestors ++ [this]) ++ [item])) ≤ fuel)%nat).
  { rewrite length_fmap, !length_app. simpl. lia. }
  exists s', (JsString.join "/" (name_at s <$> (ancestors ++ [this]))).
  split; [by apply (run_add s this item it a n p elems) |].
  split; [| split].
  - unfold filepath.
    rewrite (run_bind_Return _ _ _ _ _
               (filepath_loop_chain _ _ _ (lineage_chain _ _ _ Hl) fuel [] Hlen1)).
    by rewrite app_nil_r.
  - unfold filepath.
    rewrite (run_bind_Return _ _ _ _ _
               (filepath_loop_chain _ _ _ (lineage_chain _ _ _ Hli) fuel [] Hlen2)).
    rewrite app_nil_r, run_ret. f_equal.
    rewrite (fmap_app _ (ancestors ++ [this]) [item]). simpl.
    rewrite join_snoc.
    + assert (Hmap : name_at s' <$> (ancestors ++ [this])
                     = name_at s <$> (ancestors ++ [this])).
      { apply list_fmap_ext. intros i x _. apply Hnames. }
      rewrite Hmap, Hnames. unfold name_at at 2. by rewrite Hit.
    + rewrite fmap_app. simpl. by destruct (name_at s' <$> ancestors).
  - unfold parents. rewrite (parents_loop_lineage _ _ _ Hli).
    + by rewrite app_nil_r.
    + rewrite length_app. simpl. lia.
Qed.

(** ** The further properties at the example tree *)

Lemma example_store_linked : linked example_store = true.
Proof. vm_compute. reflexivity. Qed.

Lemma orphan_store_linked : linked orphan_store = true.
Proof. vm_compute. reflexivity. Qed.

Lemma example_lineage : lineage example_store 5 [1; 2; 4]%positive.
Proof.
  apply (lineage_step example_store 5 (File "c.txt" (Some 4%positive)) 4
           [1; 2]%positive); [reflexivity | reflexivity |].
  apply (lineage_step example_store 4 (Directory 3 "sub" (Some 2%positive) false) 2
           [1%positive]); [reflexivity | reflexivity |].
  apply (lineage_step example_store 2 (Directory 2 "a" (Some 1%positive) false) 1
           []); [reflexivity | reflexivity |].
  by apply (lineage_root example_store 1 (Directory 1 "" None false)).
Qed.

Lemma orphan_lineage : lineage orphan_store 4 [1; 2]%positive.
Proof.
  apply (lineage_step orphan_store 4 (Directory 3 "sub" (Some 2%positive) false) 2
           [1%positive]); [reflexivity | reflexivity |].
  apply (lineage_step orphan_store 2 (Directory 2 "a" (Some 1%positive) false) 1
           []); [reflexivity | reflexivity |].
  by apply (lineage_root orphan_store 1 (Directory 1 "" None false)).
Qed.

Lemma parents_lineage_witness :
  parents 4 5 example_store = Return [1; 2; 4]%positive example_store
  ∧ filepath 4 5 example_store = Return "/a/sub/c.txt" example_store.
Proof.
  destruct (parents_lineage example_store 5 [1; 2; 4]%positive 4 example_lineage)
    as [Hparents Hpath].
  - simpl. lia.
  - split; [exact Hparents |]. rewrite Hpath. vm_compute. reflexivity.
Defined.

Lemma add_self_never_ends_witness :
  ∃ s', Directory.add 1 1 lone_directory_store = Return 1%positive s'
    ∧ (∀ fuel, filepath fuel 1 s' = OutOfFuel)
    ∧ (∀ fuel this, @Directory.delete codeUnitLocale fuel this 1 s' = OutOfFuel).
Proof.
  destruct (@add_self_never_ends codeUnitLocale lone_directory_store 1 1 "loop" None [])
    as (s' & Hrun & _ & _ & Hpath & Hdelete).
  - reflexivity.
  - reflexivity.
  - exists s'. split; [exact Hrun |]. split.
    + intros fuel. exact (proj1 (Hpath fuel)).
    + exact (Hdelete eq_refl).
Defined.

Lemma children_is_a_copy_witness :
  ∃ r1 s1 s2 r2 s3 result,
    @Directory.children codeUnitLocale 2 example_store = Return r1 s1
    ∧ Directory.add 2 5 s1 = Return 5%positive s2
    ∧ @Directory.children codeUnitLocale 2 s2 = Return r2 s3
    ∧ r2 ≠ r1
    ∧ arrays s3 !! r1 = Some [3; 4]%positive
    ∧ arrays s3 !! r2 = Some result
    ∧ 5%positive ∈ result.
Proof.
  destruct (@children_is_a_copy codeUnitLocale codeUnitLocale_order
              example_store 2 2 "a" (Some 1%positive) [3; 4]%positive
              5%positive (File "c.txt" (Some 4%positive)))
    as (r1 & s1 & s2 & r2 & s3 & result & H1 & _ & _ & _ & _ & Hadd & _ & _
        & H2 & Hne & _ & Hold & _ & Hnew & _ & Hin & _).
  - reflexivity.
  - reflexivity.
  - reflexivity.
  - exists r1, s1, s2, r2, s3, result.
    split; [exact H1 |]. split; [exact Hadd |]. split; [exact H2 |].
    split; [exact Hne |]. split; [exact Hold |]. split; [exact Hnew |].
    exact Hin.
Defined.

Lemma delete_keeps_paths_witness :
  ∃ s', @Directory.delete codeUnitLocale 3 1 2 example_store = Return () s'
    ∧ filepath 4 5 s' = Return "/a/sub/c.txt" s'.
Proof.
  destruct (@delete_keeps_paths codeUnitLocale example_rank 3 example_store 1 2)
    as (s' & Hrun & Hpaths & _).
  - exact example_store_well_formed.
  - exact example_store_ranked.
  - vm_compute. reflexivity.
  - eexists. vm_compute. reflexivity.
  - vm_compute. lia.
  - exists s'. split; [exact Hrun |]. apply Hpaths. vm_compute. reflexivity.
Defined.

Lemma add_after_delete_throws_witness :
  ∃ s', @Directory.delete codeUnitLocale 3 1 2 example_store = Return () s'
    ∧ Directory.add 4 3 s'
      = Throw (mkError "cannot add item to a deleted directory") s'.
Proof.
  destruct (@add_after_delete_throws codeUnitLocale example_rank 3 example_store 1 2)
    as (s' & Hrun & Hthrow).
  - exact example_store_well_formed.
  - exact example_store_ranked.
  - vm_compute. reflexivity.
  - eexists. vm_compute. reflexivity.
  - vm_compute. lia.
  - exists s'. split; [exact Hrun |]. apply Hthrow; [| vm_compute; reflexivity].
    right. apply tc_once. unfold contains.
    destruct example_kids as (_ & -> & _). right. left.
Defined.

Lemma delete_again_is_harmless_witness :
  ∃ s' s'',
    @Directory.delete codeUnitLocale 3 1 2 example_store = Return () s'
    ∧ @Directory.delete codeUnitLocale 1 1 2 s' = Return () s''
    ∧ ∀ p, kids s'' p = kids s' p.
Proof.
  destruct (@delete_again_is_harmless codeUnitLocale example_rank 3 example_store 1 2)
    as (s' & Hrun & Hagain).
  - exact example_store_well_formed.
  - exact example_store_ranked.
  - vm_compute. reflexivity.
  - eexists. vm_compute. reflexivity.
  - vm_compute. lia.
  - destruct (Hagain 0%nat) as (s'' & Hrun' & Hk & _).
    exists s', s''. split; [exact Hrun |]. split; [exact Hrun' | exact Hk].
Defined.

Lemma isNameAvailable_spec_witness :
  ∃ available s',
    @FSViewModel.isNameAvailable codeUnitLocale example_view "a" example_store
    = Return available s'
    ∧ objects s' = objects example_store.
Proof.
  destruct (@isNameAvailable_spec codeUnitLocale example_view "a" example_store
              1 "" None false [2%positive])
    as (available & s' & Hrun & _ & Ho & _).
  - reflexivity.
  - reflexivity.
  - exists available, s'. split; [exact Hrun | exact Ho].
Defined.

Lemma createWindows_ids_witness :
  WindowManager.id <$> WindowManager.windows
    (WindowManager.createWindows WindowManager.new [None; Some (); None])
  = [1; 2; 3]%Z.
Proof.
  destruct (createWindows_ids [None; Some (); None]) as (Hids & _).
  - vm_compute. reflexivity.
  - exact Hids.
Defined.

Lemma create_keeps_linked_witness :
  match FSViewModel.create file " notes.txt " example_store with
  | Return l s' =>
      Linked s' ∧ parent_at s' l = None ∧ objects example_store !! l = None
  | Throw _ s' => s' = example_store
  | _ => False
  end.
Proof. exact (create_keeps_linked example_store file " notes.txt " example_store_linked). Defined.

Lemma add_keeps_linked_witness :
  ∃ s', Directory.add 1 6 orphan_store = Return 6%positive s'
    ∧ Linked s'
    ∧ parent_at s' 6 = Some 1%positive.
Proof.
  destruct (add_keeps_linked orphan_store 1 6 1 "" None [2%positive])
    as (s' & Hrun & Hl & _ & _ & Hp).
  - exact orphan_store_linked.
  - reflexivity.
  - reflexivity.
  - eexists. reflexivity.
  - apply Linked_orphan; [exact (linked_Linked _ orphan_store_linked) | reflexivity].
  - exists s'. split; [exact Hrun |]. split; [exact Hl | exact Hp].
Defined.

Lemma delete_keeps_linked_witness :
  ∃ s', @Directory.delete codeUnitLocale 3 1 2 example_store = Return () s'
    ∧ Linked s'.
Proof.
  destruct (@delete_keeps_linked codeUnitLocale example_rank 3 example_store 1 2)
    as (s' & Hrun & Hl & _).
  - exact example_store_linked.
  - exact example_store_ranked.
  - vm_compute. reflexivity.
  - eexists. vm_compute. reflexivity.
  - vm_compute. lia.
  - exists s'. split; [exact Hrun | exact Hl].
Defined.

Lemma add_extends_path_witness :
  ∃ s', Directory.add 4 6 orphan_store = Return 6%positive s'
    ∧ filepath 5 6 s' = Return "/a/sub/new.txt" s'
    ∧ parents 5 6 s' = Return [1; 2; 4]%positive s'.
Proof.
  destruct (add_extends_path orphan_store 4 6 (File "new.txt" None) 3 "sub"
              (Some 2%positive) [5%positive] [1; 2]%positive 5)
    as (s' & dirpath & Hrun & Hdir & Hpath & Hparents).
  - reflexivity.
  - reflexivity.
  - reflexivity.
  - exact orphan_lineage.
  - intros Hin. apply elem_of_cons in Hin as [Hin | Hin]; [discriminate |].
    apply elem_of_cons in Hin as [Hin | Hin]; [discriminate |].
    apply elem_of_cons in Hin as [Hin | Hin]; [discriminate | inversion Hin].
  - simpl. lia.
  - exists s'. split; [exact Hrun |]. split; [| exact Hparents].
    assert (Hd : dirpath = "/a/sub").
    { vm_compute in Hdir. by injection Hdir as <-. }
    rewrite Hpath, Hd. reflexivity.
Defined.
